(** * code-ferret: the keyword search engine of [src/CodeSearchEngine.ts]

    A shallow embedding of [CodeSearchEngine] (keyword extraction, index
    construction, the two scoring modes, ranking), of [loadGitignore] and
    [getSourceFiles] from [src/utils.ts], with the properties of the engine
    stated against it; then of [extractCodeInfo] from [src/utils.ts] and of
    the [search_code] tool of the MCP server.

    Conventions of the embedding.
    - A JavaScript string is a [list ascii]; every character is a code unit in
      the range 0..255 (the Latin-1 part of UTF-16).  [toLowerCase], [\s],
      [\w] and [.] are the ECMAScript ones restricted to that range.
    - A JavaScript number that holds a score is an IEEE 754 double
      ([Double.t], the binary64 instance of [SpecFloat]): [+], [-] and [*]
      round to nearest, ties to even, and the literals 0.01, 0.005, 0.3, 0.2
      and 0.1 are the doubles nearest to these decimals.  Term weights and the
      number of matches are integers ([Z], [nat]), turned into doubles where
      the code multiplies them by a double.
    - A JavaScript [Map] is an association list in insertion order
      ([JSMap]); the two maps of the engine object, which are only read by
      key, are [gmap]s.
    - Regular expressions are terms of [regex], run by a backtracking matcher
      with the ECMAScript priorities (greedy quantifiers, left alternative
      first).  Of the expressions that the fall-back branch builds from a
      query token, those of pattern characters and [.] are run; a token of
      these and of [*], [+], [?] in which a quantifier has nothing to repeat
      is a [SyntaxError]; a call that needs more of the pattern syntax ends
      as [Unmodelled], which says nothing of how the code ends.
    - What a call reads from outside ([process.cwd], [glob], the file system,
      the matching of the [ignore] package, MD5) is a [World]; paths are
      POSIX paths.
    - A loop that need not end (the climb of [loadGitignore]) takes fuel, the
      number of times its condition may be tested, and gives [None] when that
      does not suffice.  Discovery runs it with one turn more than the
      directory has characters, which suffices whenever any number does; a
      call in which the loop does not end is a call that [NeverReturns]. *)

From Stdlib Require Import List String Ascii ZArith Lia Bool Arith.
From Stdlib Require Import Sorting.Sorted Sorting.Permutation SpecFloat.
From stdpp Require Import gmap strings list fin_maps.
Import ListNotations.

Open Scope string_scope.
Open Scope list_scope.
Open Scope nat_scope.

(** String literals are read as lists of code units. *)
Coercion list_ascii_of_string : string >-> list.

Abbreviation text := (list ascii).

(* ===================================================================== *)
(** ** Characters *)
(* ===================================================================== *)

Module Char.

Definition code (c : ascii) : nat := nat_of_ascii c.

Definition between (lo hi : nat) (c : ascii) : bool :=
  (lo <=? code c) && (code c <=? hi).

Definition isUpper (c : ascii) : bool := between 65 90 c.
Definition isLower (c : ascii) : bool := between 97 122 c.
Definition isDigit (c : ascii) : bool := between 48 57 c.
Definition isLetter (c : ascii) : bool := isUpper c || isLower c.

(** [\w] is [[A-Za-z0-9_]]. *)
Definition isWord (c : ascii) : bool :=
  isLetter c || isDigit c || (code c =? 95).

(** [\s]: TAB, LF, VT, FF, CR, space and NBSP (the members below 256). *)
Definition isSpace (c : ascii) : bool :=
  between 9 13 c || (code c =? 32) || (code c =? 160).

(** [.] matches everything but the line terminators LF and CR. *)
Definition isLineTerminator (c : ascii) : bool :=
  (code c =? 10) || (code c =? 13).

(** Upper-case letters of Latin-1: A-Z and U+00C0..U+00DE without U+00D7. *)
Definition hasLower (c : ascii) : bool :=
  isUpper c || (between 192 222 c && negb (code c =? 215)).

Definition toLower (c : ascii) : ascii :=
  if hasLower c then ascii_of_nat (code c + 32) else c.

(** Lower-case letters whose upper case is again in Latin-1. *)
Definition hasUpper (c : ascii) : bool :=
  isLower c || (between 224 254 c && negb (code c =? 247)).

(** [Canonicalize] of a case-insensitive, non-unicode regular expression:
    the upper case when it is a single code unit of the same side of 128. *)
Definition canon (c : ascii) : ascii :=
  if hasUpper c then ascii_of_nat (code c - 32) else c.

Definition eqb (ic : bool) (c d : ascii) : bool :=
  if ic then Ascii.eqb (canon c) (canon d) else Ascii.eqb c d.

End Char.

(* ===================================================================== *)
(** ** Strings *)
(* ===================================================================== *)

Module Str.

Definition eqb (s t : text) : bool :=
  if decide (s = t) then true else false.

Definition toLowerCase (s : text) : text := map Char.toLower s.

Fixpoint startsWith (p s : text) : bool :=
  match p, s with
  | [], _ => true
  | _ :: _, [] => false
  | a :: p', b :: s' => Ascii.eqb a b && startsWith p' s'
  end.

(** [s.includes(p)] *)
Fixpoint includes (p s : text) : bool :=
  startsWith p s ||
  match s with
  | [] => false
  | _ :: s' => includes p s'
  end.

Definition endsWith (p s : text) : bool := startsWith (rev p) (rev s).

Fixpoint dropWhile (p : ascii -> bool) (s : text) : text :=
  match s with
  | [] => []
  | c :: s' => if p c then dropWhile p s' else s
  end.

Fixpoint takeWhile (p : ascii -> bool) (s : text) : text :=
  match s with
  | [] => []
  | c :: s' => if p c then c :: takeWhile p s' else []
  end.

(** [s.trim()] *)
Definition trim (s : text) : text :=
  rev (dropWhile Char.isSpace (rev (dropWhile Char.isSpace s))).

(** [s.split(sep)] for a separator of one character. *)
Fixpoint split (sep : ascii) (s : text) : list text :=
  match s with
  | [] => [[]]
  | c :: s' =>
      if Ascii.eqb c sep then [] :: split sep s'
      else match split sep s' with
           | [] => [[c]]
           | w :: ws => (c :: w) :: ws
           end
  end.

(** [s.replace(p, r)] for a string pattern: the first occurrence only. *)
Fixpoint replaceFirst (p r : text) (s : text) : text :=
  if startsWith p s then r ++ skipn (length p) s
  else match s with
       | [] => []
       | c :: s' => c :: replaceFirst p r s'
       end.

(** [parts.join(sep)] *)
Fixpoint join (sep : text) (parts : list text) : text :=
  match parts with
  | [] => []
  | [p] => p
  | p :: ps => p ++ sep ++ join sep ps
  end.

End Str.

(* ===================================================================== *)
(** ** Regular expressions *)
(* ===================================================================== *)

Module Re.

Inductive regex : Type :=
| Eps
| Chr (c : ascii)               (* a pattern character *)
| Dot                           (* [.] *)
| Cls (p : ascii -> bool)       (* a character class: [\w], [\s], [[^\w\s]] *)
| Cat (r1 r2 : regex)
| Alt (r1 r2 : regex)           (* r1|r2, r1 tried first *)
| Star (r : regex).             (* r*, greedy *)

Definition Plus (r : regex) : regex := Cat r (Star r).

Fixpoint Lit (s : text) : regex :=
  match s with
  | [] => Eps
  | c :: s' => Cat (Chr c) (Lit s')
  end.

Definition cont := text -> option text.

(** The greedy loop of [r*]: an iteration that consumes nothing is
    rejected, as by RepeatMatcher; [n] bounds the number of iterations by
    the length of the input. *)
Fixpoint star_loop (body : text -> cont -> option text) (k : cont)
    (n : nat) (s : text) : option text :=
  match n with
  | O => k s
  | S n' =>
      match body s (fun s' => if length s' <? length s
                              then star_loop body k n' s' else None) with
      | Some x => Some x
      | None => k s
      end
  end.

(** [run ic r s k]: match [r] at the head of [s] and hand the rest to the
    continuation [k]; backtrack when [k] fails.  [ic] is the [i] flag: a
    pattern character then matches up to [Canonicalize]; the classes [\w]
    and [\s] hold no character below 256 that another one canonicalizes
    to, and are matched as they are. *)
Fixpoint run (ic : bool) (r : regex) (s : text) (k : cont) : option text :=
  match r with
  | Eps => k s
  | Chr c =>
      match s with
      | d :: s' => if Char.eqb ic c d then k s' else None
      | [] => None
      end
  | Dot =>
      match s with
      | d :: s' => if Char.isLineTerminator d then None else k s'
      | [] => None
      end
  | Cls p =>
      match s with
      | d :: s' => if p d then k s' else None
      | [] => None
      end
  | Cat r1 r2 => run ic r1 s (fun s' => run ic r2 s' k)
  | Alt r1 r2 =>
      match run ic r1 s k with
      | Some x => Some x
      | None => run ic r2 s k
      end
  | Star r' => star_loop (run ic r') k (length s) s
  end.

(** The length of the match of [r] that starts at the head of [s]. *)
Definition exec (ic : bool) (r : regex) (s : text) : option nat :=
  match run ic r s Some with
  | Some rest => Some (length s - length rest)
  | None => None
  end.

(** [s.match(/r/g) || []]: the matches from left to right, the search
    resuming at the end of each match (one further after an empty one). *)
Fixpoint matchAllFrom (ic : bool) (r : regex) (skip : nat) (s : text)
    : list text :=
  match s with
  | [] =>
      match skip, exec ic r [] with
      | O, Some _ => [[]]
      | _, _ => []
      end
  | _ :: s' =>
      match skip with
      | S n => matchAllFrom ic r n s'
      | O =>
          match exec ic r s with
          | Some len => firstn len s :: matchAllFrom ic r (pred len) s'
          | None => matchAllFrom ic r O s'
          end
      end
  end.

Definition matchAll (ic : bool) (r : regex) (s : text) : list text :=
  matchAllFrom ic r 0 s.

(** [s.replace(/r/g, rep)] for a replacement without [$] patterns. *)
Fixpoint replaceAllFrom (ic : bool) (r : regex) (rep : text) (skip : nat)
    (s : text) : text :=
  match s with
  | [] =>
      match skip, exec ic r [] with
      | O, Some _ => rep
      | _, _ => []
      end
  | c :: s' =>
      match skip with
      | S n => replaceAllFrom ic r rep n s'
      | O =>
          match exec ic r s with
          | Some O => rep ++ c :: replaceAllFrom ic r rep O s'
          | Some (S n) => rep ++ replaceAllFrom ic r rep n s'
          | None => c :: replaceAllFrom ic r rep O s'
          end
      end
  end.

Definition replaceAll (ic : bool) (r : regex) (rep : text) (s : text)
    : text :=
  replaceAllFrom ic r rep 0 s.

(** [/r/.test(s)]: a match at some position of [s]. *)
Fixpoint test (ic : bool) (r : regex) (s : text) : bool :=
  match exec ic r s with
  | Some _ => true
  | None =>
      match s with
      | [] => false
      | _ :: s' => test ic r s'
      end
  end.

(** [s.split(/r/)]: [cur] is the piece being read, [skip] the characters
    of a separator still to be dropped. *)
Fixpoint splitFrom (ic : bool) (r : regex) (cur : text) (skip : nat)
    (s : text) : list text :=
  match s with
  | [] => [cur]
  | c :: s' =>
      match skip with
      | S n => splitFrom ic r cur n s'
      | O =>
          match exec ic r s with
          | Some O =>
              match cur with
              | [] => splitFrom ic r [c] O s'
              | _ => cur :: splitFrom ic r [c] O s'
              end
          | Some (S n) => cur :: splitFrom ic r [] n s'
          | None => splitFrom ic r (cur ++ [c]) O s'
          end
      end
  end.

Definition split (ic : bool) (r : regex) (s : text) : list text :=
  match s with
  | [] => match exec ic r [] with Some _ => [] | None => [[]] end
  | _ => splitFrom ic r [] 0 s
  end.

(** The classes of the source. *)
Definition w : regex := Cls Char.isWord.
Definition ws : regex := Cls Char.isSpace.

End Re.

(* ===================================================================== *)
(** ** JavaScript [Map] with string keys *)
(* ===================================================================== *)

Module JSMap.

Definition t (V : Type) : Type := list (text * V).

Definition empty {V} : t V := [].

Fixpoint get {V} (k : text) (m : t V) : option V :=
  match m with
  | [] => None
  | (k', v) :: m' => if Str.eqb k k' then Some v else get k m'
  end.

(** [m.set(k, v)]: an existing key keeps its place, a new one goes last. *)
Fixpoint set {V} (k : text) (v : V) (m : t V) : t V :=
  match m with
  | [] => [(k, v)]
  | (k', v') :: m' =>
      if Str.eqb k k' then (k', v) :: m' else (k', v') :: set k v m'
  end.

Definition size {V} (m : t V) : nat := length m.

Definition entries {V} (m : t V) : list (text * V) := m.

Definition keys {V} (m : t V) : list text := map fst m.

End JSMap.

(* ===================================================================== *)
(** ** Keyword extraction ([extractKeywords], [isCommonKeyword]) *)
(* ===================================================================== *)

Module Extract.

Definition commonKeywords : list text :=
  [ "if" : text; "else" : text; "for" : text; "while" : text; "do" : text;
    "switch" : text; "case" : text; "break" : text; "continue" : text;
    "return" : text; "try" : text; "catch" : text; "finally" : text;
    "throw" : text; "new" : text; "delete" : text; "typeof" : text;
    "instanceof" : text; "void" : text; "this" : text; "super" : text;
    "class" : text; "interface" : text; "extends" : text;
    "implements" : text; "static" : text; "public" : text;
    "private" : text; "protected" : text; "const" : text; "let" : text;
    "var" : text; "function" : text; "async" : text; "await" : text;
    "import" : text; "export" : text; "from" : text; "as" : text;
    "true" : text; "false" : text; "null" : text; "undefined" : text;
    "NaN" : text; "Infinity" : text ].

Definition isCommonKeyword (word : text) : bool :=
  existsb (Str.eqb word) commonKeywords.

(** [/[^\w\s]/g] *)
Definition re_symbol : Re.regex :=
  Re.Cls (fun c => negb (Char.isWord c || Char.isSpace c)).

(** [/\s+/g] *)
Definition re_spaces : Re.regex := Re.Plus Re.ws.

(** [/class\s+(\w+)/g] *)
Definition re_class : Re.regex :=
  Re.Cat (Re.Lit "class") (Re.Cat (Re.Plus Re.ws) (Re.Plus Re.w)).

(** [/function\s+(\w+)|(\w+)\s*\(/g] *)
Definition re_function : Re.regex :=
  Re.Alt (Re.Cat (Re.Lit "function") (Re.Cat (Re.Plus Re.ws) (Re.Plus Re.w)))
         (Re.Cat (Re.Plus Re.w) (Re.Cat (Re.Star Re.ws) (Re.Chr "("))).

(** [/function\s+|\s*\(/g] *)
Definition re_strip : Re.regex :=
  Re.Alt (Re.Cat (Re.Lit "function") (Re.Plus Re.ws))
         (Re.Cat (Re.Star Re.ws) (Re.Chr "(")).

(** [keywords.set(k, (keywords.get(k) || 0) + n)] *)
Definition bump (n : Z) (k : text) (keywords : JSMap.t Z) : JSMap.t Z :=
  JSMap.set k (default 0%Z (JSMap.get k keywords) + n)%Z keywords.

Definition normalizedCode (code : text) : text :=
  Str.trim
    (Re.replaceAll false re_spaces " "
       (Re.replaceAll false re_symbol " " (Str.toLowerCase code))).

Definition countWord (keywords : JSMap.t Z) (word : text) : JSMap.t Z :=
  if (length word <=? 2) || isCommonKeyword word then keywords
  else bump 1 word keywords.

Definition countClass (keywords : JSMap.t Z) (m : text) : JSMap.t Z :=
  let className := Str.toLowerCase (Str.replaceFirst "class " "" m) in
  bump 10 className keywords.

Definition countFunction (keywords : JSMap.t Z) (m : text) : JSMap.t Z :=
  let functionName := Str.toLowerCase (Re.replaceAll false re_strip "" m) in
  if (2 <? length functionName) && negb (isCommonKeyword functionName)
  then bump 5 functionName keywords
  else keywords.

Definition extractKeywords (code : text) : JSMap.t Z :=
  let words := Str.split " " (normalizedCode code) in
  let keywords := fold_left countWord words JSMap.empty in
  let classMatches := Re.matchAll false re_class code in
  let keywords := fold_left countClass classMatches keywords in
  let functionMatches := Re.matchAll false re_function code in
  fold_left countFunction functionMatches keywords.

End Extract.

(* ===================================================================== *)
(** ** Numbers (IEEE 754 doubles) *)
(* ===================================================================== *)

Module Double.

(** binary64: 53 bits of precision, exponents below 1024. *)
Definition prec : Z := 53.
Definition emax : Z := 1024.

Definition t : Type := spec_float.

Definition zero : t := S754_zero false.

Definition add (x y : t) : t := SFadd prec emax x y.
Definition sub (x y : t) : t := SFsub prec emax x y.
Definition mul (x y : t) : t := SFmul prec emax x y.
Definition div (x y : t) : t := SFdiv prec emax x y.

(** [x < y] *)
Definition ltb (x y : t) : bool := SFltb x y.

(** An integer as a double (exact below [2^53]). *)
Definition ofZ (z : Z) : t := binary_normalize prec emax z 0 false.

(** The decimal literal of value [n/d]: the double nearest to it, which is
    the quotient of the two integers as doubles. *)
Definition literal (n d : Z) : t := div (ofZ n) (ofZ d).

Definition d0_01 : t := literal 1 100.
Definition d0_005 : t := literal 5 1000.
Definition d0_3 : t := literal 3 10.
Definition d0_2 : t := literal 2 10.
Definition d0_1 : t := literal 1 10.

(** The sum of a list of doubles, added one after the other to [+0]. *)
Definition sum (l : list t) : t := fold_left add l zero.

(** The least exponent of a double: a finite double is a multiple of
    [2^emin]. *)
Definition emin : Z := -1074.

(** A double of sign [s] that is not zero: finite with an exponent of at
    least [lo], or infinite. *)
Definition signed (s : bool) (lo : Z) (x : t) : Prop :=
  match x with
  | S754_finite s' _ e => s' = s /\ (lo <= e)%Z
  | S754_infinity s' => s' = s
  | _ => False
  end.

(** [+0], a positive finite double or [+Infinity]. *)
Definition amount (x : t) : Prop := x = zero \/ signed false emin x.

(** [+0], [NaN], or a double that is not zero, of either sign. *)
Definition regular (x : t) : Prop :=
  x = zero \/ x = S754_nan \/ exists s, signed s emin x.

(** The number that a double stands for: [level] tells the infinities from
    the finite doubles, and [units] is a finite double in units of
    [2^emin]. *)
Definition level (x : t) : Z :=
  match x with
  | S754_infinity false => 1
  | S754_infinity true => -1
  | _ => 0
  end.

Definition units (x : t) : Z :=
  match x with
  | S754_finite false m e => Z.pos m * 2 ^ (e - emin)
  | S754_finite true m e => - (Z.pos m * 2 ^ (e - emin))
  | _ => 0
  end.

Definition isNaN (x : t) : bool :=
  match x with
  | S754_nan => true
  | _ => false
  end.

(** The order of the numbers that two doubles stand for. *)
Definition lt (x y : t) : Prop :=
  isNaN x = false /\ isNaN y = false /\
  ((level x < level y)%Z \/ level x = level y /\ (units x < units y)%Z).

(** Two doubles that stand for the same number. *)
Definition same (x y : t) : bool :=
  negb (isNaN x) && negb (isNaN y)
  && (level x =? level y)%Z && (units x =? units y)%Z.

End Double.

(* ===================================================================== *)
(** ** Paths ([path.resolve], [path.basename] on POSIX) *)
(* ===================================================================== *)

Module Path.

Definition sep : ascii := "/"%char.

(** The segment stack of [normalizeString] without [allowAboveRoot]: empty
    segments and [.] are skipped, [..] drops the last segment if any. *)
Definition pushSegment (stack : list text) (seg : text) : list text :=
  if Str.eqb seg [] || Str.eqb seg "." then stack
  else if Str.eqb seg ".." then removelast stack
  else stack ++ [seg].

Definition normalizeSegments (segs : list text) : list text :=
  fold_left pushSegment segs [].

(** [path.resolve(directory)] with [process.cwd() = cwd], an absolute path:
    the right-most absolute prefix of [cwd/directory], normalized. *)
Definition resolve (cwd directory : text) : text :=
  let resolvedPath :=
    match directory with
    | [] => cwd ++ "/"
    | c :: _ =>
        if Ascii.eqb c sep then directory ++ "/"
        else cwd ++ "/" ++ directory ++ "/"
    end in
  sep :: Str.join "/" (normalizeSegments (Str.split sep resolvedPath)).

(** [path.basename(file)]: what follows the last separator, trailing
    separators apart. *)
Definition basename (file : text) : text :=
  rev (Str.takeWhile (fun c => negb (Ascii.eqb c sep))
         (Str.dropWhile (fun c => Ascii.eqb c sep) (rev file))).

End Path.

(* ===================================================================== *)
(** ** More of [path]: [parse().root], [dirname], [join], [relative] *)
(* ===================================================================== *)

Module NodePath.

Definition isSep (c : ascii) : bool := Ascii.eqb c Path.sep.

(** [path.parse(p).root]: the separator of an absolute path, else empty. *)
Definition root (p : text) : text :=
  match p with
  | c :: _ => if isSep c then "/" else []
  | [] => []
  end.

(** [path.dirname(p)].  The loop runs from the last character down to the
    second one: it passes the trailing separators, then the last segment,
    and stops at the separator before it, at index [end]; here that is the
    head of what is left of the reversed tail.  Without such a separator the
    result is the root or [.]; [end = 1] behind a root gives [//]. *)
Definition dirname (p : text) : text :=
  match p with
  | [] => "."
  | c :: rest =>
      let hasRoot := isSep c in
      match Str.dropWhile (fun d => negb (isSep d))
              (Str.dropWhile isSep (rev rest)) with
      | [] => if hasRoot then "/" else "."
      | _ :: before =>
          if hasRoot && (length before =? 0) then "//"
          else c :: rev before
      end
  end.

(** The segment stack of [normalizeString] with [allowAboveRoot]: a [..]
    that has nothing to drop is kept. *)
Definition pushSegmentAbove (stack : list text) (seg : text) : list text :=
  if Str.eqb seg [] || Str.eqb seg "." then stack
  else if Str.eqb seg ".." then
    match stack with
    | [] => stack ++ [seg]
    | _ => if Str.eqb (List.last stack []) ".." then stack ++ [seg]
           else removelast stack
    end
  else stack ++ [seg].

(** [path.normalize(p)] *)
Definition normalize (p : text) : text :=
  match p with
  | [] => "."
  | c :: _ =>
      let isAbsolute := isSep c in
      let trailingSeparator := Str.endsWith "/" p in
      let segments :=
        fold_left (if isAbsolute then Path.pushSegment else pushSegmentAbove)
          (Str.split Path.sep p) [] in
      match Str.join "/" segments with
      | [] =>
          if isAbsolute then "/"
          else if trailingSeparator then "./" else "."
      | normalized =>
          let normalized :=
            if trailingSeparator then normalized ++ "/" else normalized in
          if isAbsolute then Path.sep :: normalized else normalized
      end
  end.

(** [path.join(a, b)]: the non-empty arguments joined by the separator,
    normalized. *)
Definition join (a b : text) : text :=
  normalize
    match a, b with
    | [], _ => b
    | _, [] => a
    | _, _ => a ++ "/" ++ b
    end.

(** The segments of a resolved path: what lies between its separators. *)
Definition segments (resolved : text) : list text :=
  List.filter (fun seg => negb (Str.eqb seg []))
    (Str.split Path.sep resolved).

(** The way from one list of segments to another: the segments that the
    two share at the front are passed over, every segment left of the first
    list is a step up, and the segments left of the second list follow. *)
Fixpoint steps (fromSegments toSegments : list text) : list text :=
  match fromSegments, toSegments with
  | f :: fromRest, t :: toRest =>
      if Str.eqb f t then steps fromRest toRest
      else map (fun _ => ".." : text) fromSegments ++ toSegments
  | _, _ => map (fun _ => ".." : text) fromSegments ++ toSegments
  end.

(** [path.relative(from, to)] with [process.cwd() = cwd]: both paths are
    resolved; the result is empty when they are the same, else the steps
    from the one to the other, joined. *)
Definition relative (cwd from to : text) : text :=
  Str.join "/"
    (steps (segments (Path.resolve cwd from))
       (segments (Path.resolve cwd to))).

End NodePath.

(* ===================================================================== *)
(** ** How a call ends *)
(* ===================================================================== *)

Inductive error : Type :=
| NoFilesFound        (* "No files found in ... with extensions ..." *)
| NoIndexedFiles      (* "No files indexed for directory ..." *)
| DiscoveryFailed     (* a rejection of [glob] that nothing catches *)
| IgnoreFailed        (* the [RangeError] or [TypeError] that [ig.ignores]
                         throws at a path it does not accept *)
| SyntaxError         (* [new RegExp] at a token that is not a pattern *)
| TypeError.          (* a property read on [undefined] *)

(** A call returns, throws (for an [async] function: its promise rejects),
    or never returns.  [Unmodelled] marks a query token whose pattern syntax
    lies outside the part of [new RegExp] that [Pattern.compile] covers: the
    model does not say how such a call ends. *)
Inductive outcome (A : Type) : Type :=
| Returns (a : A)
| Throws (e : error)
| NeverReturns
| Unmodelled.

Arguments Returns {A} a.
Arguments Throws {A} e.
Arguments NeverReturns {A}.
Arguments Unmodelled {A}.

(* ===================================================================== *)
(** ** The world outside the engine *)
(* ===================================================================== *)

(** What a call reads from the process, the file system and the packages
    [glob] and [ignore]. *)
Record World : Type := {
  (** [process.cwd()] is ["/" ++ cwd_tail] *)
  cwd_tail : text;
  (** [glob(pattern)]; [None] when the promise rejects *)
  glob : text -> option (list text);
  (** [fs.existsSync(path)] *)
  existsSync : text -> bool;
  (** [ig.ignores(relativePath)] for the object [ig] to which the texts of
      the list were added, in that order; [None] when it throws, as the
      package does at a path that is empty or not relative *)
  ignores : list text -> text -> option bool;
  (** the entries [item] of [readdirSync(directory)] for which
      [statSync(path.join(directory, item))] is a directory; [None] when
      [readdirSync] throws *)
  subdirectories : text -> option (list text);
  (** [fs.readFileSync(file, 'utf-8')]; [None] when it throws *)
  readFile : text -> option text;
  (** [crypto.createHash('md5').update(content).digest('hex')] *)
  md5 : text -> text
}.

Definition cwd (w : World) : text := Path.sep :: cwd_tail w.

(* ===================================================================== *)
(** ** The ignore rules ([loadGitignore] of [utils.ts]) *)
(* ===================================================================== *)

Module Gitignore.

(** An [Ignore] object, as far as [loadGitignore] builds it: the texts
    handed to [ig.add], in the order of the calls. *)
Definition Ignore : Type := list text.

(** The [while] loop that climbs from the directory to the root and
    collects the [.gitignore] files that exist; [fuel] bounds the number of
    times the condition of the loop is tested, [None] is a loop that has
    not ended within it.  [existsSync] is [fs.existsSync]. *)
Fixpoint climb (fuel : nat) (existsSync : text -> bool) (currentDir : text)
    (gitignoreFiles : list text) : option (list text) :=
  match fuel with
  | O => None
  | S fuel' =>
      if Str.eqb currentDir (NodePath.root currentDir)
      then Some gitignoreFiles
      else
        let gitignorePath := NodePath.join currentDir ".gitignore" in
        climb fuel' existsSync (NodePath.dirname currentDir)
          (if existsSync gitignorePath
           then gitignoreFiles ++ [gitignorePath]
           else gitignoreFiles)
  end.

(** The [for] loop over the files: the content of each one that can be
    read is added, a failure is logged and skipped. *)
Definition addFile (w : World) (ig : Ignore) (gitignorePath : text)
    : Ignore :=
  match readFile w gitignorePath with
  | Some content => ig ++ [content]
  | None => ig
  end.

Definition loadGitignore (fuel : nat) (existsSync : text -> bool)
    (w : World) (directory : text) : option Ignore :=
  match climb fuel existsSync directory [] with
  | None => None
  | Some gitignoreFiles =>
      let ig := fold_left (addFile w) (rev gitignoreFiles) [] in
      Some (ig ++ [ "node_modules/**" : text ])
  end.

End Gitignore.

(* ===================================================================== *)
(** ** File discovery ([getSourceFiles] of [utils.ts]) *)
(* ===================================================================== *)

Module Discovery.

Definition defaultExtensions : list text :=
  [ ".ts" : text; ".tsx" : text; ".js" : text; ".jsx" : text;
    ".py" : text; ".java" : text; ".cpp" : text; ".cs" : text ].

Definition isTestFile (file : text) : bool :=
  let filename := Str.toLowerCase (Path.basename file) in
  Str.includes ".spec." filename
  || Str.includes ".test." filename
  || Str.includes "__tests__" file.

(** [loadGitignore(directory)]: the climb gets one turn more than the
    directory has characters; [None] is a call that never returns. *)
Definition loadGitignore (w : World) (directory : text)
    : option Gitignore.Ignore :=
  Gitignore.loadGitignore (S (length directory)) (existsSync w) w directory.

(** [matches.filter(file => !ig.ignores(path.relative(absoluteDirectory,
    file)))]; [None] when [ig.ignores] throws. *)
Fixpoint filterMatches (w : World) (ig : Gitignore.Ignore)
    (absoluteDirectory : text) (matches : list text) : option (list text) :=
  match matches with
  | [] => Some []
  | file :: rest =>
      let relativePath := NodePath.relative (cwd w) absoluteDirectory file in
      match ignores w ig relativePath with
      | None => None
      | Some ignored =>
          match filterMatches w ig absoluteDirectory rest with
          | None => None
          | Some kept => Some (if ignored then kept else file :: kept)
          end
      end
  end.

(** The loop over the extensions: the matches of each, ignored ones
    dropped, appended to [files]. *)
Fixpoint collect (w : World) (ig : Gitignore.Ignore)
    (directory absoluteDirectory : text) (extensions : list text)
    (files : list text) : outcome (list text) :=
  match extensions with
  | [] => Returns files
  | ext :: rest =>
      match glob w (directory ++ "/**/*" ++ ext) with
      | None => Throws DiscoveryFailed
      | Some matches =>
          match filterMatches w ig absoluteDirectory matches with
          | None => Throws IgnoreFailed
          | Some filteredMatches =>
              collect w ig directory absoluteDirectory rest
                (files ++ filteredMatches)
          end
      end
  end.

Definition getSourceFiles (w : World) (directory : text)
    (extensions : option (list text)) : outcome (list text) :=
  match loadGitignore w directory with
  | None => NeverReturns
  | Some ig =>
      let absoluteDirectory := Path.resolve (cwd w) directory in
      match collect w ig directory absoluteDirectory
              (default defaultExtensions extensions) [] with
      | Returns files =>
          Returns (List.filter (fun file => negb (isTestFile file)) files)
      | Throws e => Throws e
      | NeverReturns => NeverReturns
      | Unmodelled => Unmodelled
      end
  end.

End Discovery.

(* ===================================================================== *)
(** ** The engine ([CodeSearchEngine]) *)
(* ===================================================================== *)

Record CodeMetadata : Type := {
  file : text;
  code : text;
  keywords : JSMap.t Z;
  checksum : text
}.

Record SearchResult : Type := {
  r_file : text;
  r_code : text;
  similarityScore : Double.t;
  rank : nat
}.

(** The two private maps of the engine object. *)
Record State : Type := {
  directoryIndices : gmap (list ascii) (list CodeMetadata);
  indexedExtensions : gmap (list ascii) (list text)
}.

(** [new CodeSearchEngine()] *)
Definition initial : State :=
  {| directoryIndices := ∅; indexedExtensions := ∅ |}.

(** [new RegExp(keyword)], as far as it is modelled. *)
Module Pattern.

Definition syntaxCharacters : text := "^$\.*+?()[]{}|".

Definition isSyntaxCharacter (c : ascii) : bool :=
  existsb (Ascii.eqb c) syntaxCharacters.

(** The patterns made of pattern characters and [.]; any other syntax
    character is outside. *)
Fixpoint parse (p : text) : option Re.regex :=
  match p with
  | [] => Some Re.Eps
  | c :: p' =>
      match parse p' with
      | None => None
      | Some r =>
          if Ascii.eqb c "."%char then Some (Re.Cat Re.Dot r)
          else if isSyntaxCharacter c then None
          else Some (Re.Cat (Re.Chr c) r)
      end
  end.

Definition isQuantifier (c : ascii) : bool := existsb (Ascii.eqb c) "*+?".

(** An atom of the patterns read here: a pattern character or [.]. *)
Definition isAtom (c : ascii) : bool :=
  Ascii.eqb c "."%char || negb (isSyntaxCharacter c).

(** Where the reading of a pattern stands: nothing to repeat (at the start,
    and behind a quantifier with its [?]), behind an atom, or behind a
    quantifier, which a [?] may follow. *)
Inductive position : Type :=
| NothingToRepeat
| BehindAtom
| BehindQuantifier.

(** Every quantifier of a pattern of atoms and quantifiers has an atom to
    repeat. *)
Fixpoint repeats (at_ : position) (p : text) : bool :=
  match p with
  | [] => true
  | c :: p' =>
      if isQuantifier c then
        match at_ with
        | BehindAtom => repeats BehindQuantifier p'
        | BehindQuantifier =>
            Ascii.eqb c "?"%char && repeats NothingToRepeat p'
        | NothingToRepeat => false
        end
      else repeats BehindAtom p'
  end.

Inductive compiled : Type :=
| Compiled (r : Re.regex)
| Invalid       (* [new RegExp] throws a [SyntaxError] *)
| Outside.      (* more of the pattern syntax than is modelled *)

(** A pattern of atoms is compiled; a pattern of atoms and quantifiers in
    which a quantifier has nothing to repeat is invalid; every other
    pattern is outside. *)
Definition compile (p : text) : compiled :=
  match parse p with
  | Some r => Compiled r
  | None =>
      if forallb (fun c => isAtom c || isQuantifier c) p
         && negb (repeats NothingToRepeat p)
      then Invalid
      else Outside
  end.

End Pattern.

Module Engine.

Import Re.

(** [score > 0] *)
Definition positive (score : Double.t) : bool :=
  Double.ltb Double.zero score.

Definition getNormalizedDirectory (w : World) (directory : text) : text :=
  let resolvedDir := Path.resolve (cwd w) directory in
  if Str.endsWith "/" resolvedDir then resolvedDir else resolvedDir ++ "/".

Definition getMetadataForDirectory (w : World) (s : State)
    (directory : text) : list CodeMetadata :=
  default [] (directoryIndices s !! getNormalizedDirectory w directory).

(** *** [createIndex] *)

(** The loop over the sub-directories; a discovery that throws is logged
    and skipped, one that does not return holds the loop for ever. *)
Fixpoint subdirectoryFiles (w : World) (subdirs : list text)
    (extensions : option (list text)) (allFiles : list text)
    : outcome (list text) :=
  match subdirs with
  | [] => Returns allFiles
  | subdir :: rest =>
      match Discovery.getSourceFiles w subdir extensions with
      | Returns subFiles =>
          subdirectoryFiles w rest extensions (allFiles ++ subFiles)
      | Throws _ => subdirectoryFiles w rest extensions allFiles
      | NeverReturns => NeverReturns
      | Unmodelled => Unmodelled
      end
  end.

(** The files to index, or how the call ends without them.  Whatever is
    thrown while the sub-directories are looked at is caught and thrown
    again as the error of line 173. *)
Definition discover (w : World) (directory : text)
    (extensions : option (list text)) : outcome (list text) :=
  match Discovery.getSourceFiles w directory extensions with
  | Returns [] =>
      match subdirectories w directory with
      | None => Throws NoFilesFound
      | Some items =>
          let subdirs := map (NodePath.join directory) items in
          match subdirectoryFiles w subdirs extensions [] with
          | Returns [] => Throws NoFilesFound
          | Returns allFiles => Returns allFiles
          | Throws _ => Throws NoFilesFound
          | NeverReturns => NeverReturns
          | Unmodelled => Unmodelled
          end
      end
  | Returns files => Returns files
  | Throws e => Throws e
  | NeverReturns => NeverReturns
  | Unmodelled => Unmodelled
  end.

(** The loop over the files; a file that cannot be read is logged and
    skipped. *)
Definition calculateChecksum (w : World) (content : text) : text :=
  md5 w content.

Definition indexFile (w : World) (metadata : list CodeMetadata)
    (f : text) : list CodeMetadata :=
  match readFile w f with
  | Some content =>
      metadata ++ [ {| file := f;
                       code := content;
                       keywords := Extract.extractKeywords content;
                       checksum := calculateChecksum w content |} ]
  | None => metadata
  end.

Definition createIndex (w : World) (directory : text)
    (extensions : option (list text)) (s : State) : State * outcome unit :=
  let normalizedDir := getNormalizedDirectory w directory in
  match discover w directory extensions with
  | Returns files =>
      let exts := default Discovery.defaultExtensions extensions in
      let metadata := fold_left (indexFile w) files [] in
      ({| directoryIndices :=
            <[normalizedDir := metadata]> (directoryIndices s);
          indexedExtensions :=
            <[normalizedDir := exts]> (indexedExtensions s) |},
       Returns tt)
  | Throws e => (s, Throws e)
  | NeverReturns => (s, NeverReturns)
  | Unmodelled => (s, Unmodelled)
  end.

(** *** [keywordSearch] *)

Definition queryKeywords (query : text) : list text :=
  List.filter (fun k => 2 <? length k)
    (Re.split false Extract.re_spaces (Str.toLowerCase query)).

Definition hasKeywordIndices (metadata : list CodeMetadata) : bool :=
  existsb (fun item => 0 <? JSMap.size (keywords item)) metadata.

(** The inner loop of the pre-built branch: the partial matches. *)
Definition partialMatch (keyword : text) (score : Double.t)
    (entry : text * Z) : Double.t :=
  let '(indexedKeyword, indexedScore) := entry in
  if Str.includes keyword indexedKeyword
     && negb (Str.eqb indexedKeyword keyword)
  then Double.add score (Double.mul (Double.ofZ indexedScore) Double.d0_005)
  else score.

Definition prebuiltKeyword (keywordsMap : JSMap.t Z) (score : Double.t)
    (keyword : text) : Double.t :=
  let keywordScore := default 0%Z (JSMap.get keyword keywordsMap) in
  let score :=
    Double.add score (Double.mul (Double.ofZ keywordScore) Double.d0_01) in
  fold_left (partialMatch keyword) (JSMap.entries keywordsMap) score.

Definition prebuiltScore (queryKeywords : list text)
    (keywordsMap : JSMap.t Z) : Double.t :=
  fold_left (prebuiltKeyword keywordsMap) queryKeywords Double.zero.

(** [class\s+\w*K\w*] *)
Definition re_classMatch (K : regex) : regex :=
  Cat (Lit "class") (Cat (Plus ws) (Cat (Star w) (Cat K (Star w)))).

(** [function\s+\w*K\w*|\w*K\w*\s*\(] *)
Definition re_functionMatch (K : regex) : regex :=
  Alt (Cat (Lit "function") (Cat (Plus ws) (Cat (Star w) (Cat K (Star w)))))
      (Cat (Star w) (Cat K (Cat (Star w) (Cat (Star ws) (Chr "("))))).

(** [\/\/.*K|\*.*K] *)
Definition re_commentMatch (K : regex) : regex :=
  Alt (Cat (Lit "//") (Cat (Star Dot) K))
      (Cat (Chr "*") (Cat (Star Dot) K)).

(** [if (b) score += amount] *)
Definition boost (b : bool) (amount : Double.t) (score : Double.t)
    : Double.t :=
  if b then Double.add score amount else score.

(** One turn of the loop over the query keywords in the fall-back branch;
    [code] is the lower-cased text of the file. *)
Definition fallbackKeyword (code : text) (acc : outcome Double.t)
    (keyword : text) : outcome Double.t :=
  match acc with
  | Returns score =>
      match Pattern.compile keyword with
      | Pattern.Compiled K =>
          match Re.matchAll false K code with
          | [] => Returns score
          | matches =>
              let score :=
                Double.add score
                  (Double.mul (Double.ofZ (Z.of_nat (length matches)))
                     Double.d0_01) in
              let classMatch := Re.test true (re_classMatch K) code in
              let functionMatch := Re.test true (re_functionMatch K) code in
              let commentMatch := Re.test true (re_commentMatch K) code in
              Returns (boost commentMatch Double.d0_1
                         (boost functionMatch Double.d0_2
                            (boost classMatch Double.d0_3 score)))
          end
      | Pattern.Invalid => Throws SyntaxError
      | Pattern.Outside => Unmodelled
      end
  | Throws e => Throws e
  | NeverReturns => NeverReturns
  | Unmodelled => Unmodelled
  end.

Definition fallbackScore (queryKeywords : list text) (item : CodeMetadata)
    : outcome Double.t :=
  fold_left (fallbackKeyword (Str.toLowerCase (code item)))
    queryKeywords (Returns Double.zero).

(** [if (score > 0) scores.set(item.file, score)] *)
Definition record (scores : JSMap.t Double.t) (item : CodeMetadata)
    (score : Double.t) : JSMap.t Double.t :=
  if positive score then JSMap.set (file item) score scores else scores.

(** One turn of the loop over the records in the fall-back branch. *)
Definition fallbackItem (queryKeywords : list text)
    (acc : outcome (JSMap.t Double.t)) (item : CodeMetadata)
    : outcome (JSMap.t Double.t) :=
  match acc with
  | Returns scores =>
      match fallbackScore queryKeywords item with
      | Returns score => Returns (record scores item score)
      | Throws e => Throws e
      | NeverReturns => NeverReturns
      | Unmodelled => Unmodelled
      end
  | Throws e => Throws e
  | NeverReturns => NeverReturns
  | Unmodelled => Unmodelled
  end.

Definition keywordSearchOn (queryKeywords : list text)
    (metadata : list CodeMetadata) : outcome (JSMap.t Double.t) :=
  match queryKeywords with
  | [] => Returns JSMap.empty
  | _ =>
      if hasKeywordIndices metadata then
        Returns (fold_left
                   (fun scores item =>
                      record scores item
                        (prebuiltScore queryKeywords (keywords item)))
                   metadata JSMap.empty)
      else
        fold_left (fallbackItem queryKeywords) metadata
          (Returns JSMap.empty)
  end.

Definition keywordSearch (w : World) (s : State) (query directory : text)
    : outcome (JSMap.t Double.t) :=
  keywordSearchOn (queryKeywords query)
    (getMetadataForDirectory w s directory).

(** *** [search] *)

(** [(a, b) => b.similarityScore - a.similarityScore] is negative, and [a]
    goes first, when the score of [a] is the greater one. *)
Definition before (a b : SearchResult) : bool :=
  Double.ltb (Double.sub (similarityScore b) (similarityScore a))
    Double.zero.

(** [Array.prototype.sort] is stable: insertion keeps an element behind
    the earlier ones that do not have to follow it. *)
Fixpoint insert (a : SearchResult) (l : list SearchResult)
    : list SearchResult :=
  match l with
  | [] => [a]
  | b :: l' => if before b a then b :: insert a l' else a :: b :: l'
  end.

Definition sort (l : list SearchResult) : list SearchResult :=
  fold_right insert [] l.

(** [metadata.find(m => m.file === file)] *)
Definition findFile (metadata : list CodeMetadata) (f : text)
    : option CodeMetadata :=
  List.find (fun m => Str.eqb (file m) f) metadata.

(** The [map] over the entries of the score map; the rank is filled in
    after the sort.  [None] is the read of [item.code] on [undefined]. *)
Fixpoint scored (metadata : list CodeMetadata)
    (entries : list (text * Double.t)) : option (list SearchResult) :=
  match entries with
  | [] => Some []
  | (f, score) :: rest =>
      match findFile metadata f, scored metadata rest with
      | Some item, Some results =>
          Some ({| r_file := f; r_code := code item;
                   similarityScore := score; rank := 0 |} :: results)
      | _, _ => None
      end
  end.

(** [scoredResults.map((result, index) => ({...result, rank: index + 1}))] *)
Fixpoint ranked (index : nat) (results : list SearchResult)
    : list SearchResult :=
  match results with
  | [] => []
  | r :: rest =>
      {| r_file := r_file r; r_code := r_code r;
         similarityScore := similarityScore r; rank := index + 1 |}
      :: ranked (S index) rest
  end.

(** The part of [search] that follows the look-up of the index. *)
Definition searchIndexed (w : World) (s : State) (query directory : text)
    : outcome (list SearchResult) :=
  let metadata := getMetadataForDirectory w s directory in
  match metadata with
  | [] => Throws NoIndexedFiles
  | _ =>
      match keywordSearch w s query directory with
      | Returns keywordScores =>
          match scored metadata (JSMap.entries keywordScores) with
          | None => Throws TypeError
          | Some scoredResults => Returns (ranked 0 (sort scoredResults))
          end
      | Throws e => Throws e
      | NeverReturns => NeverReturns
      | Unmodelled => Unmodelled
      end
  end.

(** The extensions that [search] hands to [createIndex]. *)
Definition implicitExtensions (w : World) (s : State) (directory : text)
    : list text :=
  default Discovery.defaultExtensions
    (indexedExtensions s !! getNormalizedDirectory w directory).

Definition search (w : World) (query directory : text) (s : State)
    : State * outcome (list SearchResult) :=
  let normalizedDir := getNormalizedDirectory w directory in
  match directoryIndices s !! normalizedDir with
  | Some _ => (s, searchIndexed w s query directory)
  | None =>
      match createIndex w directory
              (Some (implicitExtensions w s directory)) s with
      | (s', Returns _) => (s', searchIndexed w s' query directory)
      | (s', Throws e) => (s', Throws e)
      | (s', NeverReturns) => (s', NeverReturns)
      | (s', Unmodelled) => (s', Unmodelled)
      end
  end.

Definition getRelevantFiles (w : World) (query directory : text)
    (s : State) : State * outcome (list text) :=
  match search w query directory s with
  | (s', Returns results) => (s', Returns (map r_file results))
  | (s', Throws e) => (s', Throws e)
  | (s', NeverReturns) => (s', NeverReturns)
  | (s', Unmodelled) => (s', Unmodelled)
  end.

End Engine.

(* ===================================================================== *)
(** ** Reachable states *)
(* ===================================================================== *)

(** The three operations a caller can invoke on the engine. *)
Inductive call : Type :=
| CreateIndex (directory : text) (extensions : option (list text))
| Search (query directory : text)
| GetRelevantFiles (query directory : text).

(** The state a call leaves behind, whether it returns or throws; every
    call runs in the world of its own time.  A call writes the two maps in
    one stretch without [await] (the end of [createIndex]), so that calls
    are taken to run one after the other. *)
Definition after (w : World) (c : call) (s : State) : State :=
  match c with
  | CreateIndex directory extensions =>
      fst (Engine.createIndex w directory extensions s)
  | Search query directory => fst (Engine.search w query directory s)
  | GetRelevantFiles query directory =>
      fst (Engine.getRelevantFiles w query directory s)
  end.

Inductive reachable : State -> Prop :=
| reach_initial : reachable initial
| reach_call w c s : reachable s -> reachable (after w c s).

(* ===================================================================== *)
(** ** Reference definitions, in the words of the specification *)
(* ===================================================================== *)

(** *** Test files *)

Module Spec.

(** A test file: the basename contains [.spec.] or [.test.], or a segment
    of the path is [__tests__]. *)
Definition isTest (f : text) : bool :=
  Str.includes ".spec." (Path.basename f)
  || Str.includes ".test." (Path.basename f)
  || existsb (Str.eqb "__tests__") (Str.split Path.sep f).

End Spec.

(** *** Nothing to index *)


(** *** Extraction *)

Module SpecExtract.

(** Step 1: lower-case; every character outside [keep] becomes a space;
    runs of whitespace collapse; trim. *)
Definition blank (keep : ascii -> bool) (c : ascii) : ascii :=
  if keep c then c else " "%char.

(** A whitespace character followed by another one is dropped, the last of
    a run becomes a space. *)
Fixpoint collapse (s : text) : text :=
  match s with
  | [] => []
  | c :: s' =>
      if Char.isSpace c then
        match s' with
        | d :: _ =>
            if Char.isSpace d then collapse s'
            else " "%char :: collapse s'
        | [] => [" "%char]
        end
      else c :: collapse s'
  end.

Definition normalize (keep : ascii -> bool) (code : text) : text :=
  Str.trim (collapse (map (blank keep) (Str.toLowerCase code))).

(** Step 2: the tokens between single spaces, those of length at most 2 and
    those of the stoplist dropped. *)
Definition significant (t : text) : bool :=
  negb ((length t <=? 2) || Extract.isCommonKeyword t).

Definition tokens (keep : ascii -> bool) (code : text) : list text :=
  List.filter significant (Str.split " " (normalize keep code)).

(** Step 4: the declaration patterns of the original text. *)
Inductive shape : Type :=
| ClassDeclaration      (* class <Name> *)
| FunctionDeclaration   (* function <name> *)
| Call.                 (* <name>( *)

(** An occurrence of a pattern: the name, and the whitespace that separates
    it from the keyword or from the parenthesis. *)
Record occurrence : Type := {
  o_shape : shape;
  o_gap : text;
  o_name : text
}.

(** [keyword], whitespace, then a name, at the head of [s]. *)
Definition declarationAt (sh : shape) (keyword : text) (s : text)
    : option (occurrence * nat) :=
  if Str.startsWith keyword s then
    let rest := skipn (length keyword) s in
    let gap := Str.takeWhile Char.isSpace rest in
    let name := Str.takeWhile Char.isWord (Str.dropWhile Char.isSpace rest) in
    match gap, name with
    | _ :: _, _ :: _ =>
        Some ({| o_shape := sh; o_gap := gap; o_name := name |},
              length keyword + length gap + length name)
    | _, _ => None
    end
  else None.

(** A name, possibly whitespace, then an opening parenthesis. *)
Definition callAt (s : text) : option (occurrence * nat) :=
  let name := Str.takeWhile Char.isWord s in
  let rest := Str.dropWhile Char.isWord s in
  let gap := Str.takeWhile Char.isSpace rest in
  match name, Str.dropWhile Char.isSpace rest with
  | _ :: _, c :: _ =>
      if Ascii.eqb c "("%char
      then Some ({| o_shape := Call; o_gap := gap; o_name := name |},
                 length name + length gap + 1)
      else None
  | _, _ => None
  end.

Definition classAt (s : text) : option (occurrence * nat) :=
  declarationAt ClassDeclaration "class" s.

Definition functionAt (s : text) : option (occurrence * nat) :=
  match declarationAt FunctionDeclaration "function" s with
  | Some o => Some o
  | None => callAt s
  end.

(** The occurrences from left to right; the scan goes on behind each. *)
Fixpoint scan (recognise : text -> option (occurrence * nat)) (skip : nat)
    (s : text) : list occurrence :=
  match s with
  | [] => []
  | _ :: s' =>
      match skip with
      | S n => scan recognise n s'
      | O =>
          match recognise s with
          | Some (o, len) => o :: scan recognise (pred len) s'
          | None => scan recognise 0 s'
          end
      end
  end.

Definition classes (code : text) : list occurrence := scan classAt 0 code.

Definition functions (code : text) : list occurrence :=
  scan functionAt 0 code.

Definition lowerName (o : occurrence) : text := Str.toLowerCase (o_name o).

Definition count (t : text) (l : list text) : Z :=
  Z.of_nat (length (List.filter (Str.eqb t) l)).

(** Steps 3 and 4: one per occurrence as a token, ten per class
    declaration of the name, five per function-like pattern of the name
    when the name passes the filter of step 2. *)
Definition weight (keep : ascii -> bool) (code : text) (t : text) : Z :=
  (count t (tokens keep code)
   + 10 * count t (map lowerName (classes code))
   + 5 * count t (List.filter significant (map lowerName (functions code))))%Z.

(** The map that holds these weights: a term is present when its weight is
    not zero. *)
Definition entry (z : Z) : option Z :=
  if Z.eqb z 0 then None else Some z.

(** Step 1 as the specification words it, and as the code has it. *)
Definition letterDigitSpace (c : ascii) : bool :=
  Char.isLetter c || Char.isDigit c || Char.isSpace c.

Definition wordOrSpace (c : ascii) : bool :=
  Char.isWord c || Char.isSpace c.

(** The two spellings of a pattern on which the code does not take the
    name: [class] and the name more than a single space apart, and a call
    with whitespace before the parenthesis whose name ends in [function]
    without being [function]. *)
Definition singleSpaced (o : occurrence) : bool := Str.eqb (o_gap o) " ".

Definition plainCall (o : occurrence) : bool :=
  match o_shape o with
  | Call =>
      Str.eqb (o_gap o) []
      || negb (Str.endsWith "function" (o_name o))
      || Str.eqb (o_name o) "function"
  | _ => true
  end.

Definition regular (code : text) : Prop :=
  forallb singleSpaced (classes code) = true /\
  forallb plainCall (functions code) = true.

End SpecExtract.

(** *** Query tokens and scores *)

Module SpecQuery.

(** Splitting at the whitespace characters; [cur] is the piece that is
    being read. *)
Fixpoint pieces (cur : text) (s : text) : list text :=
  match s with
  | [] => [cur]
  | c :: s' =>
      if Char.isSpace c then cur :: pieces [] s'
      else pieces (cur ++ [c]) s'
  end.

(** Lower-case, split on whitespace, drop the tokens of length at most 2. *)
Definition queryTokens (query : text) : list text :=
  List.filter (fun k => 2 <? length k) (pieces [] (Str.toLowerCase query)).

Definition termWeight (terms : JSMap.t Z) (t : text) : Z :=
  default 0%Z (JSMap.get t terms).

Definition properSubstring (token term : text) : bool :=
  Str.includes token term && negb (Str.eqb term token).

(** PREBUILT: what a token adds to the score of a file: its weight times
    0.01 and, for every indexed term of which it is a proper substring, the
    weight of that term times 0.005, the terms taken in the order of the
    map. *)
Definition contributions (terms : JSMap.t Z) (token : text)
    : list Double.t :=
  Double.mul (Double.ofZ (termWeight terms token)) Double.d0_01
  :: map (fun e => Double.mul (Double.ofZ (snd e)) Double.d0_005)
       (List.filter (fun e => properSubstring token (fst e))
          (JSMap.entries terms)).

(** The sum over all tokens, in their order. *)
Definition prebuilt (tokens : list text) (terms : JSMap.t Z) : Double.t :=
  Double.sum (flat_map (contributions terms) tokens).

(** The occurrences of a token in a text, counted from left to right, the
    count resuming behind each. *)
Fixpoint occurrencesFrom (token : text) (skip : nat) (s : text) : nat :=
  match s with
  | [] => 0
  | _ :: s' =>
      match skip with
      | S n => occurrencesFrom token n s'
      | O =>
          if Str.startsWith token s
          then S (occurrencesFrom token (pred (length token)) s')
          else occurrencesFrom token 0 s'
      end
  end.

Definition occurrences (token s : text) : nat := occurrencesFrom token 0 s.

(** A token without syntax characters of regular expressions. *)
Definition plain (token : text) : Prop :=
  token <> [] /\
  forallb (fun c => negb (Pattern.isSyntaxCharacter c)) token = true.

End SpecQuery.


(** *** The directory that a spelling names *)

Module SpecPath.

Definition components (p : text) : list text := Str.split Path.sep p.

(** One component further: the empty component and [.] stay, [..] goes to
    the parent (the root is its own parent), a name goes down. *)
Definition enter (dir : list text) (component : text) : list text :=
  if Str.eqb component [] then dir
  else if Str.eqb component "." then dir
  else if Str.eqb component ".." then removelast dir
  else dir ++ [component].

Definition isAbsolute (p : text) : bool :=
  match p with
  | c :: _ => Ascii.eqb Path.sep c
  | [] => false
  end.

(** The names from the root down to the directory: an absolute spelling is
    followed from the root, a relative one from the working directory. *)
Definition directoryOf (cwd spelling : text) : list text :=
  fold_left enter (components spelling)
    (if isAbsolute spelling then []
     else fold_left enter (components cwd) []).

End SpecPath.

(* ===================================================================== *)
(** ** Predicates of the statements *)
(* ===================================================================== *)

(** The file can be read in this world. *)
Definition readable (w : World) (f : text) : bool :=
  match readFile w f with
  | Some _ => true
  | None => false
  end.

(** No test file in a list of paths, in the indices of a state. *)
Definition source_only (files : list text) : Prop :=
  forall f, In f files -> Spec.isTest f = false.

Definition index_source_only (s : State) : Prop :=
  forall key metadata item,
    directoryIndices s !! key = Some metadata ->
    In item metadata -> Spec.isTest (file item) = false.

(** The results are in descending order of score: no result is followed,
    at any distance, by one of a greater score. *)
Definition descending (results : list SearchResult) : Prop :=
  StronglySorted
    (fun a b => ~ Double.lt (similarityScore a) (similarityScore b))
    results.

(** Strictly so: every result has a greater score than all that follow. *)
Definition strictly_descending (results : list SearchResult) : Prop :=
  StronglySorted
    (fun a b => Double.lt (similarityScore b) (similarityScore a)) results.

(** The results, and the entries of a score map, that tie at score [v]. *)
Definition tied (v : Double.t) (r : SearchResult) : bool :=
  Double.same (similarityScore r) v.

Definition tiedEntry (v : Double.t) (e : text * Double.t) : bool :=
  Double.same (snd e) v.

(** Every score of a score map is a positive number. *)
Definition all_positive (scores : JSMap.t Double.t) : Prop :=
  forall e, In e scores -> Double.signed false Double.emin (snd e).


(** What a call returned, or [d] when it did not return. *)
Definition returned {A} (d : A) (o : outcome A) : A :=
  match o with
  | Returns a => a
  | _ => d
  end.

(** The key of a directory given by its names. *)
Definition keyOf (names : list text) : text :=
  match names with
  | [] => "/"
  | _ => Path.sep :: Str.join "/" names ++ "/"
  end.

(** A name of a directory: not empty, not [.] or [..], without separator. *)
Definition isName (n : text) : Prop :=
  n <> [] /\ n <> ("." : text) /\ n <> (".." : text) /\ ~ In Path.sep n.

(** The text that an occurrence covers, and well-formed occurrences: the
    gap is whitespace, the name a non-empty run of word characters, and the
    gap of a declaration is not empty. *)
Definition matched (o : SpecExtract.occurrence) : text :=
  match SpecExtract.o_shape o with
  | SpecExtract.ClassDeclaration =>
      "class" ++ SpecExtract.o_gap o ++ SpecExtract.o_name o
  | SpecExtract.FunctionDeclaration =>
      "function" ++ SpecExtract.o_gap o ++ SpecExtract.o_name o
  | SpecExtract.Call =>
      SpecExtract.o_name o ++ SpecExtract.o_gap o ++ "("
  end.

Definition well_formed (o : SpecExtract.occurrence) : Prop :=
  forallb Char.isSpace (SpecExtract.o_gap o) = true /\
  forallb Char.isWord (SpecExtract.o_name o) = true /\
  SpecExtract.o_name o <> [] /\
  (SpecExtract.o_shape o <> SpecExtract.Call -> SpecExtract.o_gap o <> []).

(** A recogniser that agrees with a regular expression at every position. *)
Definition recognises (r : Re.regex)
    (g : text -> option (SpecExtract.occurrence * nat)) : Prop :=
  forall s,
    match g s with
    | Some (o, len) =>
        Re.exec false r s = Some len /\ firstn len s = matched o
    | None => Re.exec false r s = None
    end.

Definition positive_values (m : JSMap.t Z) : Prop :=
  forall t v, JSMap.get t m = Some v -> (0 < v)%Z.

(* ===================================================================== *)
(** ** Auxiliary functions of the proofs *)
(* ===================================================================== *)

(** What the greedy loop of [p*] computes before a continuation [k]: the
    longest run first, then one character less at a time. *)
Fixpoint back (p : ascii -> bool) (k : Re.cont) (s : text) : option text :=
  match s with
  | [] => k []
  | c :: s' =>
      if p c then
        match back p k s' with
        | Some x => Some x
        | None => k s
        end
      else k s
  end.

(** The first character of [s] satisfies [p]. *)
Definition headIs (p : ascii -> bool) (s : text) : bool :=
  match s with
  | c :: _ => p c
  | [] => false
  end.

(** The extraction as a list of increments, applied in order. *)
Definition increment (m : JSMap.t Z) (inc : text * Z) : JSMap.t Z :=
  Extract.bump (snd inc) (fst inc) m.

Definition total (t : text) (incs : list (text * Z)) : Z :=
  fold_right
    (fun inc acc => if Str.eqb t (fst inc) then (snd inc + acc)%Z else acc)
    0%Z incs.

Definition each (n : Z) (l : list text) : list (text * Z) :=
  map (fun t => (t, n)) l.

(* ===================================================================== *)
(** ** Sample worlds and texts *)
(* ===================================================================== *)

Module Sample.

(** A project at [/home/proj] with two sources and a test under [src]. *)
Definition world : World := {|
  cwd_tail := "home/proj";
  glob := fun p =>
    if Str.eqb p "/home/proj/src/**/*.ts"
    then Some [ "/home/proj/src/a.ts" : text; "/home/proj/src/b.ts" : text;
                "/home/proj/src/a.test.ts" : text ]
    else Some [];
  existsSync := fun _ => false;
  ignores := fun _ _ => Some false;
  subdirectories := fun _ => Some [];
  readFile := fun f =>
    if Str.eqb f "/home/proj/src/a.ts"
    then Some ("class EmailNotifier { function send(x) {} }" : text)
    else if Str.eqb f "/home/proj/src/b.ts" then Some ("emailnotifier" : text)
    else if Str.eqb f "/home/proj/src/a.test.ts"
    then Some ("emailnotifier send" : text)
    else None;
  md5 := fun content => content
|}.

Definition indexed : State :=
  after world (CreateIndex "/home/proj/src" None) initial.

End Sample.

(** The search for "email send" in the sample project, from scratch. *)
Definition searched : State :=
  fst (Engine.search Sample.world "email send" "/home/proj/src" initial).

Definition found : list SearchResult :=
  match snd (Engine.search Sample.world "email send" "/home/proj/src"
               initial) with
  | Returns results => results
  | _ => []
  end.

Module Ties.

(** A directory [/x] with two files of the same text. *)
Definition world : World := {|
  cwd_tail := "x";
  glob := fun p =>
    if Str.eqb p "/x/**/*.ts"
    then Some [ "/x/a.ts" : text; "/x/b.ts" : text ]
    else Some [];
  existsSync := fun _ => false;
  ignores := fun _ _ => Some false;
  subdirectories := fun _ => Some [];
  readFile := fun _ => Some ("emailnotifier" : text);
  md5 := fun content => content
|}.

End Ties.

Module Rounding.

(** A directory [/x] with two files: seven times the word [abc] in the
    first; in the second [abc] once and a class [Abcx] next to the word
    [abcx], which weighs 12. *)
Definition world : World := {|
  cwd_tail := "x";
  glob := fun p =>
    if Str.eqb p "/x/**/*.ts"
    then Some [ "/x/a.ts" : text; "/x/b.ts" : text ]
    else Some [];
  existsSync := fun _ => false;
  ignores := fun _ _ => Some false;
  subdirectories := fun _ => Some [];
  readFile := fun f =>
    if Str.eqb f "/x/a.ts"
    then Some ("abc abc abc abc abc abc abc" : text)
    else Some ("abc abcx class Abcx" : text);
  md5 := fun content => content
|}.

End Rounding.

Module Empty.

(** A world in which no directory holds a source file. *)
Definition world : World := {|
  cwd_tail := "x";
  glob := fun _ => Some [];
  existsSync := fun _ => false;
  ignores := fun _ _ => Some false;
  subdirectories := fun _ => Some [];
  readFile := fun _ => None;
  md5 := fun content => content
|}.

End Empty.

Module Stop.

(** A directory [/x] whose only file mentions a subclass. *)
Definition world : World := {|
  cwd_tail := "x";
  glob := fun p =>
    if Str.eqb p "/x/**/*.ts" then Some [ "/x/a.ts" : text ] else Some [];
  existsSync := fun _ => false;
  ignores := fun _ _ => Some false;
  subdirectories := fun _ => Some [];
  readFile := fun _ => Some ("subclass" : text);
  md5 := fun content => content
|}.

Definition indexed : State := after world (CreateIndex "/x" None) initial.

End Stop.

Module Dots.

(** A directory [/x] whose only file holds a subtraction. *)
Definition world : World := {|
  cwd_tail := "x";
  glob := fun p =>
    if Str.eqb p "/x/**/*.ts" then Some [ "/x/a.ts" : text ] else Some [];
  existsSync := fun _ => false;
  ignores := fun _ _ => Some false;
  subdirectories := fun _ => Some [];
  readFile := fun _ => Some ("a-b" : text);
  md5 := fun content => content
|}.

Definition indexed : State := after world (CreateIndex "/x" None) initial.

End Dots.

Module Snippet.

(** A class with a method, a call and a snake-case name. *)
Definition service : text :=
  "class UserService { function getUser(id) { return this.find_user (id); } }".

End Snippet.

(** The record of a file that holds the single word [emailnotifier]. *)
Definition notifier : CodeMetadata := {|
  file := "/x/a.ts";
  code := "emailnotifier";
  keywords := Extract.extractKeywords "emailnotifier";
  checksum := "emailnotifier"
|}.

Module Unreadable.

(** A directory [/x] with two files, of which only the first can be read. *)
Definition world : World := {|
  cwd_tail := "x";
  glob := fun p =>
    if Str.eqb p "/x/**/*.ts"
    then Some [ "/x/a.ts" : text; "/x/b.ts" : text ]
    else Some [];
  existsSync := fun _ => false;
  ignores := fun _ _ => Some false;
  subdirectories := fun _ => Some [];
  readFile := fun f =>
    if Str.eqb f "/x/a.ts" then Some ("emailnotifier" : text) else None;
  md5 := fun content => content
|}.

End Unreadable.

Module Locked.

(** A directory [/x] whose only file cannot be read. *)
Definition world : World := {|
  cwd_tail := "x";
  glob := fun p =>
    if Str.eqb p "/x/**/*.ts" then Some [ "/x/a.ts" : text ] else Some [];
  existsSync := fun _ => false;
  ignores := fun _ _ => Some false;
  subdirectories := fun _ => Some [];
  readFile := fun _ => None;
  md5 := fun content => content
|}.

End Locked.

Module Outside.

(** The empty directory in a process at [/x]: the pattern [/**/*.ts]
    matches a file above the working directory, and the [ignore] package
    throws at a path that begins with [..]. *)
Definition world : World := {|
  cwd_tail := "x";
  glob := fun p =>
    if Str.eqb p "/**/*.ts" then Some [ "/y/a.ts" : text ] else Some [];
  existsSync := fun _ => false;
  ignores := fun _ p => if Str.startsWith ".." p then None else Some false;
  subdirectories := fun _ => None;
  readFile := fun _ => Some ("emailnotifier" : text);
  md5 := fun content => content
|}.

End Outside.

(* ===================================================================== *)
(** ** The summary of a source text ([extractCodeInfo] of [utils.ts]) *)
(* ===================================================================== *)

Module CodeInfo.

Record t : Type := {
  imports : list text;
  definitions : list text;
  services : list text;
  storageRelated : bool;
  apiRelated : bool;
  authRelated : bool
}.

Definition isImport (trimmedLine : text) : bool :=
  Str.startsWith "import " trimmedLine || Str.startsWith "from " trimmedLine.

Definition isDefinition (trimmedLine : text) : bool :=
  Str.includes "class " trimmedLine
  || Str.includes "interface " trimmedLine
  || Str.includes "function " trimmedLine
  || Str.includes "const " trimmedLine
  || Str.includes "type " trimmedLine.

(** [definitionLine.split('{')[0].trim()] where the line has a brace *)
Definition definitionLine (trimmedLine : text) : text :=
  if Str.includes "{" trimmedLine
  then Str.trim (hd [] (Str.split "{" trimmedLine))
  else trimmedLine.

Definition isService (definitionLine : text) : bool :=
  Str.includes "service" (Str.toLowerCase definitionLine)
  || Str.includes "client" (Str.toLowerCase definitionLine).

(** One turn of the loop over the lines; the three lists of [info]. *)
Definition scanLine (info : list text * list text * list text)
    (line : text) : list text * list text * list text :=
  let '(imports, definitions, services) := info in
  let trimmedLine := Str.trim line in
  if isImport trimmedLine then
    (imports ++ [trimmedLine], definitions, services)
  else if isDefinition trimmedLine then
    let definitionLine := definitionLine trimmedLine in
    (imports, definitions ++ [definitionLine],
     if isService definitionLine then services ++ [definitionLine]
     else services)
  else info.

Definition storagePatterns : list text :=
  [ "s3" : text; "storage" : text; "bucket" : text; "aws" : text;
    "file" : text; "upload" : text; "download" : text ].

Definition apiPatterns : list text :=
  [ "api" : text; "endpoint" : text; "http" : text; "rest" : text;
    "request" : text; "response" : text ].

Definition authPatterns : list text :=
  [ "auth" : text; "login" : text; "jwt" : text; "token" : text;
    "credential" : text ].

(** [patterns.some(pattern => code.toLowerCase().includes(pattern))] *)
Definition related (patterns : list text) (code : text) : bool :=
  existsb (fun pattern => Str.includes pattern (Str.toLowerCase code))
    patterns.

Definition extractCodeInfo (code : text) : t :=
  let lines := Str.split "010"%char code in
  let '(imports, definitions, services) :=
    fold_left scanLine lines ([], [], []) in
  {| imports := imports;
     definitions := definitions;
     services := services;
     storageRelated := related storagePatterns code;
     apiRelated := related apiPatterns code;
     authRelated := related authPatterns code |}.

End CodeInfo.

(* ===================================================================== *)
(** ** Predicates of the further statements *)
(* ===================================================================== *)

(** Every stored record holds the term map of its own text. *)
Definition consistent (s : State) : Prop :=
  forall key metadata item,
    directoryIndices s !! key = Some metadata ->
    In item metadata ->
    keywords item = Extract.extractKeywords (code item).

(** Lower case: [toLowerCase] leaves the text as it is. *)
Definition lowerCase (s : text) : Prop := Str.toLowerCase s = s.

(** The characters that a term can hold: word characters and whitespace. *)
Definition termChars (s : text) : Prop :=
  List.Forall (fun c => SpecExtract.wordOrSpace c = true) s.

(** A token with a character outside of [\w]. *)
Definition punctuated (t : text) : bool :=
  existsb (fun c => negb (Char.isWord c)) t.

(** The non-empty prefixes of a list, the shortest first. *)
Fixpoint prefixes {A} (l : list A) : list (list A) :=
  match l with
  | [] => []
  | a :: l' => [a] :: map (cons a) (prefixes l')
  end.

(** The path made of the names, from the root. *)
Definition pathOf (names : list text) : text :=
  Path.sep :: Str.join "/" names.

(** The [.gitignore] of the directory of these names. *)
Definition gitignoreOf (names : list text) : text :=
  pathOf (names ++ [ ".gitignore" : text ]).

(** The files that can be read, replaced by their contents. *)
Definition contents (w : World) (files : list text) : list text :=
  flat_map (fun f => match readFile w f with
                     | Some content => [content]
                     | None => []
                     end) files.

(** A token with a character that is neither a word character nor
    whitespace. *)
Definition foreign (t : text) : Prop :=
  exists c, In c t /\ SpecExtract.wordOrSpace c = false.

(** A token occurs inside one of the terms of a map. *)
Definition hits (tokens : list text) (terms : JSMap.t Z) : Prop :=
  exists t k,
    In t tokens /\ In k (JSMap.keys terms) /\ Str.includes t k = true.

(** A token occurs in a text. *)
Definition occurs (tokens : list text) (s : text) : Prop :=
  exists t, In t tokens /\ Str.includes t s = true.

(* ===================================================================== *)
(** ** The tool of the MCP server ([search_code] of [index.ts]) *)
(* ===================================================================== *)

Module Server.

(** The default of the parameter [extensions] in the schema of the tool;
    with it the parameter is never undefined in the handler. *)
Definition schemaExtensions : list text :=
  [ ".ts" : text; ".tsx" : text; ".js" : text; ".jsx" : text;
    ".kt" : text; ".py" : text; ".java" : text; ".cpp" : text;
    ".cs" : text ].

(** What the handler answers: the paths of the results, or the message of
    an error that it has caught. *)
Inductive response : Type :=
| Content (filePaths : list text)
| IsError (e : error).

(** [directory ? ... : ...]: an absent directory and the empty string. *)
Definition given (directory : option text) : option text :=
  match directory with
  | Some (c :: d) => Some (c :: d)
  | _ => None
  end.

(** [directory ? path.resolve(directory) : currentDirectory]; the working
    directory is the one of the start of the server. *)
Definition resolvedDirectory (w : World) (directory : option text) : text :=
  match given directory with
  | Some d => Path.resolve (cwd w) d
  | None => cwd w
  end.

(** The search and the answer made of its outcome; [None] where the
    search gives the handler nothing to answer: it does not return, or
    leaves the modelled patterns. *)
Definition answer (w : World) (query : text) (directory : option text)
    (s : State) : State * option response :=
  match Engine.search w query (resolvedDirectory w directory) s with
  | (s', Returns results) => (s', Some (Content (map r_file results)))
  | (s', Throws e) => (s', Some (IsError e))
  | (s', NeverReturns) => (s', None)
  | (s', Unmodelled) => (s', None)
  end.

(** The handler on the one engine of the server: with a directory the
    index is built first; every error is caught and answered. *)
Definition search_code (w : World) (query : text) (directory : option text)
    (extensions : option (list text)) (s : State)
    : State * option response :=
  let extensions := default schemaExtensions extensions in
  match given directory with
  | Some _ =>
      match Engine.createIndex w (resolvedDirectory w directory)
              (Some extensions) s with
      | (s', Returns _) => answer w query directory s'
      | (s', Throws e) => (s', Some (IsError e))
      | (s', NeverReturns) => (s', None)
      | (s', Unmodelled) => (s', None)
      end
  | None => answer w query directory s
  end.

End Server.

(* ===================================================================== *)
(** ** Further sample worlds *)
(* ===================================================================== *)

Module Nested.

(** A project at [/p/q] with ignore rules at both levels: the outer file
    holds [out], the inner one [dist]. *)
Definition existsSync (f : text) : bool :=
  Str.eqb f "/p/.gitignore" || Str.eqb f "/p/q/.gitignore".

Definition world : World :=
  Build_World "p/q"
    (fun _ => Some [])
    existsSync
    (fun _ _ => Some false)
    (fun _ => Some [])
    (fun f =>
       if Str.eqb f "/p/.gitignore" then Some ("out" : text)
       else if Str.eqb f "/p/q/.gitignore" then Some ("dist" : text)
       else None)
    (fun content => content).

End Nested.

Module Fixtures.

(** A directory of fixtures under [__tests__]. *)
Definition world : World := {|
  cwd_tail := "proj";
  glob := fun p =>
    if Str.eqb p "/proj/__tests__/fixtures/**/*.ts"
    then Some [ "/proj/__tests__/fixtures/a.ts" : text ]
    else Some [];
  existsSync := fun _ => false;
  ignores := fun _ _ => Some false;
  subdirectories := fun _ => Some [];
  readFile := fun _ => Some ("emailnotifier" : text);
  md5 := fun content => content
|}.

End Fixtures.

(* ===================================================================== *)
(** ** Properties *)
(* ===================================================================== *)

(* ===================================================================== *)
(** *** Doubles *)
(* ===================================================================== *)

Section Doubles.

Import Double.

Lemma iter_pos_iter {A} (f : A -> A) p : forall x,
  SpecFloat.iter_pos f p x = Pos.iter f x p.
Proof.
  induction p as [p IH|p IH|]; intros x; simpl.
  - rewrite !IH. rewrite <- !Pos.iter_swap. reflexivity.
  - now rewrite !IH.
  - reflexivity.
Qed.

Lemma shr_1_m mrs :
  (0 <= shr_m mrs)%Z ->
  shr_m (shr_1 mrs) = Z.div2 (shr_m mrs) /\ (0 <= shr_m (shr_1 mrs))%Z.
Proof.
  destruct mrs as [m r s]. simpl. intros H.
  destruct m as [|[p|p|]|p]; simpl; try lia; split; try reflexivity; lia.
Qed.

Lemma shr_iter_m p mrs :
  (0 <= shr_m mrs)%Z ->
  shr_m (SpecFloat.iter_pos shr_1 p mrs) = Z.shiftr (shr_m mrs) (Z.pos p).
Proof.
  intros H. rewrite iter_pos_iter.
  change (Z.shiftr (shr_m mrs) (Z.pos p))
    with (Pos.iter Z.div2 (shr_m mrs) p).
  enough (G : shr_m (Pos.iter shr_1 mrs p) = Pos.iter Z.div2 (shr_m mrs) p
              /\ (0 <= shr_m (Pos.iter shr_1 mrs p))%Z) by apply G.
  induction p as [|p IH] using Pos.peano_ind.
  - simpl. apply shr_1_m, H.
  - rewrite !Pos.iter_succ. destruct IH as [E P].
    destruct (shr_1_m _ P) as [E' P']. split; [|exact P'].
    now rewrite E', E.
Qed.

Lemma digits2_size m : digits2_pos m = Pos.size m.
Proof. induction m; simpl; congruence. Qed.

Lemma size_lower m : (2 ^ (Z.pos (Pos.size m) - 1) <= Z.pos m)%Z.
Proof.
  pose proof (Pos.size_le m) as H.
  assert (E : (2 ^ Z.pos (Pos.size m) <= 2 * Z.pos m)%Z).
  { apply Pos2Z.pos_le_pos in H. rewrite Pos2Z.inj_pow in H.
    now rewrite Pos2Z.inj_xO in H. }
  replace (Z.pos (Pos.size m)) with (Z.succ (Z.pos (Pos.size m) - 1)) in E
    by lia.
  rewrite Z.pow_succ_r in E by lia. lia.
Qed.

Lemma shiftr_pos m p :
  (Z.pos p < Z.pos (Pos.size m))%Z ->
  exists m', Z.shiftr (Z.pos m) (Z.pos p) = Z.pos m'.
Proof.
  intros H. rewrite Z.shiftr_div_pow2 by lia.
  assert (L : (0 < Z.pos m / 2 ^ Z.pos p)%Z).
  { apply Z.div_str_pos. split; [apply Z.pow_pos_nonneg; lia|].
    etransitivity; [|apply size_lower].
    apply Z.pow_le_mono_r; lia. }
  destruct (Z.pos m / 2 ^ Z.pos p)%Z as [|m'|m'] eqn:E; try lia.
  now exists m'.
Qed.

Lemma shr_fexp_pos m e l :
  (emin <= e)%Z ->
  exists m' e', shr_fexp prec emax (Z.pos m) e l
                = ({| shr_m := Z.pos m';
                      shr_r := shr_r (fst (shr_fexp prec emax (Z.pos m) e l));
                      shr_s := shr_s (fst (shr_fexp prec emax (Z.pos m) e l))
                   |}, e')
                /\ (e <= e')%Z.
Proof.
  intros H. unfold shr_fexp, shr.
  assert (M : shr_m (shr_record_of_loc (Z.pos m) l) = Z.pos m)
    by (destruct l as [|[]]; reflexivity).
  destruct (fexp prec emax (Zdigits2 (Z.pos m) + e) - e)%Z as [|p|p] eqn:N.
  - exists m, e. split; [|lia].
    destruct (shr_record_of_loc (Z.pos m) l); simpl in *; now subst.
  - assert (P : (Z.pos p < Z.pos (Pos.size m))%Z).
    { unfold fexp, SpecFloat.emin, prec, emax, Zdigits2 in N.
      rewrite digits2_size in N. unfold emin in H. lia. }
    destruct (shiftr_pos m p P) as (m' & E).
    exists m', (e + Z.pos p)%Z. split; [|lia].
    pose proof (shr_iter_m p (shr_record_of_loc (Z.pos m) l)) as I.
    rewrite M in I. specialize (I ltac:(lia)). rewrite E in I.
    destruct (SpecFloat.iter_pos shr_1 p (shr_record_of_loc (Z.pos m) l)); simpl in *.
    now subst.
  - exists m, e. split; [|lia].
    destruct (shr_record_of_loc (Z.pos m) l); simpl in *; now subst.
Qed.

Lemma round_nearest_even_pos m l :
  exists m', round_nearest_even (Z.pos m) l = Z.pos m'.
Proof.
  destruct l as [|[]]; simpl; eauto; destruct m; simpl; eauto.
Qed.

Lemma binary_round_aux_signed s m e l :
  (emin <= e)%Z ->
  signed s e (binary_round_aux prec emax s (Z.pos m) e l).
Proof.
  intros H. unfold binary_round_aux.
  destruct (shr_fexp_pos m e l H) as (m1 & e1 & -> & L1).
  cbn [shr_m].
  match goal with
  | |- context [round_nearest_even (Z.pos m1) ?l1] =>
      destruct (round_nearest_even_pos m1 l1) as (m2 & ->)
  end.
  destruct (shr_fexp_pos m2 e1 loc_Exact ltac:(lia)) as (m3 & e3 & -> & L3).
  cbn [shr_m].
  destruct (e3 <=? emax - prec)%Z; simpl; [split; [reflexivity | lia]
                                          | reflexivity].
Qed.

Lemma iter_xO m d : Z.pos (Pos.iter xO m d) = (Z.pos m * 2 ^ Z.pos d)%Z.
Proof.
  induction d as [|d IH] using Pos.peano_ind.
  - simpl. lia.
  - rewrite Pos.iter_succ, Pos2Z.inj_xO, IH, Pos2Z.inj_succ, Z.pow_succ_r
      by lia. lia.
Qed.

Lemma shl_align_spec m e e' :
  (e' <= e)%Z ->
  shl_align m e e' = (Z.to_pos (Z.pos m * 2 ^ (e - e')), e').
Proof.
  intros H. unfold shl_align.
  destruct (e' - e)%Z as [|d|d] eqn:D; try lia.
  - assert (e' = e) by lia. subst. rewrite Z.sub_diag. simpl.
    now rewrite Pos.mul_1_r.
  - assert (E : (e - e' = Z.pos d)%Z) by lia. rewrite E.
    now rewrite <- iter_xO.
Qed.

Lemma shl_align_bound m e e' lo :
  (lo <= e)%Z -> (lo <= e')%Z -> (lo <= snd (shl_align m e e'))%Z.
Proof.
  intros H H'. unfold shl_align.
  destruct (e' - e)%Z; simpl; lia.
Qed.

Lemma fexp_emin e : (emin <= fexp prec emax e)%Z.
Proof. unfold fexp, SpecFloat.emin, prec, emax, emin. lia. Qed.

Lemma binary_round_signed s m e lo :
  (emin <= lo)%Z -> (lo <= e)%Z ->
  (lo <= fexp prec emax (Z.pos (digits2_pos m) + e))%Z ->
  signed s lo (binary_round prec emax s m e).
Proof.
  intros H L F. unfold binary_round.
  pose proof (shl_align_bound m e _ lo L F) as B.
  destruct (shl_align m e _) as [mz ez]. simpl in B.
  pose proof (binary_round_aux_signed s mz ez loc_Exact ltac:(lia)) as S.
  destruct (binary_round_aux prec emax s (Z.pos mz) ez loc_Exact);
    simpl in *; try tauto. split; [tauto | lia].
Qed.



Lemma signed_weaken s lo lo' x :
  (lo' <= lo)%Z -> signed s lo x -> signed s lo' x.
Proof. destruct x; simpl; try tauto. intros H [-> L]. split; [reflexivity | lia]. Qed.

Lemma signed_cases s lo x :
  signed s lo x ->
  x = S754_infinity s \/ exists m e, x = S754_finite s m e /\ (lo <= e)%Z.
Proof.
  destruct x as [z|s'| |s' m e]; simpl; try tauto.
  - intros ->. now left.
  - intros [-> L]. right. now exists m, e.
Qed.

Lemma ofZ_zero : ofZ 0 = zero.
Proof. reflexivity. Qed.

Lemma ofZ_signed w : (0 < w)%Z -> signed false (-52) (ofZ w).
Proof.
  intros H. destruct w as [|m|m]; try lia. unfold ofZ. simpl.
  apply binary_round_signed; unfold emin; try lia.
  unfold fexp, SpecFloat.emin, prec, emax. lia.
Qed.

Lemma mul_signed lx ly x y :
  (emin <= lx + ly)%Z ->
  signed false lx x -> signed false ly y -> signed false (lx + ly) (mul x y).
Proof.
  intros H X Y.
  destruct (signed_cases _ _ _ X) as [->|(mx & ex & -> & Lx)],
           (signed_cases _ _ _ Y) as [->|(my & ey & -> & Ly)];
    try reflexivity.
  apply (signed_weaken _ (ex + ey)); [lia|].
  apply (binary_round_aux_signed false (mx * my) (ex + ey) loc_Exact). lia.
Qed.

Lemma mul_zero m e : mul zero (S754_finite false m e) = zero.
Proof. reflexivity. Qed.

Lemma ltb_zero x : amount x -> ltb zero x = true <-> signed false emin x.
Proof.
  intros [->|S].
  - simpl. split; [discriminate | tauto].
  - split; [intros _; exact S | intros _].
    destruct (signed_cases _ _ _ S) as [->|(m & e & -> & L)]; reflexivity.
Qed.

Lemma add_zero_l y : signed false emin y -> add zero y = y.
Proof.
  intros S.
  destruct (signed_cases _ _ _ S) as [->|(m & e & -> & L)]; reflexivity.
Qed.

Lemma add_zero_r x : signed false emin x -> add x zero = x.
Proof.
  intros S.
  destruct (signed_cases _ _ _ S) as [->|(m & e & -> & L)]; reflexivity.
Qed.

Lemma add_amount x y :
  amount x -> amount y ->
  amount (add x y) /\
  (signed false emin (add x y) <-> signed false emin x \/ signed false emin y).
Proof.
  intros [->|X] [->|Y].
  - split; [now left|]. simpl. tauto.
  - rewrite (add_zero_l y Y). split; [now right | tauto].
  - rewrite (add_zero_r x X). split; [now right | tauto].
  - enough (S : signed false emin (add x y)) by (split; [now right | tauto]).
    destruct (signed_cases _ _ _ X) as [->|(mx & ex & -> & Lx)],
             (signed_cases _ _ _ Y) as [->|(my & ey & -> & Ly)];
      try reflexivity.
    simpl.
    apply binary_round_signed; [unfold emin; lia | lia | apply fexp_emin].
Qed.

Lemma sum_amount (l : list t) :
  List.Forall amount l ->
  amount (sum l) /\
  (signed false emin (sum l) <-> List.Exists (signed false emin) l).
Proof.
  unfold sum.
  enough (G : forall acc, amount acc -> List.Forall amount l ->
              amount (fold_left add l acc) /\
              (signed false emin (fold_left add l acc)
               <-> signed false emin acc \/ List.Exists (signed false emin) l)).
  { intros F. destruct (G zero (or_introl eq_refl) F) as [A B].
    split; [exact A|]. rewrite B. simpl. tauto. }
  induction l as [|c l IH]; intros acc A F; simpl.
  - split; [exact A|]. rewrite List.Exists_nil. tauto.
  - inversion F as [|? ? Fc Fl]; subst.
    destruct (add_amount acc c A Fc) as [A' B'].
    destruct (IH (add acc c) A' Fl) as [A'' B''].
    split; [exact A''|]. rewrite B'', B', List.Exists_cons. tauto.
Qed.

Lemma units_aligned m e ez :
  (emin <= ez)%Z -> (ez <= e)%Z ->
  (Z.pos m * 2 ^ (e - emin)
   = Z.pos (fst (shl_align m e ez)) * 2 ^ (ez - emin))%Z.
Proof.
  intros H L. rewrite shl_align_spec by exact L. cbn [fst].
  rewrite Z2Pos.id by (apply Z.mul_pos_pos; [lia | apply Z.pow_pos_nonneg; lia]).
  rewrite <- Z.mul_assoc, <- Z.pow_add_r by lia. f_equal. f_equal. lia.
Qed.

Lemma signed_regular s x : signed s emin x -> regular x.
Proof. intros S. right. right. now exists s. Qed.

Lemma amount_regular x : amount x -> regular x.
Proof. intros [->|S]; [now left | now apply (signed_regular false)]. Qed.

Lemma signed_not_zero s lo x : signed s lo x -> x <> zero.
Proof. intros S ->. exact S. Qed.

Lemma signed_sign s s' lo lo' x : signed s lo x -> signed s' lo' x -> s = s'.
Proof.
  intros S S'.
  destruct (signed_cases _ _ _ S) as [->|(m & e & -> & L)]; simpl in S';
    [congruence | destruct S'; congruence].
Qed.

(** [score > 0] holds for the positive numbers only. *)
Lemma ltb_zero_regular x :
  regular x -> ltb zero x = true <-> signed false emin x.
Proof.
  intros [->|[->|[s S]]].
  - simpl. split; [discriminate | tauto].
  - simpl. split; [discriminate | tauto].
  - destruct (signed_cases _ _ _ S) as [->|(m & e & -> & L)];
      destruct s; simpl; split; try discriminate; try tauto;
      intros H; try reflexivity; try (destruct H; discriminate);
      discriminate.
Qed.

Lemma ofZ_negative w : (w < 0)%Z -> signed true (-52) (ofZ w).
Proof.
  intros H. destruct w as [|m|m]; try lia. unfold ofZ. simpl.
  apply binary_round_signed; unfold emin; try lia.
  unfold fexp, SpecFloat.emin, prec, emax. lia.
Qed.

Lemma mul_signed_any sx sy lx ly x y :
  (emin <= lx + ly)%Z ->
  signed sx lx x -> signed sy ly y ->
  signed (xorb sx sy) (lx + ly) (mul x y).
Proof.
  intros H X Y.
  destruct (signed_cases _ _ _ X) as [->|(mx & ex & -> & Lx)],
           (signed_cases _ _ _ Y) as [->|(my & ey & -> & Ly)];
    try reflexivity.
  apply (signed_weaken _ (ex + ey)); [lia|].
  apply (binary_round_aux_signed (xorb sx sy) (mx * my) (ex + ey) loc_Exact).
  lia.
Qed.

Lemma d0_01_signed : signed false (-59) d0_01.
Proof. vm_compute. split; [reflexivity | discriminate]. Qed.

Lemma d0_005_signed : signed false (-60) d0_005.
Proof. vm_compute. split; [reflexivity | discriminate]. Qed.

Lemma d0_3_signed : signed false emin d0_3.
Proof. vm_compute. split; [reflexivity | discriminate]. Qed.

Lemma d0_2_signed : signed false emin d0_2.
Proof. vm_compute. split; [reflexivity | discriminate]. Qed.

Lemma d0_1_signed : signed false emin d0_1.
Proof. vm_compute. split; [reflexivity | discriminate]. Qed.

Lemma add_regular x y : regular x -> regular y -> regular (add x y).
Proof.
  intros [->|[->|[sx X]]] [->|[->|[sy Y]]];
    try (right; left; reflexivity);
    try (destruct x as [[]|[]| |]; right; left; reflexivity).
  - now left.
  - destruct (signed_cases _ _ _ Y) as [->|(m & e & -> & L)];
      apply (signed_regular sy); exact Y.
  - destruct (signed_cases _ _ _ X) as [->|(m & e & -> & L)];
      apply (signed_regular sx); exact X.
  - destruct (signed_cases _ _ _ X) as [->|(mx & ex & -> & Lx)],
             (signed_cases _ _ _ Y) as [->|(my & ey & -> & Ly)].
    + destruct sx, sy; simpl; try (right; left; reflexivity);
        [apply (signed_regular true) | apply (signed_regular false)];
        reflexivity.
    + apply (signed_regular sx). reflexivity.
    + apply (signed_regular sy). reflexivity.
    + cbn [add SFadd].
      set (ez := Z.min ex ey).
      assert (Lz : (emin <= ez)%Z) by (unfold ez; lia).
      destruct (cond_Zopp sx (Z.pos (fst (shl_align mx ex ez)))
                + cond_Zopp sy (Z.pos (fst (shl_align my ey ez))))%Z
        as [|d|d]; cbn [binary_normalize].
      * now left.
      * apply (signed_regular false).
        apply binary_round_signed;
          [unfold emin; lia | exact Lz | apply fexp_emin].
      * apply (signed_regular true).
        apply binary_round_signed;
          [unfold emin; lia | exact Lz | apply fexp_emin].
Qed.

Lemma sub_sign x y :
  amount x -> amount y -> ltb (sub x y) zero = true <-> lt x y.
Proof.
  intros [->|X] [->|Y].
  - unfold lt. cbn. split; [discriminate | lia].
  - destruct (signed_cases _ _ _ Y) as [->|(my & ey & -> & Ly)];
      unfold lt; cbn [isNaN level zero].
    { cbn. split; [intros _; repeat split; lia | reflexivity]. }
    split; [intros _ | reflexivity].
    repeat split. right. split; [reflexivity|].
    cbn [units zero]. apply Z.mul_pos_pos; [lia | apply Z.pow_pos_nonneg; lia].
  - destruct (signed_cases _ _ _ X) as [->|(mx & ex & -> & Lx)];
      unfold lt; cbn [isNaN level zero].
    { cbn. split; [discriminate | lia]. }
    split; [discriminate|]. cbn [units zero]. intros H. exfalso.
    assert (0 < Z.pos mx * 2 ^ (ex - emin))%Z
      by (apply Z.mul_pos_pos; [lia | apply Z.pow_pos_nonneg; lia]).
    lia.
  - destruct (signed_cases _ _ _ X) as [->|(mx & ex & -> & Lx)],
             (signed_cases _ _ _ Y) as [->|(my & ey & -> & Ly)];
      unfold lt; cbn [isNaN level];
      try (cbn; split; [discriminate | lia]);
      try (cbn; split; [intros _; repeat split; lia | reflexivity]).
    cbn [units sub SFsub cond_Zopp].
    set (ez := Z.min ex ey).
    assert (Lz : (emin <= ez)%Z) by (unfold ez; lia).
    rewrite (units_aligned mx ex ez Lz) by (unfold ez; lia).
    rewrite (units_aligned my ey ez Lz) by (unfold ez; lia).
    set (a := fst (shl_align mx ex ez)). set (b := fst (shl_align my ey ez)).
    assert (K : (0 < 2 ^ (ez - emin))%Z) by (apply Z.pow_pos_nonneg; lia).
    assert (E : (Z.pos a * 2 ^ (ez - emin) < Z.pos b * 2 ^ (ez - emin)
                 <-> Z.pos a < Z.pos b)%Z)
      by (symmetry; apply Z.mul_lt_mono_pos_r; exact K).
    destruct (Z.pos a - Z.pos b)%Z as [|d|d] eqn:D; cbn [binary_normalize].
    + split; [discriminate | lia].
    + pose proof (binary_round_signed false d ez emin ltac:(unfold emin; lia)
                    Lz (fexp_emin _)) as S.
      destruct (signed_cases _ _ _ S) as [->|(m & e & -> & L)]; cbn;
        (split; [discriminate | lia]).
    + pose proof (binary_round_signed true d ez emin ltac:(unfold emin; lia)
                    Lz (fexp_emin _)) as S.
      destruct (signed_cases _ _ _ S) as [->|(m & e & -> & L)]; cbn;
        (split; [intros _; repeat split; lia | reflexivity]).
Qed.

Lemma lt_irrefl x : ~ lt x x.
Proof. unfold lt. lia. Qed.

Lemma lt_trans x y z : lt x y -> lt y z -> lt x z.
Proof. unfold lt. intros (? & ? & ?) (? & ? & ?). repeat split; auto; lia. Qed.

Lemma not_lt_trans x y z :
  isNaN y = false -> ~ lt x y -> ~ lt y z -> ~ lt x z.
Proof.
  unfold lt. intros N A B (? & ? & ?).
  assert (A' : ~ ((level x < level y)%Z
                  \/ level x = level y /\ (units x < units y)%Z)) by tauto.
  assert (B' : ~ ((level y < level z)%Z
                  \/ level y = level z /\ (units y < units z)%Z)) by tauto.
  lia.
Qed.

Lemma same_spec x y :
  isNaN x = false -> isNaN y = false ->
  same x y = true <-> ~ lt x y /\ ~ lt y x.
Proof.
  intros Nx Ny. unfold same, lt. rewrite Nx, Ny. cbn [negb andb].
  rewrite andb_true_iff, !Z.eqb_eq. split.
  - intros [E1 E2]. split; intros (_ & _ & ?); lia.
  - intros [A B].
    assert (A' : ~ ((level x < level y)%Z
                    \/ level x = level y /\ (units x < units y)%Z)) by tauto.
    assert (B' : ~ ((level y < level x)%Z
                    \/ level y = level x /\ (units y < units x)%Z)) by tauto.
    lia.
Qed.

(** An integer times a positive constant. *)
Lemma weighted_regular w c lo :
  signed false lo c -> (emin + 52 <= lo)%Z -> regular (mul (ofZ w) c).
Proof.
  intros C L. destruct w as [|m|m].
  - destruct (signed_cases _ _ _ C) as [->|(mc & ec & -> & Lc)].
    + right. now left.
    + now left.
  - apply (signed_regular false), (signed_weaken _ (-52 + lo)); [lia|].
    apply (mul_signed_any false false); [lia | now apply ofZ_signed | exact C].
  - apply (signed_regular true), (signed_weaken _ (-52 + lo)); [lia|].
    apply (mul_signed_any true false); [lia | now apply ofZ_negative | exact C].
Qed.

Lemma weighted_positive w c lo :
  signed false lo c -> (emin + 52 <= lo)%Z -> (0 < w)%Z ->
  signed false emin (mul (ofZ w) c).
Proof.
  intros C L W. apply (signed_weaken _ (-52 + lo)); [lia|].
  apply (mul_signed_any false false); [lia | now apply ofZ_signed | exact C].
Qed.

Lemma same_true x y :
  same x y = true ->
  isNaN x = false /\ isNaN y = false /\
  level x = level y /\ units x = units y.
Proof.
  unfold same. rewrite !andb_true_iff, !negb_true_iff, !Z.eqb_eq. tauto.
Qed.

Lemma lt_asym x y : lt x y -> ~ lt y x.
Proof. intros A B. exact (lt_irrefl x (lt_trans _ _ _ A B)). Qed.

Lemma signed_lt_zero x : signed false emin x -> lt zero x.
Proof.
  intros S. unfold lt.
  destruct (signed_cases _ _ _ S) as [->|(m & e & -> & L)];
    cbn [isNaN level units zero]; repeat split; [lia|].
  right. split; [reflexivity|].
  apply Z.mul_pos_pos; [lia | apply Z.pow_pos_nonneg; lia].
Qed.

Lemma signed_not_NaN s lo x : signed s lo x -> isNaN x = false.
Proof. destruct x; simpl; tauto. Qed.

Lemma amount_not_NaN x : amount x -> isNaN x = false.
Proof. intros [->|S]; [reflexivity | now apply (signed_not_NaN false emin)]. Qed.

End Doubles.

(* ===================================================================== *)
(** *** The two maps of the engine *)
(* ===================================================================== *)

Section Invariants.

Lemma collect_modelled w ig directory absoluteDirectory extensions :
  forall files,
    Discovery.collect w ig directory absoluteDirectory extensions files
    <> Unmodelled /\
    Discovery.collect w ig directory absoluteDirectory extensions files
    <> NeverReturns.
Proof.
  induction extensions as [|ext rest IH]; intros files; simpl;
    [split; discriminate|].
  destruct (glob w _) as [matches|]; [|split; discriminate].
  destruct (Discovery.filterMatches w ig absoluteDirectory matches);
    [apply IH | split; discriminate].
Qed.

Lemma getSourceFiles_modelled w directory extensions :
  Discovery.getSourceFiles w directory extensions <> Unmodelled.
Proof.
  unfold Discovery.getSourceFiles.
  destruct (Discovery.loadGitignore w directory) as [ig|]; [|discriminate].
  pose proof (collect_modelled w ig directory
                (Path.resolve (cwd w) directory)
                (default Discovery.defaultExtensions extensions) []) as [M _].
  destruct (Discovery.collect _ _ _ _ _ _); congruence.
Qed.

Lemma subdirectoryFiles_cases w subdirs extensions : forall allFiles,
  (exists files,
      Engine.subdirectoryFiles w subdirs extensions allFiles
      = Returns files) \/
  Engine.subdirectoryFiles w subdirs extensions allFiles = NeverReturns.
Proof.
  induction subdirs as [|d ds IH]; intros allFiles; simpl; [eauto|].
  pose proof (getSourceFiles_modelled w d extensions) as M.
  destruct (Discovery.getSourceFiles w d extensions);
    [apply IH | apply IH | now right | congruence].
Qed.

Lemma discover_modelled w directory extensions :
  Engine.discover w directory extensions <> Unmodelled.
Proof.
  unfold Engine.discover.
  pose proof (getSourceFiles_modelled w directory extensions) as M.
  destruct (Discovery.getSourceFiles w directory extensions) as [[|f fs]|e| |];
    try congruence.
  destruct (subdirectories w directory) as [items|]; [|discriminate].
  destruct (subdirectoryFiles_cases w (map (NodePath.join directory) items)
              extensions []) as [[[|f fs] ->]| ->]; discriminate.
Qed.

(** [createIndex] either stores a fresh index and its extensions under the
    key, or leaves the state as it was: it throws or never returns. *)
Lemma createIndex_cases w directory extensions s :
  (exists files,
     Engine.discover w directory extensions = Returns files /\
     Engine.createIndex w directory extensions s =
       ({| directoryIndices :=
             <[Engine.getNormalizedDirectory w directory :=
                 fold_left (Engine.indexFile w) files []]>
               (directoryIndices s);
           indexedExtensions :=
             <[Engine.getNormalizedDirectory w directory :=
                 default Discovery.defaultExtensions extensions]>
               (indexedExtensions s) |}, Returns tt)) \/
  (exists e,
     Engine.discover w directory extensions = Throws e /\
     Engine.createIndex w directory extensions s = (s, Throws e)) \/
  (Engine.discover w directory extensions = NeverReturns /\
   Engine.createIndex w directory extensions s = (s, NeverReturns)).
Proof.
  unfold Engine.createIndex.
  pose proof (discover_modelled w directory extensions) as M.
  destruct (Engine.discover w directory extensions) as [files|e| |] eqn:D.
  - left. eauto.
  - right. left. eauto.
  - right. right. eauto.
  - congruence.
Qed.

(** A search leaves the state alone or leaves the state of the implicit
    build. *)
Lemma search_state w query directory s :
  (is_Some (directoryIndices s !! Engine.getNormalizedDirectory w directory)
   /\ fst (Engine.search w query directory s) = s) \/
  (directoryIndices s !! Engine.getNormalizedDirectory w directory = None
   /\ fst (Engine.search w query directory s) =
      fst (Engine.createIndex w directory
             (Some (Engine.implicitExtensions w s directory)) s)).
Proof.
  unfold Engine.search.
  destruct (directoryIndices s !! _) eqn:E.
  - left. split; [eauto | reflexivity].
  - right. split; [reflexivity |].
    destruct (Engine.createIndex w directory _ s) as [s' [u|e| |]];
      reflexivity.
Qed.

Lemma getRelevantFiles_state w query directory s :
  fst (Engine.getRelevantFiles w query directory s) =
  fst (Engine.search w query directory s).
Proof.
  unfold Engine.getRelevantFiles.
  destruct (Engine.search w query directory s) as [s' [r|e| |]]; reflexivity.
Qed.

(** Whatever [createIndex] preserves holds in every reachable state. *)
Lemma reachable_createIndex_ind (P : State -> Prop) :
  P initial ->
  (forall w directory extensions s,
      P s -> P (fst (Engine.createIndex w directory extensions s))) ->
  forall s, reachable s -> P s.
Proof.
  intros H0 Hc s R. induction R as [|w c s R IH]; [exact H0|].
  destruct c as [directory extensions|query directory|query directory];
    simpl.
  - now apply Hc.
  - destruct (search_state w query directory s) as [[_ ->]|[_ ->]];
      [exact IH | now apply Hc].
  - rewrite getRelevantFiles_state.
    destruct (search_state w query directory s) as [[_ ->]|[_ ->]];
      [exact IH | now apply Hc].
Qed.

Lemma reachable_same_keys s :
  reachable s -> dom (directoryIndices s) = dom (indexedExtensions s).
Proof.
  revert s. apply reachable_createIndex_ind.
  - simpl. now rewrite !dom_empty_L.
  - intros w directory extensions s IH.
    destruct (createIndex_cases w directory extensions s)
      as [(files & _ & ->)|[(e & _ & ->)|[_ ->]]]; simpl;
      [|exact IH|exact IH].
    rewrite !dom_insert_L. now rewrite IH.
Qed.

End Invariants.

(** C10. In every reachable state the index map and the extension map have
    the same keys; hence, when [search] finds no index under the key of its
    directory, no extension list is remembered for it either, and the
    implicit build is the one with the default extensions. *)
Theorem same_keys_and_default_build (s : State) :
  reachable s ->
  dom (directoryIndices s) = dom (indexedExtensions s) /\
  forall w query directory,
    directoryIndices s !! Engine.getNormalizedDirectory w directory = None ->
    indexedExtensions s !! Engine.getNormalizedDirectory w directory = None /\
    Engine.implicitExtensions w s directory = Discovery.defaultExtensions /\
    fst (Engine.search w query directory s) =
      fst (Engine.createIndex w directory
             (Some Discovery.defaultExtensions) s).
Proof.
  intros R. pose proof (reachable_same_keys s R) as D.
  split; [exact D|]. intros w query directory Hnone.
  assert (Hext : indexedExtensions s
                   !! Engine.getNormalizedDirectory w directory = None).
  { apply not_elem_of_dom. rewrite <- D. now apply not_elem_of_dom. }
  assert (Himp : Engine.implicitExtensions w s directory
                 = Discovery.defaultExtensions).
  { unfold Engine.implicitExtensions. now rewrite Hext. }
  repeat split; [exact Hext | exact Himp |].
  destruct (search_state w query directory s) as [[[x Hx] _]|[_ ->]].
  - congruence.
  - now rewrite Himp.
Qed.

Lemma same_keys_and_default_build_witness :
  dom (directoryIndices Sample.indexed)
  = dom (indexedExtensions Sample.indexed) /\
  forall w query directory,
    directoryIndices Sample.indexed
      !! Engine.getNormalizedDirectory w directory = None ->
    indexedExtensions Sample.indexed
      !! Engine.getNormalizedDirectory w directory = None /\
    Engine.implicitExtensions w Sample.indexed directory
      = Discovery.defaultExtensions /\
    fst (Engine.search w query directory Sample.indexed) =
      fst (Engine.createIndex w directory
             (Some Discovery.defaultExtensions) Sample.indexed).
Proof.
  apply (same_keys_and_default_build Sample.indexed).
  unfold Sample.indexed. apply reach_call. apply reach_initial.
Defined.

(* ===================================================================== *)
(** *** Strings *)
(* ===================================================================== *)

Section StringLemmas.

Lemma str_eqb_eq (s t : text) : Str.eqb s t = true <-> s = t.
Proof. unfold Str.eqb. destruct (decide (s = t)); split; congruence. Qed.

Lemma str_eqb_refl (s : text) : Str.eqb s s = true.
Proof. now apply str_eqb_eq. Qed.

Lemma str_eqb_neq (s t : text) : Str.eqb s t = false <-> s <> t.
Proof. unfold Str.eqb. destruct (decide (s = t)); split; congruence. Qed.

Lemma startsWith_app (p s : text) :
  Str.startsWith p s = true <-> exists post, s = p ++ post.
Proof.
  revert s. induction p as [|a p IH]; intros s; simpl.
  - split; eauto.
  - destruct s as [|b s].
    + split; [discriminate | intros [post H]; discriminate].
    + rewrite andb_true_iff, Ascii.eqb_eq, IH. split.
      * intros [-> [post ->]]. now exists post.
      * intros [post H]. injection H as -> ->. eauto.
Qed.

Lemma includes_app (p s : text) :
  Str.includes p s = true <-> exists pre post, s = pre ++ p ++ post.
Proof.
  induction s as [|c s IH]; simpl.
  - rewrite orb_false_r, startsWith_app. split.
    + intros [post H]. now exists [], post.
    + intros (pre & post & H). destruct pre; [now exists post|discriminate].
  - rewrite orb_true_iff, startsWith_app, IH. split.
    + intros [[post H]|(pre & post & H)].
      * now exists [], post.
      * exists (c :: pre), post. now rewrite H.
    + intros (pre & post & H). destruct pre as [|c' pre].
      * left. now exists post.
      * right. injection H as -> ->. eauto.
Qed.

Lemma includes_toLowerCase (p s : text) :
  Str.includes p s = true ->
  Str.includes (Str.toLowerCase p) (Str.toLowerCase s) = true.
Proof.
  rewrite !includes_app. intros (pre & post & ->).
  exists (Str.toLowerCase pre), (Str.toLowerCase post).
  unfold Str.toLowerCase. now rewrite !map_app.
Qed.

Lemma split_parts (sep : ascii) (s : text) :
  exists w ws,
    Str.split sep s = w :: ws /\
    (exists post, s = w ++ post) /\
    (forall seg, In seg ws -> exists pre post, s = pre ++ seg ++ post).
Proof.
  induction s as [|c s (w & ws & E & [post Hw] & Hws)]; simpl.
  - exists [], []. repeat split; [now exists []|intros seg []].
  - rewrite E. destruct (Ascii.eqb c sep).
    + exists [], (w :: ws). repeat split; [now exists (c :: s)|].
      intros seg [<-|H].
      * exists [c], post. now rewrite Hw at 1.
      * destruct (Hws seg H) as (pre & post' & H').
        exists (c :: pre), post'. now rewrite H' at 1.
    + exists (c :: w), ws. repeat split.
      * exists post. now rewrite Hw at 1.
      * intros seg H. destruct (Hws seg H) as (pre & post' & H').
        exists (c :: pre), post'. now rewrite H' at 1.
Qed.

(** A segment between separators is a part of the string. *)
Lemma split_segment (sep : ascii) (s seg : text) :
  In seg (Str.split sep s) -> exists pre post, s = pre ++ seg ++ post.
Proof.
  destruct (split_parts sep s) as (w & ws & -> & [post Hw] & Hws).
  intros [<-|H]; [now exists [], post | now apply Hws].
Qed.

End StringLemmas.

(* ===================================================================== *)
(** *** Test files are never indexed *)
(* ===================================================================== *)

Section TestFiles.

Lemma isTest_isTestFile (f : text) :
  Spec.isTest f = true -> Discovery.isTestFile f = true.
Proof.
  unfold Spec.isTest, Discovery.isTestFile.
  rewrite !orb_true_iff. intros [[H|H]|H].
  - left. left. now apply (includes_toLowerCase ".spec.").
  - left. right. now apply (includes_toLowerCase ".test.").
  - right. apply existsb_exists in H as (seg & Hin & Heq).
    apply str_eqb_eq in Heq. subst seg.
    apply includes_app. now apply split_segment with (sep := Path.sep).
Qed.

Lemma getSourceFiles_source_only w directory extensions files :
  Discovery.getSourceFiles w directory extensions = Returns files ->
  source_only files.
Proof.
  unfold Discovery.getSourceFiles.
  destruct (Discovery.loadGitignore w directory) as [ig|]; [|discriminate].
  destruct (Discovery.collect _ _ _ _ _ _) as [all|e| |]; try discriminate.
  intros [= <-] f Hin. apply filter_In in Hin as [_ Hneg].
  destruct (Spec.isTest f) eqn:E; [|reflexivity].
  apply isTest_isTestFile in E. now rewrite E in Hneg.
Qed.

Lemma subdirectoryFiles_source_only w subdirs extensions :
  forall allFiles files,
    source_only allFiles ->
    Engine.subdirectoryFiles w subdirs extensions allFiles = Returns files ->
    source_only files.
Proof.
  induction subdirs as [|d ds IH]; intros allFiles files Hacc; simpl.
  - now intros [= <-].
  - destruct (Discovery.getSourceFiles w d extensions) as [sub|e| |] eqn:E;
      try discriminate.
    + apply IH. intros f Hin.
      apply in_app_or in Hin as [Hin|Hin]; [now apply Hacc|].
      now apply (getSourceFiles_source_only _ _ _ _ E).
    + now apply IH.
Qed.

Lemma discover_source_only w directory extensions files :
  Engine.discover w directory extensions = Returns files ->
  source_only files.
Proof.
  unfold Engine.discover.
  destruct (Discovery.getSourceFiles w directory extensions)
    as [[|f0 fs]|e| |] eqn:E; try discriminate.
  - destruct (subdirectories w directory) as [items|]; [|discriminate].
    destruct (Engine.subdirectoryFiles w _ extensions [])
      as [[|f fs]|e| |] eqn:S; try discriminate.
    intros [= <-].
    refine (subdirectoryFiles_source_only _ _ _ _ _ _ S).
    intros f' [].
  - intros [= <-]. now apply (getSourceFiles_source_only _ _ _ _ E).
Qed.

(** The records of an index are records of discovered files, in order:
    exactly the readable ones. *)
Lemma indexFile_files w files :
  forall metadata,
    map file (fold_left (Engine.indexFile w) files metadata) =
    map file metadata
    ++ List.filter (readable w) files.
Proof.
  induction files as [|f fs IH]; intros metadata; simpl.
  - now rewrite app_nil_r.
  - rewrite IH. unfold Engine.indexFile, readable.
    destruct (readFile w f); [|reflexivity].
    rewrite map_app. simpl. now rewrite <- app_assoc.
Qed.

Lemma reachable_source_only s : reachable s -> index_source_only s.
Proof.
  revert s. apply reachable_createIndex_ind.
  - intros key metadata item H. simpl in H.
    rewrite lookup_empty in H. discriminate.
  - intros w directory extensions s IH.
    destruct (createIndex_cases w directory extensions s)
      as [(files & D & ->)|[(e & _ & ->)|[_ ->]]]; simpl;
      [|exact IH|exact IH].
    intros key metadata item H Hin. simpl in H.
    destruct (decide (Engine.getNormalizedDirectory w directory = key))
      as [<-|Hne].
    + rewrite lookup_insert_eq in H. injection H as <-.
      apply (discover_source_only _ _ _ _ D).
      apply (in_map file) in Hin. rewrite indexFile_files in Hin.
      simpl in Hin. now apply filter_In in Hin as [Hin _].
    + rewrite lookup_insert_ne in H by exact Hne. now apply (IH key metadata).
Qed.

End TestFiles.

(* ===================================================================== *)
(** *** Ranking *)
(* ===================================================================== *)

Section Ranking.

(** [score > 0] *)
Lemma positive_spec (x : Double.t) :
  Double.regular x ->
  Engine.positive x = true <-> Double.signed false Double.emin x.
Proof. apply ltb_zero_regular. Qed.

Lemma before_spec (a b : SearchResult) :
  Double.amount (similarityScore a) -> Double.amount (similarityScore b) ->
  Engine.before a b = true
  <-> Double.lt (similarityScore b) (similarityScore a).
Proof. intros A B. unfold Engine.before. now apply sub_sign. Qed.

Lemma insert_permutation a l : Permutation (Engine.insert a l) (a :: l).
Proof.
  induction l as [|b l IH]; simpl; [reflexivity|].
  destruct (Engine.before b a); [|reflexivity].
  rewrite IH. apply perm_swap.
Qed.

Lemma sort_permutation l : Permutation (Engine.sort l) l.
Proof.
  induction l as [|a l IH]; simpl; [reflexivity|].
  rewrite insert_permutation. now constructor.
Qed.

Lemma insert_descending a l :
  List.Forall (fun r => Double.amount (similarityScore r)) (a :: l) ->
  descending l -> descending (Engine.insert a l).
Proof.
  unfold descending. induction l as [|b l IH]; intros F HS; simpl.
  - repeat constructor.
  - apply StronglySorted_inv in HS as [HS Hb].
    inversion F as [|? ? Fa Fl]; subst.
    inversion Fl as [|? ? Fb Fl']; subst.
    destruct (Engine.before b a) eqn:E.
    + constructor; [apply IH; [now constructor | exact HS]|].
      apply (before_spec b a Fb Fa) in E.
      eapply Permutation_Forall;
        [symmetry; apply insert_permutation|].
      constructor; [now apply lt_asym | exact Hb].
    + assert (Hab : ~ Double.lt (similarityScore a) (similarityScore b)).
      { intros H. apply (before_spec b a Fb Fa) in H. congruence. }
      constructor; [now constructor|].
      constructor; [exact Hab|].
      eapply List.Forall_impl; [|exact Hb]. simpl. intros c Hc.
      apply (not_lt_trans _ (similarityScore b));
        [now apply amount_not_NaN | exact Hab | exact Hc].
Qed.

Lemma sort_amounts l :
  List.Forall (fun r => Double.amount (similarityScore r)) l ->
  List.Forall (fun r => Double.amount (similarityScore r)) (Engine.sort l).
Proof.
  intros F. eapply Permutation_Forall; [|exact F].
  symmetry. apply sort_permutation.
Qed.

Lemma sort_descending l :
  List.Forall (fun r => Double.amount (similarityScore r)) l ->
  descending (Engine.sort l).
Proof.
  induction l as [|a l IH]; intros F; simpl; [constructor|].
  inversion F as [|? ? Fa Fl]; subst.
  apply insert_descending; [|now apply IH].
  constructor; [exact Fa | now apply sort_amounts].
Qed.

(** Stability: the results that tie at a score keep their order. *)
Lemma insert_stable v a l :
  List.Forall (fun r => Double.amount (similarityScore r)) (a :: l) ->
  List.filter (tied v) (Engine.insert a l) = List.filter (tied v) (a :: l).
Proof.
  induction l as [|b l IH]; intros F; [reflexivity|].
  inversion F as [|? ? Fa Fl]; subst.
  inversion Fl as [|? ? Fb Fl']; subst.
  simpl Engine.insert. destruct (Engine.before b a) eqn:E; [|reflexivity].
  apply (before_spec b a Fb Fa) in E. simpl.
  rewrite IH by now constructor. simpl.
  destruct (tied v b) eqn:Tb, (tied v a) eqn:Ta; try reflexivity.
  exfalso. unfold tied in *.
  apply same_true in Ta as (_ & _ & La & Ua).
  apply same_true in Tb as (_ & _ & Lb & Ub).
  destruct E as (_ & _ & E). lia.
Qed.

Lemma sort_stable v l :
  List.Forall (fun r => Double.amount (similarityScore r)) l ->
  List.filter (tied v) (Engine.sort l) = List.filter (tied v) l.
Proof.
  induction l as [|a l IH]; intros F; [reflexivity|].
  inversion F as [|? ? Fa Fl]; subst.
  simpl Engine.sort. rewrite insert_stable.
  - simpl. now rewrite IH.
  - constructor; [exact Fa | now apply sort_amounts].
Qed.

Lemma ranked_file i l : map r_file (Engine.ranked i l) = map r_file l.
Proof.
  revert i. induction l as [|r l IH]; intros i; simpl;
    [reflexivity | now rewrite IH].
Qed.

Lemma ranked_score i l :
  map similarityScore (Engine.ranked i l) = map similarityScore l.
Proof.
  revert i. induction l as [|r l IH]; intros i; simpl;
    [reflexivity | now rewrite IH].
Qed.

Lemma ranked_rank l : forall i n r,
  nth_error (Engine.ranked i l) n = Some r -> rank r = i + n + 1.
Proof.
  induction l as [|x l IH]; intros i n r; simpl.
  - destruct n; discriminate.
  - destruct n as [|n]; simpl.
    + intros [= <-]. simpl. lia.
    + intros H. apply IH in H. lia.
Qed.

Lemma ranked_In i l r :
  In r (Engine.ranked i l) ->
  exists r', In r' l /\ r_file r = r_file r'
             /\ similarityScore r = similarityScore r'.
Proof.
  revert i. induction l as [|x l IH]; intros i; simpl; [intros []|].
  intros [<-|H].
  - exists x. simpl. auto.
  - destruct (IH _ H) as (r' & Hin & Hf & Hs). exists r'. auto.
Qed.

Lemma ranked_descending i l :
  descending l -> descending (Engine.ranked i l).
Proof.
  unfold descending. revert i.
  induction l as [|x l IH]; intros i HS; simpl; [constructor|].
  apply StronglySorted_inv in HS as [HS Hx].
  constructor; [now apply IH|].
  apply List.Forall_forall. intros r Hr.
  destruct (ranked_In _ _ _ Hr) as (r' & Hin & _ & Hs).
  rewrite List.Forall_forall in Hx. simpl. rewrite Hs. now apply Hx.
Qed.

Lemma ranked_tied v i l :
  map r_file (List.filter (tied v) (Engine.ranked i l))
  = map r_file (List.filter (tied v) l).
Proof.
  assert (T : forall r n,
             tied v {| r_file := r_file r; r_code := r_code r;
                       similarityScore := similarityScore r; rank := n |}
             = tied v r) by reflexivity.
  revert i. induction l as [|x l IH]; intros i; simpl; [reflexivity|].
  rewrite T. destruct (tied v x); simpl; now rewrite IH.
Qed.

(** The score map, entry by entry, becomes the list that is sorted. *)
Lemma scored_entries metadata entries l :
  Engine.scored metadata entries = Some l ->
  map r_file l = map fst entries /\
  map similarityScore l = map snd entries /\
  forall r, In r l -> exists item, In item metadata /\ file item = r_file r.
Proof.
  revert l. induction entries as [|[f sc] rest IH]; intros l; simpl.
  - intros [= <-]. repeat split. intros r [].
  - destruct (Engine.findFile metadata f) as [item|] eqn:F; [|discriminate].
    destruct (Engine.scored metadata rest) as [l'|]; [|discriminate].
    intros [= <-]. destruct (IH l' eq_refl) as (Hf & Hs & Hin).
    simpl. rewrite Hf, Hs. repeat split.
    intros r [<-|H]; [|now apply Hin].
    unfold Engine.findFile in F. apply find_some in F as [Hi He].
    apply str_eqb_eq in He. exists item. simpl. auto.
Qed.

Lemma scored_tied v metadata entries l :
  Engine.scored metadata entries = Some l ->
  map r_file (List.filter (tied v) l)
  = map fst (List.filter (tiedEntry v) entries).
Proof.
  revert l. induction entries as [|[f sc] rest IH]; intros l; simpl.
  - now intros [= <-].
  - destruct (Engine.findFile metadata f) as [item|]; [|discriminate].
    destruct (Engine.scored metadata rest) as [l'|]; [|discriminate].
    intros [= <-]. simpl.
    change (tied v _) with (Double.same sc v) at 1.
    change (tiedEntry v (f, sc)) with (Double.same sc v).
    destruct (Double.same sc v); simpl; now rewrite (IH l' eq_refl).
Qed.

End Ranking.

(* ===================================================================== *)
(** *** The score map and the shape of a search *)
(* ===================================================================== *)

Section SearchShape.

Lemma set_In {V} (k k' : text) (v v' : V) (m : JSMap.t V) :
  In (k', v') (JSMap.set k v m) -> (k', v') = (k, v) \/ In (k', v') m.
Proof.
  induction m as [|[k0 v0] m IH]; simpl.
  - intros [H|[]]. now left.
  - destruct (Str.eqb k k0) eqn:E.
    + apply str_eqb_eq in E. subst k0.
      intros [H|H]; [left; congruence | right; now right].
    + intros [H|H]; [right; now left|].
      destruct (IH H) as [H'|H']; [now left | right; now right].
Qed.

Lemma partialMatch_regular keyword score entry :
  Double.regular score ->
  Double.regular (Engine.partialMatch keyword score entry).
Proof.
  intros R. unfold Engine.partialMatch. destruct entry as [k v].
  destruct (_ && _); [|exact R].
  apply add_regular; [exact R|].
  apply (weighted_regular _ _ _ d0_005_signed). unfold Double.emin. lia.
Qed.

Lemma prebuiltKeyword_regular terms score keyword :
  Double.regular score ->
  Double.regular (Engine.prebuiltKeyword terms score keyword).
Proof.
  intros R. unfold Engine.prebuiltKeyword.
  assert (R' : Double.regular
                 (Double.add score
                    (Double.mul
                       (Double.ofZ (default 0%Z (JSMap.get keyword terms)))
                       Double.d0_01))).
  { apply add_regular; [exact R|].
    apply (weighted_regular _ _ _ d0_01_signed). unfold Double.emin. lia. }
  revert R'. generalize (Double.add score
                           (Double.mul
                              (Double.ofZ
                                 (default 0%Z (JSMap.get keyword terms)))
                              Double.d0_01)).
  induction (JSMap.entries terms) as [|e es IH]; intros acc A; simpl;
    [exact A|].
  apply IH. now apply partialMatch_regular.
Qed.

Lemma prebuiltScore_regular tokens terms :
  Double.regular (Engine.prebuiltScore tokens terms).
Proof.
  unfold Engine.prebuiltScore.
  assert (Z : Double.regular Double.zero) by now left.
  revert Z. generalize Double.zero.
  induction tokens as [|t ts IH]; intros acc A; simpl; [exact A|].
  apply IH. now apply prebuiltKeyword_regular.
Qed.

Lemma boost_regular b amount score :
  Double.signed false Double.emin amount ->
  Double.regular score -> Double.regular (Engine.boost b amount score).
Proof.
  intros A R. unfold Engine.boost. destruct b; [|exact R].
  apply add_regular; [exact R | now apply (signed_regular false)].
Qed.

Lemma fallbackKeyword_regular code acc keyword :
  (forall sc, acc = Returns sc -> Double.regular sc) ->
  forall sc,
    Engine.fallbackKeyword code acc keyword = Returns sc ->
    Double.regular sc.
Proof.
  intros A sc. unfold Engine.fallbackKeyword.
  destruct acc as [score|e| |]; try discriminate.
  specialize (A score eq_refl).
  destruct (Pattern.compile keyword) as [K| |]; try discriminate.
  destruct (Re.matchAll false K code) as [|m ms].
  - now intros [= <-].
  - intros [= <-].
    apply boost_regular; [exact d0_1_signed|].
    apply boost_regular; [exact d0_2_signed|].
    apply boost_regular; [exact d0_3_signed|].
    apply add_regular; [exact A|].
    apply (weighted_regular (Z.of_nat (length (m :: ms))) _ _ d0_01_signed).
    unfold Double.emin. lia.
Qed.

Lemma fallbackScore_regular tokens item sc :
  Engine.fallbackScore tokens item = Returns sc -> Double.regular sc.
Proof.
  unfold Engine.fallbackScore.
  assert (Z : forall sc, Returns Double.zero = Returns sc ->
                         Double.regular sc)
    by (intros ? [= <-]; now left).
  revert Z sc. generalize (Returns Double.zero : outcome Double.t).
  induction tokens as [|t ts IH]; intros acc A sc; simpl; [apply A|].
  apply IH. now apply fallbackKeyword_regular.
Qed.

Lemma record_positive scores item score :
  Double.regular score ->
  all_positive scores -> all_positive (Engine.record scores item score).
Proof.
  unfold Engine.record. intros R H.
  destruct (Engine.positive score) eqn:P; [|exact H].
  apply (positive_spec _ R) in P. intros [k v] Hin.
  apply set_In in Hin as [[= -> ->]|Hin]; [exact P | now apply H].
Qed.

(** A loop that has stopped stays stopped. *)
Lemma fallbackItem_stopped tokens metadata (acc : outcome (JSMap.t Double.t)) :
  (forall scores, acc <> Returns scores) ->
  fold_left (Engine.fallbackItem tokens) metadata acc = acc.
Proof.
  revert acc. induction metadata as [|item md IH]; intros acc H; simpl;
    [reflexivity|].
  destruct acc as [scores|e| |]; [now contradiction (H scores)| | |];
    simpl; apply IH; discriminate.
Qed.

(** The scoring throws the [SyntaxError] of [new RegExp] and nothing else,
    and it ends. *)
Lemma fallbackScore_ends tokens item :
  (forall e, Engine.fallbackScore tokens item = Throws e -> e = SyntaxError)
  /\ Engine.fallbackScore tokens item <> NeverReturns.
Proof.
  unfold Engine.fallbackScore.
  assert (Z : (forall e, (Returns Double.zero : outcome Double.t) = Throws e
                         -> e = SyntaxError)
              /\ (Returns Double.zero : outcome Double.t) <> NeverReturns)
    by (split; [discriminate | discriminate]).
  revert Z. generalize (Returns Double.zero : outcome Double.t).
  induction tokens as [|t ts IH]; intros acc A; simpl; [exact A|].
  apply IH. unfold Engine.fallbackKeyword.
  destruct acc as [score|e| |]; try exact A.
  destruct (Pattern.compile t) as [K| |].
  - destruct (Re.matchAll false K _); split; discriminate.
  - split; [now intros e [= <-] | discriminate].
  - split; discriminate.
Qed.

Lemma keywordSearchOn_ends tokens metadata :
  (forall e, Engine.keywordSearchOn tokens metadata = Throws e ->
             e = SyntaxError)
  /\ Engine.keywordSearchOn tokens metadata <> NeverReturns.
Proof.
  unfold Engine.keywordSearchOn.
  destruct tokens as [|t ts]; [split; discriminate|].
  destruct (Engine.hasKeywordIndices metadata); [split; discriminate|].
  assert (Z : (forall e, (Returns JSMap.empty
                          : outcome (JSMap.t Double.t)) = Throws e
                         -> e = SyntaxError)
              /\ (Returns JSMap.empty : outcome (JSMap.t Double.t))
                 <> NeverReturns)
    by (split; discriminate).
  revert Z. generalize (Returns JSMap.empty : outcome (JSMap.t Double.t)).
  induction metadata as [|item md IH]; intros acc A; simpl; [exact A|].
  apply IH. unfold Engine.fallbackItem.
  destruct acc as [scores|e| |]; try exact A.
  destruct (fallbackScore_ends (t :: ts) item) as [E N].
  destruct (Engine.fallbackScore (t :: ts) item) as [score|e| |].
  - split; discriminate.
  - split; [|discriminate]. intros e' [= <-]. now apply E.
  - congruence.
  - split; discriminate.
Qed.

Lemma keywordSearchOn_errors tokens metadata e :
  Engine.keywordSearchOn tokens metadata = Throws e -> e = SyntaxError.
Proof. apply keywordSearchOn_ends. Qed.

Lemma keywordSearchOn_positive tokens metadata scores :
  Engine.keywordSearchOn tokens metadata = Returns scores ->
  all_positive scores.
Proof.
  unfold Engine.keywordSearchOn.
  destruct tokens as [|t ts]; [intros [= <-] e []|].
  destruct (Engine.hasKeywordIndices metadata).
  - intros [= <-].
    assert (G : forall acc, all_positive acc ->
              all_positive
                (fold_left
                   (fun scores item =>
                      Engine.record scores item
                        (Engine.prebuiltScore (t :: ts) (keywords item)))
                   metadata acc)).
    { induction metadata as [|item md IH]; intros acc Hacc; simpl;
        [exact Hacc|]. apply IH.
      apply record_positive; [apply prebuiltScore_regular | exact Hacc]. }
    apply G. intros e [].
  - assert (G : forall acc,
              (forall m, acc = Returns m -> all_positive m) ->
              forall m,
                fold_left (Engine.fallbackItem (t :: ts)) metadata acc
                = Returns m ->
                all_positive m).
    { induction metadata as [|item md IH]; intros acc Hacc m; simpl;
        [now apply Hacc|].
      apply IH. intros m'. unfold Engine.fallbackItem.
      destruct acc as [sc|e| |]; try discriminate.
      destruct (Engine.fallbackScore (t :: ts) item) as [score|e| |] eqn:F;
        try discriminate.
      intros [= <-]. apply record_positive; [|now apply Hacc].
      now apply (fallbackScore_regular _ _ _ F). }
    apply G. intros m [= <-] e [].
Qed.

Lemma searchIndexed_returns w s query directory results :
  Engine.searchIndexed w s query directory = Returns results ->
  exists scores l,
    Engine.getMetadataForDirectory w s directory <> [] /\
    Engine.keywordSearch w s query directory = Returns scores /\
    Engine.scored (Engine.getMetadataForDirectory w s directory)
      (JSMap.entries scores) = Some l /\
    results = Engine.ranked 0 (Engine.sort l).
Proof.
  unfold Engine.searchIndexed.
  destruct (Engine.getMetadataForDirectory w s directory) as [|m md] eqn:M;
    [discriminate|].
  destruct (Engine.keywordSearch w s query directory) as [scores|e| |];
    try discriminate.
  destruct (Engine.scored _ _) as [l|] eqn:Sc; [|discriminate].
  intros [= <-]. exists scores, l. repeat split; congruence.
Qed.

(** What discovery and a build can throw. *)
Lemma collect_errors w ig directory absoluteDirectory extensions e :
  forall files,
    Discovery.collect w ig directory absoluteDirectory extensions files
    = Throws e ->
    e = DiscoveryFailed \/ e = IgnoreFailed.
Proof.
  induction extensions as [|ext rest IH]; intros files; simpl;
    [discriminate|].
  destruct (glob w _) as [matches|]; [|intros [= <-]; now left].
  destruct (Discovery.filterMatches w ig absoluteDirectory matches);
    [apply IH | intros [= <-]; now right].
Qed.

Lemma getSourceFiles_errors w directory extensions e :
  Discovery.getSourceFiles w directory extensions = Throws e ->
  e = DiscoveryFailed \/ e = IgnoreFailed.
Proof.
  unfold Discovery.getSourceFiles.
  destruct (Discovery.loadGitignore w directory) as [ig|]; [|discriminate].
  destruct (Discovery.collect _ _ _ _ _ _) as [all|e'| |] eqn:C;
    try discriminate.
  intros [= <-]. exact (collect_errors _ _ _ _ _ _ _ C).
Qed.

Lemma discover_errors w directory extensions e :
  Engine.discover w directory extensions = Throws e ->
  e = NoFilesFound \/ e = DiscoveryFailed \/ e = IgnoreFailed.
Proof.
  unfold Engine.discover.
  destruct (Discovery.getSourceFiles w directory extensions)
    as [[|f fs]|e'| |] eqn:G; try discriminate.
  - destruct (subdirectories w directory) as [items|];
      [|intros [= <-]; now left].
    destruct (Engine.subdirectoryFiles w _ extensions [])
      as [[|f fs]|e'| |]; try discriminate; intros [= <-]; now left.
  - intros [= <-]. right. exact (getSourceFiles_errors _ _ _ _ G).
Qed.

(** The four ways through [search]. *)
Lemma search_cases w query directory s :
  (is_Some (directoryIndices s !! Engine.getNormalizedDirectory w directory)
   /\ Engine.search w query directory s
      = (s, Engine.searchIndexed w s query directory)) \/
  (directoryIndices s !! Engine.getNormalizedDirectory w directory = None
   /\ exists s',
       Engine.createIndex w directory
         (Some (Engine.implicitExtensions w s directory)) s
       = (s', Returns tt)
       /\ is_Some (directoryIndices s'
                     !! Engine.getNormalizedDirectory w directory)
       /\ Engine.search w query directory s
          = (s', Engine.searchIndexed w s' query directory)) \/
  (directoryIndices s !! Engine.getNormalizedDirectory w directory = None
   /\ exists e,
       Engine.createIndex w directory
         (Some (Engine.implicitExtensions w s directory)) s
       = (s, Throws e)
       /\ (e = NoFilesFound \/ e = DiscoveryFailed \/ e = IgnoreFailed)
       /\ Engine.search w query directory s = (s, Throws e)) \/
  (directoryIndices s !! Engine.getNormalizedDirectory w directory = None
   /\ Engine.createIndex w directory
        (Some (Engine.implicitExtensions w s directory)) s
      = (s, NeverReturns)
   /\ Engine.search w query directory s = (s, NeverReturns)).
Proof.
  unfold Engine.search.
  destruct (directoryIndices s !! _) as [md|] eqn:E.
  - left. split; [eauto | reflexivity].
  - right.
    destruct (createIndex_cases w directory
                (Some (Engine.implicitExtensions w s directory)) s)
      as [(files & D & C)|[(e & D & C)|[D C]]]; rewrite C.
    + left. split; [reflexivity|]. eexists. split; [reflexivity|].
      split; [|reflexivity]. simpl. rewrite lookup_insert_eq. eauto.
    + right. left. split; [reflexivity|]. exists e. repeat split.
      exact (discover_errors _ _ _ _ D).
    + right. right. repeat split.
Qed.

(** A search that returns has an index under its key afterwards, and
    returned what the index gives. *)
(** What the index gives depends on the world by the key alone. *)
Lemma searchIndexed_key w w' s query d1 d2 :
  Engine.getNormalizedDirectory w d1 = Engine.getNormalizedDirectory w' d2 ->
  Engine.searchIndexed w s query d1 = Engine.searchIndexed w' s query d2.
Proof.
  intros K. unfold Engine.searchIndexed, Engine.keywordSearch,
    Engine.getMetadataForDirectory. now rewrite K.
Qed.

Lemma getNormalizedDirectory_cwd w w' directory :
  cwd_tail w' = cwd_tail w ->
  Engine.getNormalizedDirectory w' directory
  = Engine.getNormalizedDirectory w directory.
Proof.
  intros C. unfold Engine.getNormalizedDirectory, cwd. now rewrite C.
Qed.

Lemma search_returns w query directory s s' results :
  Engine.search w query directory s = (s', Returns results) ->
  is_Some (directoryIndices s' !! Engine.getNormalizedDirectory w directory)
  /\ Engine.searchIndexed w s' query directory = Returns results.
Proof.
  intros H.
  destruct (search_cases w query directory s)
    as [[I E]|[[N (s1 & C & I & E)]|[[N (e & C & _ & E)]|[N [C E]]]]];
    rewrite E in H; inversion H; subst; auto.
Qed.

Lemma search_reachable w query directory s :
  reachable s -> reachable (fst (Engine.search w query directory s)).
Proof. intros R. exact (reach_call w (Search query directory) s R). Qed.

Lemma set_new {V} (k : text) (v : V) (m : JSMap.t V) :
  JSMap.get k m = None -> JSMap.set k v m = m ++ [(k, v)].
Proof.
  induction m as [|[k' v'] m IH]; simpl; [reflexivity|].
  destruct (Str.eqb k k'); [discriminate|].
  intros H. now rewrite IH.
Qed.

Lemma get_app_new {V} (k k' : text) (v : V) (m : JSMap.t V) :
  k <> k' -> JSMap.get k (m ++ [(k', v)]) = JSMap.get k m.
Proof.
  intros Hne. induction m as [|[k0 v0] m IH]; simpl.
  - apply str_eqb_neq in Hne. now rewrite Hne.
  - now rewrite IH.
Qed.

(** Over an index without two records of one file, the score map lists
    the files of positive score in the order of the index. *)
Lemma recorded_in_order (score : CodeMetadata -> Double.t) metadata :
  forall acc,
  List.NoDup (map file metadata) ->
  (forall item, In item metadata -> JSMap.get (file item) acc = None) ->
  fold_left (fun scores item => Engine.record scores item (score item))
    metadata acc
  = acc ++ map (fun item => (file item, score item))
             (List.filter (fun item => Engine.positive (score item))
                metadata).
Proof.
  induction metadata as [|item md IH]; intros acc N Hacc; simpl.
  - now rewrite app_nil_r.
  - inversion N as [|? ? Hnew N']; subst.
    rewrite IH; [|exact N'|].
    + unfold Engine.record.
      destruct (Engine.positive (score item)); [|reflexivity].
      rewrite set_new by (apply Hacc; now left).
      simpl. now rewrite <- app_assoc.
    + intros i Hi. unfold Engine.record.
      destruct (Engine.positive (score item)); [|apply Hacc; now right].
      rewrite set_new by (apply Hacc; now left).
      rewrite get_app_new; [apply Hacc; now right|].
      intros E. apply Hnew. rewrite <- E. now apply in_map.
Qed.

(** Where the fall-back branch returns, it has recorded the score of each
    record. *)
Lemma fallback_fold_returns tokens metadata : forall acc scores,
  fold_left (Engine.fallbackItem tokens) metadata (Returns acc)
  = Returns scores ->
  scores =
  fold_left
    (fun scores item =>
       Engine.record scores item
         (returned Double.zero (Engine.fallbackScore tokens item)))
    metadata acc /\
  forall item, In item metadata ->
    exists sc, Engine.fallbackScore tokens item = Returns sc.
Proof.
  induction metadata as [|item md IH]; intros acc scores; simpl.
  - intros [= <-]. split; [reflexivity | intros item []].
  - destruct (Engine.fallbackScore tokens item) as [sc|e| |] eqn:F; simpl.
    + intros H. destruct (IH _ _ H) as [E A]. split; [exact E|].
      intros i [<-|Hi]; [eauto | now apply A].
    + rewrite fallbackItem_stopped by discriminate. discriminate.
    + rewrite fallbackItem_stopped by discriminate. discriminate.
    + rewrite fallbackItem_stopped by discriminate. discriminate.
Qed.

Lemma keywordSearchOn_in_order tokens metadata scores :
  Engine.keywordSearchOn tokens metadata = Returns scores ->
  List.NoDup (map file metadata) ->
  exists score : CodeMetadata -> Double.t,
    JSMap.entries scores
    = map (fun item => (file item, score item))
        (List.filter (fun item => Engine.positive (score item)) metadata).
Proof.
  unfold Engine.keywordSearchOn, JSMap.entries. intros H N.
  destruct tokens as [|t ts].
  - injection H as <-. exists (fun _ => Double.zero).
    induction metadata as [|item md IH]; [reflexivity|].
    inversion N; subst. simpl. now apply IH.
  - destruct (Engine.hasKeywordIndices metadata).
    + injection H as <-.
      exists (fun item => Engine.prebuiltScore (t :: ts) (keywords item)).
      now rewrite recorded_in_order.
    + apply fallback_fold_returns in H as [H _]. subst scores.
      exists (fun item =>
                returned Double.zero (Engine.fallbackScore (t :: ts) item)).
      now rewrite recorded_in_order.
Qed.

End SearchShape.

Section Results.

Lemma searchIndexed_files w s query directory results r :
  Engine.searchIndexed w s query directory = Returns results ->
  In r results ->
  exists metadata item,
    directoryIndices s !! Engine.getNormalizedDirectory w directory
      = Some metadata
    /\ In item metadata /\ file item = r_file r.
Proof.
  intros H Hin.
  destruct (searchIndexed_returns _ _ _ _ _ H)
    as (scores & l & Hne & _ & Sc & ->).
  apply ranked_In in Hin as (r' & Hin & Hf & _).
  apply (Permutation_in _ (sort_permutation l)) in Hin.
  destruct (scored_entries _ _ _ Sc) as (_ & _ & Hitem).
  destruct (Hitem r' Hin) as (item & Hi & Hfile).
  unfold Engine.getMetadataForDirectory in *.
  destruct (directoryIndices s !! _) as [metadata|]; simpl in *;
    [|contradiction].
  exists metadata, item. repeat split; congruence.
Qed.

Lemma searchIndexed_positive w s query directory results r :
  Engine.searchIndexed w s query directory = Returns results ->
  In r results -> Double.signed false Double.emin (similarityScore r).
Proof.
  intros H Hin.
  destruct (searchIndexed_returns _ _ _ _ _ H)
    as (scores & l & _ & K & Sc & ->).
  apply ranked_In in Hin as (r' & Hin & _ & ->).
  apply (Permutation_in _ (sort_permutation l)) in Hin.
  destruct (scored_entries _ _ _ Sc) as (Hf & Hs & _).
  apply keywordSearchOn_positive in K.
  apply (in_map similarityScore) in Hin. rewrite Hs in Hin.
  apply in_map_iff in Hin as (e & <- & He). now apply K.
Qed.

(** The scores of a scored list are positive numbers. *)
Lemma scored_amounts metadata scores l :
  all_positive scores ->
  Engine.scored metadata (JSMap.entries scores) = Some l ->
  List.Forall (fun r => Double.amount (similarityScore r)) l.
Proof.
  intros P Sc. destruct (scored_entries _ _ _ Sc) as (_ & Hs & _).
  apply List.Forall_forall. intros r Hin. right.
  apply (in_map similarityScore) in Hin. rewrite Hs in Hin.
  apply in_map_iff in Hin as (e & <- & He). now apply P.
Qed.

End Results.

(** C9. No test file (basename with [.spec.] or [.test.], or a [__tests__]
    segment in the path) is in any index of a reachable state, and none is
    returned by [search] or [getRelevantFiles], whatever the query, the
    directory, the contents of the files and the ignore rules of the world. *)
Theorem test_files_never_indexed_nor_returned (s : State) :
  reachable s ->
  index_source_only s /\
  (forall w query directory results r,
      snd (Engine.search w query directory s) = Returns results ->
      In r results -> Spec.isTest (r_file r) = false) /\
  (forall w query directory files f,
      snd (Engine.getRelevantFiles w query directory s) = Returns files ->
      In f files -> Spec.isTest f = false).
Proof.
  intros R.
  assert (S1 : forall w query directory results r,
             snd (Engine.search w query directory s) = Returns results ->
             In r results -> Spec.isTest (r_file r) = false).
  { intros w query directory results r H Hin.
    destruct (Engine.search w query directory s) as [s' o] eqn:E.
    simpl in H. subst o.
    pose proof (search_reachable w query directory s R) as R'.
    rewrite E in R'. simpl in R'.
    apply search_returns in E as [_ E].
    destruct (searchIndexed_files _ _ _ _ _ _ E Hin)
      as (metadata & item & L & Hi & <-).
    exact (reachable_source_only s' R' _ _ _ L Hi). }
  split; [now apply reachable_source_only|]. split; [exact S1|].
  intros w query directory files f H Hin.
  unfold Engine.getRelevantFiles in H.
  destruct (Engine.search w query directory s) as [s' [results|e| |]] eqn:E;
    simpl in H; try discriminate.
  injection H as <-. apply in_map_iff in Hin as (r & <- & Hr).
  apply (S1 w query directory results r); [now rewrite E | exact Hr].
Qed.

Lemma test_files_never_indexed_nor_returned_witness :
  index_source_only Sample.indexed /\
  (forall w query directory results r,
      snd (Engine.search w query directory Sample.indexed)
        = Returns results ->
      In r results -> Spec.isTest (r_file r) = false) /\
  (forall w query directory files f,
      snd (Engine.getRelevantFiles w query directory Sample.indexed)
        = Returns files ->
      In f files -> Spec.isTest f = false).
Proof.
  apply (test_files_never_indexed_nor_returned Sample.indexed).
  unfold Sample.indexed. apply reach_call. apply reach_initial.
Defined.

(** In the sample project [src/a.test.ts] holds both query words and is
    left out all the same. *)
Example sample_search_skips_the_test :
  snd (Engine.getRelevantFiles Sample.world "email send" "/home/proj/src"
         initial)
  = Returns [ "/home/proj/src/a.ts" : text; "/home/proj/src/b.ts" : text ].
Proof. vm_compute. reflexivity. Qed.

(** C5, as the code has it. A search that returns gives its results in
    descending order of score, equal scores allowed, the scores being the
    doubles that the code computes and their order the order of the numbers
    they stand for; the rank of a result is its position, from 1; results
    of equal score follow one another in the order of the score map, which
    over an index without two records of one file is the order of the
    index; a second run of the search in the state the first one left,
    whatever has become of the files, returns the same list and leaves the
    state; and every score returned is positive. *)
Theorem search_ranking (w : World) (query directory : text) (s s' : State)
    (results : list SearchResult) :
  Engine.search w query directory s = (s', Returns results) ->
  descending results /\
  (forall i r, nth_error results i = Some r -> rank r = i + 1) /\
  (exists scores,
      Engine.keywordSearch w s' query directory = Returns scores /\
      (forall v,
          map r_file (List.filter (tied v) results)
          = map fst (List.filter (tiedEntry v) (JSMap.entries scores))) /\
      (List.NoDup
         (map file (Engine.getMetadataForDirectory w s' directory)) ->
       exists score : CodeMetadata -> Double.t,
         JSMap.entries scores
         = map (fun item => (file item, score item))
             (List.filter (fun item => Engine.positive (score item))
                (Engine.getMetadataForDirectory w s' directory)))) /\
  (forall w',
      cwd_tail w' = cwd_tail w ->
      Engine.search w' query directory s' = (s', Returns results)) /\
  (forall r, In r results ->
             Engine.positive (similarityScore r) = true /\
             Double.lt Double.zero (similarityScore r)).
Proof.
  intros H. apply search_returns in H as [I E].
  pose proof (searchIndexed_returns _ _ _ _ _ E)
    as (scores & l & _ & K & Sc & ->).
  pose proof (scored_amounts _ _ _ (keywordSearchOn_positive _ _ _ K) Sc)
    as A.
  split; [now apply ranked_descending, sort_descending|].
  split; [intros i r Hr; now apply ranked_rank in Hr|].
  split.
  { exists scores. split; [exact K|]. split.
    - intros v. rewrite ranked_tied, sort_stable by exact A.
      now apply scored_tied with (1 := Sc).
    - exact (keywordSearchOn_in_order (Engine.queryKeywords query) _ scores
               K). }
  split.
  { intros w' C.
    pose proof (getNormalizedDirectory_cwd w w' directory C) as D.
    destruct (search_cases w' query directory s')
      as [[_ ->]|[[N _]|[[N _]|[N _]]]].
    - now rewrite (searchIndexed_key w' w s' query directory directory D), E.
    - rewrite <- D, N in I. now destruct I.
    - rewrite <- D, N in I. now destruct I.
    - rewrite <- D, N in I. now destruct I. }
  intros r Hr.
  pose proof (searchIndexed_positive _ _ _ _ _ _ E Hr) as P.
  split; [|now apply signed_lt_zero].
  apply positive_spec; [now apply (signed_regular false) | exact P].
Qed.

Lemma search_ranking_witness :
  descending found /\
  (forall i r, nth_error found i = Some r -> rank r = i + 1) /\
  (exists scores,
      Engine.keywordSearch Sample.world searched "email send"
        "/home/proj/src"
        = Returns scores /\
      (forall v,
          map r_file (List.filter (tied v) found)
          = map fst (List.filter (tiedEntry v) (JSMap.entries scores))) /\
      (List.NoDup
         (map file
            (Engine.getMetadataForDirectory Sample.world searched
               "/home/proj/src")) ->
       exists score : CodeMetadata -> Double.t,
         JSMap.entries scores
         = map (fun item => (file item, score item))
             (List.filter (fun item => Engine.positive (score item))
                (Engine.getMetadataForDirectory Sample.world searched
                   "/home/proj/src")))) /\
  (forall w',
      cwd_tail w' = cwd_tail Sample.world ->
      Engine.search w' "email send" "/home/proj/src" searched
      = (searched, Returns found)) /\
  (forall r, In r found ->
             Engine.positive (similarityScore r) = true /\
             Double.lt Double.zero (similarityScore r)).
Proof.
  apply (search_ranking Sample.world "email send" "/home/proj/src" initial
           searched found).
  vm_compute. reflexivity.
Defined.

(** C5, as stated, fails: two files of the same text tie, both are
    returned, and the order of their scores is not strict. *)
Lemma tied_results_are_not_strictly_descending :
  exists a b,
    snd (Engine.search Ties.world "email" "/x" initial) = Returns [a; b] /\
    r_file a = ("/x/a.ts" : text) /\ r_file b = ("/x/b.ts" : text) /\
    similarityScore a = Double.d0_005 /\
    similarityScore b = Double.d0_005 /\
    ~ strictly_descending [a; b].
Proof.
  eexists. eexists. split; [vm_compute; reflexivity|].
  repeat split.
  intros HS. apply StronglySorted_inv in HS as [_ HF].
  inversion HF as [|? ? Hlt _]; subst.
  exact (lt_irrefl _ Hlt).
Qed.

(** The scores of the sample search are the doubles of the code: 0*0.01,
    11*0.005 and 6*0.01 add up to 0.11499999999999999, not to the double
    nearest to 0.115. *)
Example sample_scores :
  map similarityScore found
  = [ S754_finite false 8286623314361712 (-56); Double.d0_005 ] /\
  Double.literal 115 1000 = S754_finite false 8286623314361713 (-56).
Proof. split; vm_compute; reflexivity. Qed.

(** Scores that differ in the last bit are ranked: 7*0.01 is 0.07, and
    1*0.01 + 12*0.005 is 0.06999999999999999. *)
Example rounded_scores_are_ranked :
  exists a b,
    snd (Engine.search Rounding.world "abc" "/x" initial) = Returns [a; b] /\
    r_file a = ("/x/a.ts" : text) /\ r_file b = ("/x/b.ts" : text) /\
    similarityScore a = Double.literal 7 100 /\
    similarityScore b = S754_finite false 5044031582654955 (-56) /\
    Double.lt (similarityScore b) (similarityScore a).
Proof.
  eexists. eexists. split; [vm_compute; reflexivity|].
  repeat split; try (vm_compute; reflexivity).
  vm_compute. right. split; reflexivity.
Qed.

(* ===================================================================== *)
(** *** The implicit build *)
(* ===================================================================== *)

Section LazyBuild.

Lemma searchIndexed_NoIndexedFiles w s query directory :
  Engine.searchIndexed w s query directory = Throws NoIndexedFiles <->
  Engine.getMetadataForDirectory w s directory = [].
Proof.
  unfold Engine.searchIndexed.
  destruct (Engine.getMetadataForDirectory w s directory) as [|m md].
  - split; reflexivity.
  - destruct (Engine.keywordSearch w s query directory) as [scores|e| |]
      eqn:K; try (split; discriminate).
    + destruct (Engine.scored _ _); split; discriminate.
    + split; [|discriminate]. intros [= ->].
      now pose proof (keywordSearchOn_errors _ _ _ K).
Qed.

Lemma metadata_empty w s directory :
  is_Some (directoryIndices s !! Engine.getNormalizedDirectory w directory) ->
  Engine.getMetadataForDirectory w s directory = [] <->
  directoryIndices s !! Engine.getNormalizedDirectory w directory = Some [].
Proof.
  unfold Engine.getMetadataForDirectory. intros [md ->]. simpl.
  split; congruence.
Qed.

End LazyBuild.

(** C7, as the code has it. Without an index under the key of the
    directory, [search] runs [createIndex] with the remembered extensions,
    or the default ones when none are remembered, and an error of that
    build is the error of the search, the state unchanged, as a build that
    never returns is a search that never returns; with an index it leaves
    the state as it is, so that a later search of a directory whose index
    was stored builds nothing; and [search] raises [NoIndexedFiles] exactly
    when, after it, an index is stored under the key and is empty. *)
Theorem lazy_build (w : World) (query directory : text) (s : State) :
  let key := Engine.getNormalizedDirectory w directory in
  let s1 := fst (Engine.search w query directory s) in
  (directoryIndices s !! key = None ->
   s1 = fst (Engine.createIndex w directory
               (Some (default Discovery.defaultExtensions
                        (indexedExtensions s !! key))) s)
   /\ (forall e,
       snd (Engine.createIndex w directory
              (Some (default Discovery.defaultExtensions
                       (indexedExtensions s !! key))) s) = Throws e ->
       Engine.search w query directory s = (s, Throws e))
   /\ (snd (Engine.createIndex w directory
              (Some (default Discovery.defaultExtensions
                       (indexedExtensions s !! key))) s) = NeverReturns ->
       Engine.search w query directory s = (s, NeverReturns))) /\
  (is_Some (directoryIndices s !! key) -> s1 = s) /\
  (is_Some (directoryIndices s1 !! key) ->
   forall query', fst (Engine.search w query' directory s1) = s1) /\
  (snd (Engine.search w query directory s) = Throws NoIndexedFiles <->
   directoryIndices s1 !! key = Some []).
Proof.
  intros key s1. subst key s1.
  change (default Discovery.defaultExtensions
            (indexedExtensions s !! Engine.getNormalizedDirectory w directory))
    with (Engine.implicitExtensions w s directory).
  assert (Present : forall s0 q,
             is_Some (directoryIndices s0
                        !! Engine.getNormalizedDirectory w directory) ->
             fst (Engine.search w q directory s0) = s0).
  { intros s0 q I.
    destruct (search_cases w q directory s0)
      as [[_ ->]|[[N _]|[[N _]|[N _]]]]; [reflexivity| | |];
      rewrite N in I; now destruct I. }
  split; [|split; [|split]].
  - intros N.
    destruct (search_cases w query directory s)
      as [[I _]|[[_ (s' & C & _ & E)]|[[_ (e & C & _ & E)]|[_ [C E]]]]].
    + rewrite N in I. now destruct I.
    + rewrite E, C. split; [reflexivity|]. simpl. split; discriminate.
    + rewrite E, C. split; [reflexivity|]. simpl.
      split; [now intros e' [= <-] | discriminate].
    + rewrite E, C. split; [reflexivity|]. simpl.
      split; [discriminate | reflexivity].
  - apply Present.
  - intros I query'. now apply Present.
  - destruct (search_cases w query directory s)
      as [[I E]|[[N (s' & C & I & E)]|[[N (e & C & He & E)]|[N [C E]]]]];
      rewrite E; simpl.
    + rewrite searchIndexed_NoIndexedFiles. now apply metadata_empty.
    + rewrite searchIndexed_NoIndexedFiles. now apply metadata_empty.
    + rewrite N. split; [|discriminate].
      destruct He as [-> | [-> | ->]]; discriminate.
    + rewrite N. split; discriminate.
Qed.

(** C7, as stated, fails: where nothing can be discovered the implicit
    build throws, no index exists for the directory after the attempt, and
    the error of the search is [NoFilesFound], not [NoIndexedFiles]. *)
Lemma failed_build_is_not_NoIndexedFiles :
  directoryIndices initial
    !! Engine.getNormalizedDirectory Empty.world "/x" = None /\
  Engine.search Empty.world "email" "/x" initial
    = (initial, Throws NoFilesFound) /\
  Engine.getMetadataForDirectory Empty.world
    (fst (Engine.search Empty.world "email" "/x" initial)) "/x" = [] /\
  snd (Engine.search Empty.world "email" "/x" initial)
    <> Throws NoIndexedFiles.
Proof. repeat split; try (vm_compute; reflexivity). discriminate. Qed.

(** Where the only file found cannot be read, the build stores an empty
    index, and that is when the search raises [NoIndexedFiles]. *)
Example empty_index_is_NoIndexedFiles :
  directoryIndices (fst (Engine.search Locked.world "email" "/x" initial))
    !! Engine.getNormalizedDirectory Locked.world "/x" = Some [] /\
  snd (Engine.search Locked.world "email" "/x" initial)
  = Throws NoIndexedFiles.
Proof. split; vm_compute; reflexivity. Qed.

(* ===================================================================== *)
(** *** The matcher on the shapes of the source's expressions *)
(* ===================================================================== *)

Section Matcher.

Variable ic : bool.

Lemma length_dropWhile p (s : text) :
  length (Str.dropWhile p s) <= length s.
Proof.
  induction s as [|c s IH]; simpl; [lia|].
  destruct (p c); simpl; lia.
Qed.

Lemma takeWhile_dropWhile p (s : text) :
  Str.takeWhile p s ++ Str.dropWhile p s = s.
Proof.
  induction s as [|c s IH]; simpl; [reflexivity|].
  destruct (p c); simpl; [now rewrite IH | reflexivity].
Qed.

Lemma length_takeWhile p (s : text) :
  length (Str.takeWhile p s) = length s - length (Str.dropWhile p s).
Proof.
  rewrite <- (takeWhile_dropWhile p s) at 2.
  rewrite length_app. lia.
Qed.

Lemma star_loop_back p k : forall n (s : text),
  length s <= n ->
  Re.star_loop (Re.run ic (Re.Cls p)) k n s = back p k s.
Proof.
  induction n as [|n IH]; intros s Hn.
  - destruct s; [reflexivity | simpl in Hn; lia].
  - destruct s as [|c s]; [reflexivity|].
    simpl in *. destruct (p c); [|reflexivity].
    replace (length s <? S (length s)) with true
      by (symmetry; apply Nat.ltb_lt; lia).
    rewrite IH by lia. reflexivity.
Qed.

Lemma run_star_cls p k (s : text) :
  Re.run ic (Re.Star (Re.Cls p)) s k = back p k s.
Proof. simpl. now apply star_loop_back. Qed.

(** The longest run is taken when the continuation accepts what it
    leaves... *)
Lemma back_accepts p k (s : text) x :
  k (Str.dropWhile p s) = Some x -> back p k s = Some x.
Proof.
  induction s as [|c s IH]; simpl; [auto|].
  destruct (p c); [|auto]. intros H. now rewrite (IH H).
Qed.

(** ...and nothing shorter helps a continuation that cannot start on a
    character of the run. *)
Lemma back_rejects p k (s : text) :
  (forall c s', p c = true -> k (c :: s') = None) ->
  back p k s = k (Str.dropWhile p s).
Proof.
  intros R. induction s as [|c s IH]; simpl; [reflexivity|].
  destruct (p c) eqn:P; [|reflexivity].
  rewrite IH. destruct (k (Str.dropWhile p s)); [reflexivity|].
  now apply R.
Qed.

Lemma run_plus_cls p k (s : text) :
  Re.run ic (Re.Plus (Re.Cls p)) s k =
  match s with
  | c :: s' => if p c then back p k s' else None
  | [] => None
  end.
Proof.
  unfold Re.Plus. cbn [Re.run]. destruct s as [|c s]; [reflexivity|].
  destruct (p c); [|reflexivity].
  now rewrite <- run_star_cls.
Qed.

End Matcher.

Section MatcherCaseSensitive.

Lemma run_lit (l s : text) k :
  Re.run false (Re.Lit l) s k =
  if Str.startsWith l s then k (skipn (length l) s) else None.
Proof.
  revert s. induction l as [|a l IH]; intros s; simpl; [reflexivity|].
  destruct s as [|b s]; [reflexivity|].
  rewrite Ascii.eqb_sym. destruct (Ascii.eqb b a) eqn:E; simpl.
  - apply IH.
  - reflexivity.
Qed.

End MatcherCaseSensitive.

#[local] Arguments Ascii.eqb : simpl never.

Section Classes.

Lemma space_not_word c : Char.isSpace c = true -> Char.isWord c = false.
Proof.
  destruct c as [[] [] [] [] [] [] [] []]; vm_compute; congruence.
Qed.

Lemma word_not_space c : Char.isWord c = true -> Char.isSpace c = false.
Proof.
  intros H. destruct (Char.isSpace c) eqn:E; [|reflexivity].
  apply space_not_word in E. congruence.
Qed.

Lemma startsWith_skipn (p s : text) :
  Str.startsWith p s = true -> s = p ++ skipn (length p) s.
Proof.
  intros H. apply startsWith_app in H as [post ->].
  now rewrite skipn_app, skipn_all, Nat.sub_diag.
Qed.

Lemma takeWhile_nil p (s : text) :
  Str.takeWhile p s = [] ->
  Str.dropWhile p s = s /\
  match s with c :: _ => p c = false | [] => True end.
Proof.
  destruct s as [|c s]; simpl; [auto|].
  destruct (p c); [discriminate | auto].
Qed.

Lemma takeWhile_cons p (s : text) c t :
  Str.takeWhile p s = c :: t ->
  exists s', s = c :: s' /\ p c = true /\ t = Str.takeWhile p s'
             /\ Str.dropWhile p s = Str.dropWhile p s'.
Proof.
  destruct s as [|d s]; simpl; [discriminate|].
  destruct (p d) eqn:P; [|discriminate].
  intros [= -> <-]. exists s. rewrite P. auto.
Qed.

(** [kw\s+\w+] at the head of [s]: what is left behind the match. *)
Lemma run_declaration (kw s : text) :
  Re.run false
    (Re.Cat (Re.Lit kw) (Re.Cat (Re.Plus Re.ws) (Re.Plus Re.w))) s Some =
  if Str.startsWith kw s then
    let rest := skipn (length kw) s in
    match Str.takeWhile Char.isSpace rest,
          Str.takeWhile Char.isWord (Str.dropWhile Char.isSpace rest) with
    | _ :: _, _ :: _ =>
        Some (Str.dropWhile Char.isWord (Str.dropWhile Char.isSpace rest))
    | _, _ => None
    end
  else None.
Proof.
  cbn [Re.run]. rewrite run_lit.
  destruct (Str.startsWith kw s); [|reflexivity].
  cbv zeta. generalize (skipn (length kw) s). intros rest.
  change (fun s' => Re.run false (Re.Cat Re.ws (Re.Star Re.ws)) s'
                      (fun s'0 => Re.run false (Re.Cat Re.w (Re.Star Re.w))
                                    s'0 Some))
    with (fun s' => Re.run false (Re.Plus Re.ws) s'
                      (fun s'0 => Re.run false (Re.Plus Re.w) s'0 Some)).
  unfold Re.ws, Re.w. rewrite run_plus_cls.
  destruct rest as [|c rest]; [reflexivity|]. simpl Str.takeWhile at 1.
  simpl Str.dropWhile.
  destruct (Char.isSpace c) eqn:Sp; [|reflexivity].
  rewrite back_rejects.
  - rewrite run_plus_cls.
    destruct (Str.dropWhile Char.isSpace rest) as [|d rest']; [reflexivity|].
    simpl. destruct (Char.isWord d); [|reflexivity].
    now apply back_accepts.
  - intros c' s' H. rewrite run_plus_cls.
    now rewrite (space_not_word c' H).
Qed.

(** [\w+\s*\(] at the head of [s]. *)
Lemma run_call (s : text) :
  Re.run false
    (Re.Cat (Re.Plus Re.w) (Re.Cat (Re.Star Re.ws) (Re.Chr "("))) s Some =
  match Str.takeWhile Char.isWord s,
        Str.dropWhile Char.isSpace (Str.dropWhile Char.isWord s) with
  | _ :: _, c :: rest => if Ascii.eqb c "(" then Some rest else None
  | _, _ => None
  end.
Proof.
  assert (K : forall t,
             Re.run false (Re.Cat (Re.Star Re.ws) (Re.Chr "(")) t Some =
             match Str.dropWhile Char.isSpace t with
             | c :: rest => if Ascii.eqb c "(" then Some rest else None
             | [] => None
             end).
  { intros t. cbn [Re.run]. 
    change (Re.star_loop (Re.run false Re.ws) ?k (length t) t)
      with (Re.run false (Re.Star Re.ws) t k).
    unfold Re.ws. rewrite run_star_cls, back_rejects.
    - destruct (Str.dropWhile Char.isSpace t) as [|c rest]; [reflexivity|].
      simpl. now rewrite Ascii.eqb_sym.
    - intros c s' H. simpl. destruct (Ascii.eqb "(" c) eqn:E; [|reflexivity].
      apply Ascii.eqb_eq in E. subst c. discriminate. }
  change (Re.run false
            (Re.Cat (Re.Plus Re.w) (Re.Cat (Re.Star Re.ws) (Re.Chr "("))) s
            Some)
    with (Re.run false (Re.Plus Re.w) s
            (fun t => Re.run false (Re.Cat (Re.Star Re.ws) (Re.Chr "(")) t
                        Some)).
  unfold Re.w at 1. rewrite run_plus_cls.
  destruct s as [|c s]; [reflexivity|]. simpl Str.takeWhile.
  simpl Str.dropWhile at 2.
  destruct (Char.isWord c) eqn:W; [|reflexivity].
  rewrite back_rejects; [apply K|].
  intros c' s' H. rewrite K. simpl.
  rewrite (word_not_space c' H).
  destruct (Ascii.eqb c' "(") eqn:E; [|reflexivity].
  apply Ascii.eqb_eq in E. subst c'. discriminate.
Qed.

End Classes.

(* ===================================================================== *)
(** *** Recognisers of the declaration patterns *)
(* ===================================================================== *)

Section Recognisers.

Import SpecExtract.

Lemma takeWhile_all p (s : text) : forallb p (Str.takeWhile p s) = true.
Proof.
  induction s as [|c s IH]; simpl; [reflexivity|].
  destruct (p c) eqn:P; simpl; [now rewrite P | reflexivity].
Qed.

Lemma firstn_prefix (a b : text) : firstn (length a) (a ++ b) = a.
Proof.
  rewrite firstn_app, Nat.sub_diag, firstn_all. simpl. apply app_nil_r.
Qed.

Lemma declarationAt_spec sh kw s o len :
  declarationAt sh kw s = Some (o, len) ->
  Re.exec false
    (Re.Cat (Re.Lit kw) (Re.Cat (Re.Plus Re.ws) (Re.Plus Re.w))) s
    = Some len /\
  firstn len s = kw ++ o_gap o ++ o_name o /\
  o_shape o = sh /\
  forallb Char.isSpace (o_gap o) = true /\
  forallb Char.isWord (o_name o) = true /\
  o_name o <> [] /\ o_gap o <> [].
Proof.
  unfold declarationAt, Re.exec. rewrite run_declaration.
  destruct (Str.startsWith kw s) eqn:P; [|discriminate].
  apply startsWith_skipn in P. cbv zeta.
  set (rest := skipn (length kw) s) in *.
  pose proof (takeWhile_dropWhile Char.isSpace rest) as Hg.
  pose proof (takeWhile_dropWhile Char.isWord
                (Str.dropWhile Char.isSpace rest)) as Hn.
  pose proof (takeWhile_all Char.isSpace rest) as Ag.
  pose proof (takeWhile_all Char.isWord
                (Str.dropWhile Char.isSpace rest)) as An.
  destruct (Str.takeWhile Char.isSpace rest) as [|g gap]; [discriminate|].
  destruct (Str.takeWhile Char.isWord (Str.dropWhile Char.isSpace rest))
    as [|n name]; [discriminate|].
  intros [= <- <-]. cbn [o_gap o_name o_shape].
  set (final := Str.dropWhile Char.isWord (Str.dropWhile Char.isSpace rest))
    in *.
  assert (Hs : s = (kw ++ (g :: gap) ++ (n :: name)) ++ final).
  { rewrite P at 1. rewrite <- Hg, <- Hn. now rewrite <- !app_assoc. }
  repeat split; try assumption; try discriminate.
  - f_equal. rewrite Hs at 1.
    rewrite ?length_app; simpl; rewrite ?length_app; simpl; lia.
  - rewrite Hs at 1.
    etransitivity;
      [|apply (firstn_prefix (kw ++ (g :: gap) ++ n :: name) final)].
    f_equal. rewrite ?length_app; simpl; rewrite ?length_app; simpl; lia.
Qed.

Lemma declarationAt_none sh kw s :
  declarationAt sh kw s = None ->
  Re.exec false
    (Re.Cat (Re.Lit kw) (Re.Cat (Re.Plus Re.ws) (Re.Plus Re.w))) s = None.
Proof.
  unfold declarationAt, Re.exec. rewrite run_declaration.
  destruct (Str.startsWith kw s); [|reflexivity]. cbv zeta.
  destruct (Str.takeWhile Char.isSpace _); [reflexivity|].
  destruct (Str.takeWhile Char.isWord _); [reflexivity | discriminate].
Qed.

Lemma callAt_spec s o len :
  callAt s = Some (o, len) ->
  Re.exec false
    (Re.Cat (Re.Plus Re.w) (Re.Cat (Re.Star Re.ws) (Re.Chr "("))) s
    = Some len /\
  firstn len s = o_name o ++ o_gap o ++ "(" /\
  o_shape o = Call /\
  forallb Char.isSpace (o_gap o) = true /\
  forallb Char.isWord (o_name o) = true /\
  o_name o <> [].
Proof.
  unfold callAt, Re.exec. rewrite run_call.
  pose proof (takeWhile_dropWhile Char.isWord s) as Hn.
  pose proof (takeWhile_dropWhile Char.isSpace (Str.dropWhile Char.isWord s))
    as Hg.
  pose proof (takeWhile_all Char.isWord s) as An.
  pose proof (takeWhile_all Char.isSpace (Str.dropWhile Char.isWord s)) as Ag.
  destruct (Str.takeWhile Char.isWord s) as [|n name]; [discriminate|].
  destruct (Str.dropWhile Char.isSpace (Str.dropWhile Char.isWord s))
    as [|c final]; [discriminate|].
  destruct (Ascii.eqb c "(") eqn:E; [|discriminate].
  apply Ascii.eqb_eq in E. subst c.
  intros [= <- <-]. cbn [o_gap o_name o_shape].
  set (gap := Str.takeWhile Char.isSpace (Str.dropWhile Char.isWord s)) in *.
  assert (Hs : s = ((n :: name) ++ gap ++ "(") ++ final).
  { rewrite <- Hn at 1. rewrite <- Hg. rewrite <- !app_assoc. reflexivity. }
  repeat split; try assumption; try discriminate.
  - f_equal. rewrite Hs at 1.
    rewrite ?length_app; simpl; rewrite ?length_app; simpl; lia.
  - rewrite Hs at 1.
    etransitivity;
      [|apply (firstn_prefix ((n :: name) ++ gap ++ "(") final)].
    f_equal. rewrite ?length_app; simpl; rewrite ?length_app; simpl; lia.
Qed.

Lemma callAt_none s :
  callAt s = None ->
  Re.exec false
    (Re.Cat (Re.Plus Re.w) (Re.Cat (Re.Star Re.ws) (Re.Chr "("))) s = None.
Proof.
  unfold callAt, Re.exec. rewrite run_call.
  destruct (Str.takeWhile Char.isWord s); [reflexivity|].
  destruct (Str.dropWhile Char.isSpace _) as [|c final]; [reflexivity|].
  destruct (Ascii.eqb c "("); [discriminate | reflexivity].
Qed.

Lemma classAt_recognises : recognises Extract.re_class classAt.
Proof.
  intros s. unfold classAt.
  destruct (declarationAt ClassDeclaration "class" s) as [[o len]|] eqn:E.
  - apply declarationAt_spec in E as (X & F & Sh & _).
    split; [exact X|]. unfold matched. now rewrite Sh.
  - now apply (declarationAt_none ClassDeclaration).
Qed.

Lemma classAt_well_formed s o len :
  classAt s = Some (o, len) ->
  well_formed o /\ o_shape o = ClassDeclaration.
Proof.
  intros E. apply declarationAt_spec in E as (_ & _ & Sh & G & N & Nn & Gn).
  unfold well_formed. auto.
Qed.

Lemma exec_alt r1 r2 s :
  Re.exec false (Re.Alt r1 r2) s =
  match Re.exec false r1 s with
  | Some len => Some len
  | None => Re.exec false r2 s
  end.
Proof.
  unfold Re.exec. cbn [Re.run].
  destruct (Re.run false r1 s Some); reflexivity.
Qed.

Lemma functionAt_recognises : recognises Extract.re_function functionAt.
Proof.
  intros s. unfold functionAt, Extract.re_function. rewrite exec_alt.
  destruct (declarationAt FunctionDeclaration "function" s)
    as [[o len]|] eqn:E.
  - apply declarationAt_spec in E as (-> & F & Sh & _).
    split; [reflexivity|]. unfold matched. now rewrite Sh.
  - rewrite (declarationAt_none _ _ _ E).
    destruct (callAt s) as [[o len]|] eqn:C.
    + apply callAt_spec in C as (X & F & Sh & _).
      split; [exact X|]. unfold matched. now rewrite Sh.
    + now apply callAt_none.
Qed.

Lemma functionAt_well_formed s o len :
  functionAt s = Some (o, len) ->
  well_formed o /\ o_shape o <> ClassDeclaration.
Proof.
  unfold functionAt.
  destruct (declarationAt FunctionDeclaration "function" s)
    as [[o' len']|] eqn:E.
  - intros [= -> ->].
    apply declarationAt_spec in E as (_ & _ & Sh & G & N & Nn & Gn).
    unfold well_formed. rewrite Sh. repeat split; auto; discriminate.
  - intros C. apply callAt_spec in C as (_ & _ & Sh & G & N & Nn).
    unfold well_formed. rewrite Sh. repeat split; auto; try discriminate.
Qed.

(** The matches of an expression are the texts of the occurrences that a
    recogniser of it finds. *)
Lemma matchAll_scan r g :
  recognises r g -> Re.exec false r [] = None ->
  forall s n, Re.matchAllFrom false r n s = map matched (scan g n s).
Proof.
  intros Hr He s. induction s as [|c s IH]; intros n; simpl.
  - rewrite He. now destruct n.
  - destruct n as [|n]; [|apply IH].
    specialize (Hr (c :: s)).
    destruct (g (c :: s)) as [[o len]|].
    + destruct Hr as [-> F]. rewrite F. simpl. now rewrite IH.
    + rewrite Hr. apply IH.
Qed.

Lemma scan_Forall (P : occurrence -> Prop) g :
  (forall s o len, g s = Some (o, len) -> P o) ->
  forall s n, Forall P (scan g n s).
Proof.
  intros H s. induction s as [|c s IH]; intros n; simpl; [constructor|].
  destruct n as [|n]; [|apply IH].
  destruct (g (c :: s)) as [[o len]|] eqn:E; [|apply IH].
  constructor; [now apply (H _ _ _ E) | apply IH].
Qed.

End Recognisers.

(* ===================================================================== *)
(** *** Step 1 of the extraction *)
(* ===================================================================== *)

Section Replacing.

Import SpecExtract.

Lemma replaceAllFrom_skip ic r rep : forall (s : text) n,
  n <= length s ->
  Re.replaceAllFrom ic r rep n s = Re.replaceAllFrom ic r rep 0 (skipn n s).
Proof.
  induction s as [|c s IH]; intros n Hn.
  - destruct n; [reflexivity | simpl in Hn; lia].
  - destruct n as [|n]; [reflexivity|].
    simpl. apply IH. simpl in Hn. lia.
Qed.

Lemma skipn_takeWhile p (s : text) :
  skipn (length (Str.takeWhile p s)) s = Str.dropWhile p s.
Proof.
  induction s as [|c s IH]; simpl; [reflexivity|].
  destruct (p c); simpl; [exact IH | reflexivity].
Qed.

Lemma exec_symbol (s : text) :
  Re.exec false Extract.re_symbol s =
  match s with
  | c :: _ => if wordOrSpace c then None else Some 1
  | [] => None
  end.
Proof.
  unfold Re.exec, Extract.re_symbol, wordOrSpace. simpl.
  destruct s as [|c s]; [reflexivity|].
  destruct (Char.isWord c || Char.isSpace c); simpl; [reflexivity|].
  f_equal. lia.
Qed.

Lemma replace_symbols (s : text) :
  Re.replaceAll false Extract.re_symbol " " s = map (blank wordOrSpace) s.
Proof.
  unfold Re.replaceAll. induction s as [|c s IH].
  - reflexivity.
  - cbn [Re.replaceAllFrom map]. rewrite exec_symbol. unfold blank at 1.
    destruct (wordOrSpace c); rewrite IH; reflexivity.
Qed.

Lemma exec_spaces (s : text) :
  Re.exec false Extract.re_spaces s =
  match s with
  | c :: s' =>
      if Char.isSpace c
      then Some (S (length (Str.takeWhile Char.isSpace s')))
      else None
  | [] => None
  end.
Proof.
  unfold Re.exec, Extract.re_spaces, Re.ws. rewrite run_plus_cls.
  destruct s as [|c s]; [reflexivity|].
  destruct (Char.isSpace c); [|reflexivity].
  rewrite (back_accepts _ _ _ _ eq_refl). f_equal.
  rewrite length_takeWhile.
  pose proof (length_dropWhile Char.isSpace s). simpl. lia.
Qed.

Lemma collapse_run c (s : text) :
  Char.isSpace c = true ->
  collapse (c :: s) = " "%char :: collapse (Str.dropWhile Char.isSpace s).
Proof.
  revert c. induction s as [|d s IH]; intros c Hc.
  - simpl. now rewrite Hc.
  - change (collapse (c :: d :: s))
      with (if Char.isSpace c
            then (if Char.isSpace d then collapse (d :: s)
                  else " "%char :: collapse (d :: s))
            else c :: collapse (d :: s)).
    rewrite Hc. cbn [Str.dropWhile].
    destruct (Char.isSpace d) eqn:D; [now apply IH | reflexivity].
Qed.

Lemma collapse_cons c (s : text) :
  Char.isSpace c = false -> collapse (c :: s) = c :: collapse s.
Proof. intros Hc. simpl. now rewrite Hc. Qed.

Lemma replace_spaces (s : text) :
  Re.replaceAll false Extract.re_spaces " " s = collapse s.
Proof.
  unfold Re.replaceAll.
  assert (G : forall n (t : text), length t <= n ->
            Re.replaceAllFrom false Extract.re_spaces " " 0 t = collapse t).
  { induction n as [|n IH]; intros t Hn.
    - destruct t; [reflexivity | simpl in Hn; lia].
    - destruct t as [|c t]; [reflexivity|].
      cbn [Re.replaceAllFrom]. rewrite exec_spaces.
      destruct (Char.isSpace c) eqn:Sp.
      + rewrite collapse_run by exact Sp.
        pose proof (length_dropWhile Char.isSpace t) as L.
        pose proof (length_takeWhile Char.isSpace t) as L'.
        rewrite replaceAllFrom_skip by lia.
        rewrite skipn_takeWhile. simpl in Hn.
        rewrite IH by lia. reflexivity.
      + rewrite collapse_cons by exact Sp. simpl in Hn.
        rewrite IH by lia. reflexivity. }
  now apply (G (length s)).
Qed.

(** Step 1 of the code is step 1 of the reference with [\w] and [\s]
    kept. *)
Lemma normalizedCode_normalize (code : text) :
  Extract.normalizedCode code = normalize wordOrSpace code.
Proof.
  unfold Extract.normalizedCode, normalize.
  now rewrite replace_symbols, replace_spaces.
Qed.

End Replacing.

(* ===================================================================== *)
(** *** The names of the function-like patterns *)
(* ===================================================================== *)

Section Stripping.

Import SpecExtract.

Lemma run_paren (t : text) :
  Re.run false (Re.Cat (Re.Star Re.ws) (Re.Chr "(")) t Some =
  match Str.dropWhile Char.isSpace t with
  | c :: rest => if Ascii.eqb c "(" then Some rest else None
  | [] => None
  end.
Proof.
  cbn [Re.run].
  change (Re.star_loop (Re.run false Re.ws) ?k (length t) t)
    with (Re.run false (Re.Star Re.ws) t k).
  unfold Re.ws. rewrite run_star_cls, back_rejects.
  - destruct (Str.dropWhile Char.isSpace t) as [|c rest]; [reflexivity|].
    simpl. now rewrite Ascii.eqb_sym.
  - intros c s' H. simpl. destruct (Ascii.eqb "(" c) eqn:E; [|reflexivity].
    apply Ascii.eqb_eq in E. subst c. discriminate.
Qed.

Lemma run_function_gap (s : text) :
  Re.run false (Re.Cat (Re.Lit "function") (Re.Plus Re.ws)) s Some =
  if Str.startsWith "function" s then
    match skipn 8 s with
    | c :: r =>
        if Char.isSpace c then Some (Str.dropWhile Char.isSpace r) else None
    | [] => None
    end
  else None.
Proof.
  cbn [Re.run]. rewrite run_lit.
  destruct (Str.startsWith "function" s); [|reflexivity].
  change (length ("function" : text)) with 8.
  change (Re.run false (Re.Cat Re.ws (Re.Star Re.ws)) (skipn 8 s) Some)
    with (Re.run false (Re.Plus Re.ws) (skipn 8 s) Some).
  unfold Re.ws. rewrite run_plus_cls.
  destruct (skipn 8 s) as [|c r]; [reflexivity|].
  destruct (Char.isSpace c); [|reflexivity].
  now apply back_accepts.
Qed.

Lemma dropWhile_app p (a b : text) :
  forallb p a = true -> headIs p b = false ->
  Str.dropWhile p (a ++ b) = b.
Proof.
  intros Ha Hb. induction a as [|c a IH]; simpl in *.
  - destruct b as [|d b]; simpl in *; [reflexivity | now rewrite Hb].
  - apply andb_true_iff in Ha as [-> Ha]. now apply IH.
Qed.

Lemma takeWhile_app p (a b : text) :
  forallb p a = true -> headIs p b = false ->
  Str.takeWhile p (a ++ b) = a.
Proof.
  intros Ha Hb. induction a as [|c a IH]; simpl in *.
  - destruct b as [|d b]; simpl in *; [reflexivity | now rewrite Hb].
  - apply andb_true_iff in Ha as [-> Ha]. now rewrite IH.
Qed.

Lemma startsWith_word_run (kw name tail : text) :
  forallb Char.isWord kw = true -> headIs Char.isWord tail = false ->
  Str.startsWith kw (name ++ tail) = true ->
  exists name', name = kw ++ name'.
Proof.
  intros Hk Ht. revert name.
  induction kw as [|a kw IH]; intros name H; [now exists name|].
  simpl in Hk. apply andb_true_iff in Hk as [Ha Hk].
  destruct name as [|b name]; simpl in H.
  - destruct tail as [|d tail]; [discriminate|].
    apply andb_true_iff in H as [E _]. apply Ascii.eqb_eq in E. subst d.
    simpl in Ht. congruence.
  - apply andb_true_iff in H as [E H]. apply Ascii.eqb_eq in E. subst b.
    destruct (IH Hk name H) as [name' ->]. now exists name'.
Qed.

Lemma endsWith_cons (p s : text) c :
  Str.endsWith p s = true -> Str.endsWith p (c :: s) = true.
Proof.
  unfold Str.endsWith. simpl. rewrite !startsWith_app.
  intros [post ->]. exists (post ++ [c]). now rewrite <- app_assoc.
Qed.

Lemma exec_strip_nil : Re.exec false Extract.re_strip [] = None.
Proof. reflexivity. Qed.

(** No match starts on a word character, unless the word is [function]
    and whitespace follows. *)
Lemma exec_strip_word (name tail : text) :
  name <> [] -> forallb Char.isWord name = true ->
  headIs Char.isWord tail = false ->
  (headIs Char.isSpace tail = true ->
   Str.endsWith "function" name = false) ->
  Re.exec false Extract.re_strip (name ++ tail) = None.
Proof.
  intros Hne Hw Ht Q. unfold Extract.re_strip. rewrite exec_alt.
  unfold Re.exec at 1. rewrite run_function_gap.
  assert (A : (if Str.startsWith "function" (name ++ tail)
               then match skipn 8 (name ++ tail) with
                    | c :: r =>
                        if Char.isSpace c
                        then Some (Str.dropWhile Char.isSpace r) else None
                    | [] => None
                    end
               else None) = None).
  { destruct (Str.startsWith "function" (name ++ tail)) eqn:P;
      [|reflexivity].
    destruct (startsWith_word_run "function" name tail eq_refl Ht P)
      as [name' ->].
    rewrite <- app_assoc.
    change (skipn 8 ("function" ++ name' ++ tail)) with (name' ++ tail).
    destruct name' as [|d name'].
    - simpl. destruct tail as [|c r]; [reflexivity|].
      destruct (Char.isSpace c) eqn:Sp; [|reflexivity].
      specialize (Q Sp). discriminate.
    - rewrite forallb_app in Hw.
      apply andb_true_iff in Hw as [_ Hw]. simpl in Hw.
      apply andb_true_iff in Hw as [Hd _].
      simpl. now rewrite (word_not_space d Hd). }
  rewrite A. unfold Re.exec. rewrite run_paren.
  destruct name as [|c name]; [contradiction|].
  simpl in Hw. apply andb_true_iff in Hw as [Hc _].
  simpl. rewrite (word_not_space c Hc).
  destruct (Ascii.eqb c "(") eqn:E; [|reflexivity].
  apply Ascii.eqb_eq in E. subst c. discriminate.
Qed.

Lemma exec_strip_function (g : ascii) (gap rest : text) :
  Char.isSpace g = true -> forallb Char.isSpace gap = true ->
  headIs Char.isSpace rest = false ->
  Re.exec false Extract.re_strip ("function" ++ g :: gap ++ rest)
  = Some (S (8 + length gap)).
Proof.
  intros Hg Hgap Hr. unfold Extract.re_strip. rewrite exec_alt.
  unfold Re.exec at 1. rewrite run_function_gap.
  change (Str.startsWith "function" ("function" ++ g :: gap ++ rest))
    with (Str.startsWith [] (g :: gap ++ rest)).
  change (skipn 8 ("function" ++ g :: gap ++ rest)) with (g :: gap ++ rest).
  cbn [Str.startsWith]. rewrite Hg, dropWhile_app by assumption.
  f_equal. simpl. rewrite length_app. lia.
Qed.

Lemma exec_strip_paren (gap rest : text) :
  forallb Char.isSpace gap = true ->
  Re.exec false Extract.re_strip (gap ++ "("%char :: rest)
  = Some (S (length gap)).
Proof.
  intros Hgap. unfold Extract.re_strip. rewrite exec_alt.
  unfold Re.exec at 1. rewrite run_function_gap.
  assert (P : Str.startsWith "function" (gap ++ "("%char :: rest) = false).
  { destruct gap as [|c gap]; [reflexivity|].
    simpl in Hgap. apply andb_true_iff in Hgap as [Hc _].
    simpl. destruct (Ascii.eqb "f" c) eqn:E; [|reflexivity].
    apply Ascii.eqb_eq in E. subst c. discriminate. }
  rewrite P. unfold Re.exec. rewrite run_paren.
  rewrite dropWhile_app by (assumption || reflexivity).
  change (Ascii.eqb "(" "(") with true. cbv iota.
  f_equal. rewrite length_app. simpl. lia.
Qed.

Lemma strip_word_run (name tail : text) :
  forallb Char.isWord name = true ->
  headIs Char.isWord tail = false ->
  (headIs Char.isSpace tail = true ->
   Str.endsWith "function" name = false) ->
  Re.replaceAllFrom false Extract.re_strip [] 0 (name ++ tail)
  = name ++ Re.replaceAllFrom false Extract.re_strip [] 0 tail.
Proof.
  intros Hw Ht. induction name as [|c name IH]; intros Q; [reflexivity|].
  pose proof (exec_strip_word (c :: name) tail) as X.
  cbn [app] in X |- *. cbn [Re.replaceAllFrom].
  rewrite X; [|discriminate|assumption..].
  f_equal. apply IH.
  - simpl in Hw. now apply andb_true_iff in Hw as [_ Hw].
  - intros Sp. specialize (Q Sp).
    destruct (Str.endsWith "function" name) eqn:E; [|reflexivity].
    apply (endsWith_cons _ _ c) in E. congruence.
Qed.

(** The name of an occurrence as [countFunction] computes it. *)
Lemma strip_declaration (g : ascii) (gap name : text) :
  Char.isSpace g = true -> forallb Char.isSpace gap = true ->
  forallb Char.isWord name = true ->
  Re.replaceAll false Extract.re_strip [] ("function" ++ g :: gap ++ name)
  = name.
Proof.
  intros Hg Hgap Hw. unfold Re.replaceAll.
  assert (Hh : headIs Char.isSpace name = false).
  { destruct name as [|c name]; [reflexivity|]. simpl in *.
    apply andb_true_iff in Hw as [Hc _]. now apply word_not_space. }
  pose proof (exec_strip_function g gap name Hg Hgap Hh) as X.
  change ("function" ++ g :: gap ++ name)
    with ("f"%char :: ("unction" ++ g :: gap ++ name)) in *.
  cbn [Re.replaceAllFrom]. rewrite X. cbn [app].
  rewrite replaceAllFrom_skip
    by (simpl; rewrite length_app; lia).
  change (skipn (8 + length gap) ("unction" ++ g :: gap ++ name))
    with (skipn (length gap) (gap ++ name)).
  rewrite skipn_app, skipn_all, Nat.sub_diag, skipn_O. cbn [app].
  rewrite <- (app_nil_r name) at 1.
  rewrite strip_word_run; [apply app_nil_r | assumption | reflexivity |].
  discriminate.
Qed.

Lemma strip_gap_paren (gap : text) :
  forallb Char.isSpace gap = true ->
  Re.replaceAllFrom false Extract.re_strip [] 0 (gap ++ "(") = [].
Proof.
  intros Hgap. pose proof (exec_strip_paren gap [] Hgap) as X.
  change (gap ++ "("%char :: []) with (gap ++ "(") in X.
  destruct (gap ++ "(") as [|c t] eqn:E.
  - destruct gap; discriminate.
  - cbn [Re.replaceAllFrom]. rewrite X. cbn [app].
    assert (L : length t = length gap).
    { apply (f_equal (@length ascii)) in E. rewrite length_app in E.
      simpl in E. lia. }
    rewrite replaceAllFrom_skip by lia.
    rewrite <- L, skipn_all. reflexivity.
Qed.

Lemma strip_call (gap name : text) :
  forallb Char.isSpace gap = true -> forallb Char.isWord name = true ->
  (gap = [] \/ Str.endsWith "function" name = false) ->
  Re.replaceAll false Extract.re_strip [] (name ++ gap ++ "(") = name.
Proof.
  intros Hgap Hw Q. unfold Re.replaceAll.
  rewrite strip_word_run.
  - rewrite strip_gap_paren by assumption. apply app_nil_r.
  - assumption.
  - destruct gap as [|c gap]; [reflexivity|]. simpl in *.
    apply andb_true_iff in Hgap as [Hc _]. now apply space_not_word.
  - intros Sp. destruct Q as [-> | Q]; [discriminate | exact Q].
Qed.

Lemma strip_anonymous (g : ascii) (gap : text) :
  Char.isSpace g = true -> forallb Char.isSpace gap = true ->
  Re.replaceAll false Extract.re_strip [] ("function" ++ (g :: gap) ++ "(")
  = [].
Proof.
  intros Hg Hgap. unfold Re.replaceAll.
  pose proof (exec_strip_function g gap "(" Hg Hgap eq_refl) as X.
  change ("function" ++ (g :: gap) ++ "(")
    with ("f"%char :: ("unction" ++ g :: gap ++ "(")).
  change ("function" ++ g :: gap ++ "(")
    with ("f"%char :: ("unction" ++ g :: gap ++ "(")) in X.
  cbn [Re.replaceAllFrom]. rewrite X. cbn [app].
  rewrite replaceAllFrom_skip
    by (simpl; rewrite length_app; simpl; lia).
  change (skipn (8 + length gap) ("unction" ++ g :: gap ++ "("))
    with (skipn (length gap) (gap ++ "(")).
  rewrite skipn_app, skipn_all, Nat.sub_diag, skipn_O. reflexivity.
Qed.

End Stripping.

(* ===================================================================== *)
(** *** Weights *)
(* ===================================================================== *)

Section Weights.

Import SpecExtract.

Lemma get_set {V} (t k : text) (v : V) (m : JSMap.t V) :
  JSMap.get t (JSMap.set k v m) =
  if Str.eqb t k then Some v else JSMap.get t m.
Proof.
  induction m as [|[k' v'] m IH]; simpl; [reflexivity|].
  destruct (Str.eqb k k') eqn:K; simpl.
  - apply str_eqb_eq in K. subst k'.
    destruct (Str.eqb t k); reflexivity.
  - rewrite IH. destruct (Str.eqb t k') eqn:T; [|reflexivity].
    apply str_eqb_eq in T. subst k'.
    destruct (Str.eqb t k) eqn:T'; [|reflexivity].
    apply str_eqb_eq in T'. subst k. rewrite str_eqb_refl in K.
    discriminate.
Qed.

Lemma get_increment t inc m :
  default 0%Z (JSMap.get t (increment m inc)) =
  (default 0%Z (JSMap.get t m)
   + (if Str.eqb t (fst inc) then snd inc else 0))%Z.
Proof.
  unfold increment, Extract.bump. rewrite get_set.
  destruct (Str.eqb t (fst inc)) eqn:E.
  - apply str_eqb_eq in E. subst t. reflexivity.
  - lia.
Qed.

Lemma get_increments t incs : forall m,
  default 0%Z (JSMap.get t (fold_left increment incs m)) =
  (default 0%Z (JSMap.get t m) + total t incs)%Z.
Proof.
  induction incs as [|inc incs IH]; intros m; simpl; [lia|].
  rewrite IH, get_increment. destruct (Str.eqb t (fst inc)); lia.
Qed.

Lemma increment_positive inc m :
  (0 < snd inc)%Z -> positive_values m -> positive_values (increment m inc).
Proof.
  intros Hn Hm t v. unfold increment, Extract.bump. rewrite get_set.
  destruct (Str.eqb t (fst inc)); [|apply Hm].
  intros [= <-]. destruct (JSMap.get (fst inc) m) as [v0|] eqn:G; simpl.
  - apply Hm in G. lia.
  - lia.
Qed.

Lemma increments_positive incs : forall m,
  Forall (fun inc => (0 < snd inc)%Z) incs ->
  positive_values m -> positive_values (fold_left increment incs m).
Proof.
  induction incs as [|inc incs IH]; intros m Hi Hm; simpl; [exact Hm|].
  inversion Hi; subst. apply IH; [assumption|].
  now apply increment_positive.
Qed.

Lemma positive_entry m t :
  positive_values m ->
  JSMap.get t m = entry (default 0%Z (JSMap.get t m)).
Proof.
  intros Hm. unfold entry.
  destruct (JSMap.get t m) as [v|] eqn:G; simpl; [|reflexivity].
  apply Hm in G. destruct (Z.eqb_spec v 0); [lia | reflexivity].
Qed.

Lemma total_app t a b : total t (a ++ b) = (total t a + total t b)%Z.
Proof.
  unfold total. induction a as [|inc a IH]; simpl; [reflexivity|].
  rewrite IH. destruct (Str.eqb t (fst inc)); lia.
Qed.

Lemma total_each t n l : total t (each n l) = (n * count t l)%Z.
Proof.
  unfold total, each, count. induction l as [|x l IH]; simpl; [lia|].
  rewrite IH. destruct (Str.eqb t x); simpl length; lia.
Qed.

Lemma each_positive n l :
  (0 < n)%Z -> Forall (fun inc : text * Z => (0 < snd inc)%Z) (each n l).
Proof.
  intros Hn. unfold each. induction l; simpl; constructor; auto.
Qed.

(** The three loops of [extractKeywords] as increments. *)
Lemma countWord_increments words : forall m,
  fold_left Extract.countWord words m =
  fold_left increment (each 1 (List.filter significant words)) m.
Proof.
  induction words as [|x words IH]; intros m; simpl; [reflexivity|].
  assert (E : Extract.countWord m x
              = if significant x then increment m (x, 1%Z) else m).
  { unfold Extract.countWord, significant.
    destruct ((length x <=? 2) || Extract.isCommonKeyword x); reflexivity. }
  rewrite IH, E. destruct (significant x); reflexivity.
Qed.

Lemma className_single_space o :
  o_shape o = ClassDeclaration -> singleSpaced o = true ->
  Str.toLowerCase (Str.replaceFirst "class " [] (matched o)) = lowerName o.
Proof.
  unfold singleSpaced, matched, lowerName. intros -> E.
  apply str_eqb_eq in E. rewrite E.
  change ("class" ++ " " ++ o_name o) with ("class " ++ o_name o).
  destruct ("class " ++ o_name o) as [|c rest] eqn:X; [discriminate|].
  cbn [Str.replaceFirst]. rewrite <- X.
  assert (P : Str.startsWith "class " ("class " ++ o_name o) = true)
    by (apply startsWith_app; eauto).
  rewrite P. now rewrite skipn_app, skipn_all, Nat.sub_diag, skipn_O.
Qed.

Lemma countClass_increments occs : forall m,
  List.Forall (fun o => o_shape o = ClassDeclaration) occs ->
  forallb singleSpaced occs = true ->
  fold_left Extract.countClass (map matched occs) m =
  fold_left increment (each 10 (map lowerName occs)) m.
Proof.
  induction occs as [|o occs IH]; intros m Hs Hg; simpl; [reflexivity|].
  inversion Hs; subst. simpl in Hg. apply andb_true_iff in Hg as [Ho Hg].
  rewrite IH by assumption. f_equal.
  unfold Extract.countClass, increment. simpl.
  change (list_ascii_of_string "") with (@nil ascii).
  now rewrite className_single_space.
Qed.

Lemma functionName_plain o :
  well_formed o -> o_shape o <> ClassDeclaration -> plainCall o = true ->
  Re.replaceAll false Extract.re_strip [] (matched o) = o_name o \/
  (Re.replaceAll false Extract.re_strip [] (matched o) = [] /\
   o_name o = ("function" : text)).
Proof.
  intros (Hg & Hn & Hne & Hgap) Hs Hp.
  unfold plainCall, matched in *.
  destruct (o_shape o) eqn:Sh; [contradiction| |].
  - left. destruct (o_gap o) as [|g gap] eqn:G;
      [now elim Hgap|].
    simpl in Hg. apply andb_true_iff in Hg as [Hg1 Hg2].
    now apply strip_declaration.
  - apply orb_true_iff in Hp as [Hp|Hp];
      [apply orb_true_iff in Hp as [Hp|Hp]|].
    + left. apply str_eqb_eq in Hp. apply strip_call; auto.
    + left. apply negb_true_iff in Hp. apply strip_call; auto.
    + apply str_eqb_eq in Hp. rewrite Hp.
      destruct (o_gap o) as [|g gap] eqn:G.
      * left. rewrite <- Hp. apply strip_call; auto.
      * right. split; [|reflexivity].
        simpl in Hg. apply andb_true_iff in Hg as [Hg1 Hg2].
        now apply strip_anonymous.
Qed.

Lemma countFunction_increments occs : forall m,
  List.Forall (fun o => well_formed o /\ o_shape o <> ClassDeclaration)
    occs ->
  forallb plainCall occs = true ->
  fold_left Extract.countFunction (map matched occs) m =
  fold_left increment
    (each 5 (List.filter significant (map lowerName occs))) m.
Proof.
  induction occs as [|o occs IH]; intros m Hs Hp; simpl; [reflexivity|].
  inversion Hs as [|? ? [Hw Hsh] Hs']; subst.
  simpl in Hp. apply andb_true_iff in Hp as [Ho Hp].
  assert (E : Extract.countFunction m (matched o)
              = if significant (lowerName o)
                then increment m (lowerName o, 5%Z) else m).
  { unfold Extract.countFunction.
    change (list_ascii_of_string "") with (@nil ascii).
    destruct (functionName_plain o Hw Hsh Ho) as [-> | [-> Hn]].
    - fold (lowerName o). unfold significant.
      replace ((2 <? length (lowerName o))
               && negb (Extract.isCommonKeyword (lowerName o)))
        with (negb ((length (lowerName o) <=? 2)
                    || Extract.isCommonKeyword (lowerName o))).
      + destruct (negb _); reflexivity.
      + rewrite negb_orb. f_equal. rewrite Nat.leb_antisym.
        now rewrite negb_involutive.
    - unfold lowerName. rewrite Hn. reflexivity. }
  rewrite IH, E by assumption.
  destruct (significant (lowerName o)); reflexivity.
Qed.

End Weights.

(** X23. The map of [extractKeywords] on a text in which [class] and the
    class name are a single space apart, and in which no call [<name> (]
    has a name, other than [function], that ends in [function].  It holds
    for every term the weight of a reference definition in which step 1
    keeps letters, digits, the underscore and whitespace: one per token
    that survives step 2, ten per [class <Name>] of that lower-cased name,
    five per [function <name>] or [<name>(] (whitespace allowed before the
    parenthesis) of that lower-cased name when it passes the filter of
    step 2; a term is absent exactly when this weight is zero. *)
Theorem extraction_weights (code : text) :
  SpecExtract.regular code ->
  forall t,
    JSMap.get t (Extract.extractKeywords code)
    = SpecExtract.entry (SpecExtract.weight SpecExtract.wordOrSpace code t).
Proof.
  intros [Hc Hf] t. unfold Extract.extractKeywords.
  unfold Re.matchAll.
  rewrite (matchAll_scan _ _ classAt_recognises eq_refl).
  rewrite (matchAll_scan _ _ functionAt_recognises eq_refl).
  fold (SpecExtract.classes code) (SpecExtract.functions code).
  rewrite countWord_increments.
  rewrite countClass_increments;
    [| apply scan_Forall; intros s o len E;
       now apply classAt_well_formed in E
     | exact Hc].
  rewrite countFunction_increments;
    [| apply scan_Forall; intros s o len E;
       now apply functionAt_well_formed in E
     | exact Hf].
  rewrite <- !fold_left_app.
  rewrite positive_entry.
  - rewrite get_increments. simpl (default _ _).
    rewrite !total_app, !total_each, normalizedCode_normalize.
    unfold SpecExtract.weight, SpecExtract.tokens. f_equal. lia.
  - apply increments_positive; [|intros ? ? [=]].
    repeat (apply Forall_app; split); now apply each_positive.
Qed.

Lemma extraction_weights_witness :
  SpecExtract.regular Snippet.service /\
  JSMap.get "userservice" (Extract.extractKeywords Snippet.service)
  = SpecExtract.entry
      (SpecExtract.weight SpecExtract.wordOrSpace Snippet.service
         "userservice") /\
  JSMap.get "return" (Extract.extractKeywords Snippet.service)
  = SpecExtract.entry
      (SpecExtract.weight SpecExtract.wordOrSpace Snippet.service "return").
Proof.
  assert (R : SpecExtract.regular Snippet.service)
    by (split; vm_compute; reflexivity).
  split; [exact R|].
  split; apply (extraction_weights Snippet.service R).
Defined.

Example service_keywords :
  Extract.extractKeywords Snippet.service
  = [ ("userservice" : text, 11%Z); ("getuser" : text, 6%Z);
      ("find_user" : text, 6%Z) ].
Proof. vm_compute. reflexivity. Qed.

(** C3 fails on the code.  Step 1 of the code replaces what is not in
    [\w] or [\s], and so keeps the underscore, against its own comment
    (non-alphanumeric characters are replaced) and against the reference:
    [foo_bar] gives the one term [foo_bar], where the reference has [foo]
    and [bar].  Step 4 removes the text [class ] with one space from a
    match of [class\s+(\w+)]: [class  Foo] adds its ten to the key [ foo],
    with a space in front, where the reference adds them to [foo].  And
    the name of a call loses a final [function] when whitespace precedes
    the parenthesis: [prefunction (x)] adds its five to [pre], where the
    reference adds them to [prefunction]. *)
Theorem extraction_departs_from_the_reference :
  (JSMap.get "foo_bar" (Extract.extractKeywords "foo_bar") = Some 1%Z /\
   JSMap.get "foo" (Extract.extractKeywords "foo_bar") = None /\
   SpecExtract.entry
     (SpecExtract.weight SpecExtract.letterDigitSpace "foo_bar" "foo_bar")
   = None /\
   SpecExtract.entry
     (SpecExtract.weight SpecExtract.letterDigitSpace "foo_bar" "foo")
   = Some 1%Z) /\
  (JSMap.get " foo" (Extract.extractKeywords "class  Foo") = Some 10%Z /\
   JSMap.get "foo" (Extract.extractKeywords "class  Foo") = Some 1%Z /\
   SpecExtract.entry
     (SpecExtract.weight SpecExtract.letterDigitSpace "class  Foo" " foo")
   = None /\
   SpecExtract.entry
     (SpecExtract.weight SpecExtract.letterDigitSpace "class  Foo" "foo")
   = Some 11%Z) /\
  (JSMap.get "pre" (Extract.extractKeywords "prefunction (x)") = Some 5%Z /\
   JSMap.get "prefunction" (Extract.extractKeywords "prefunction (x)")
   = Some 1%Z /\
   SpecExtract.entry
     (SpecExtract.weight SpecExtract.letterDigitSpace "prefunction (x)"
        "pre")
   = None /\
   SpecExtract.entry
     (SpecExtract.weight SpecExtract.letterDigitSpace "prefunction (x)"
        "prefunction")
   = Some 6%Z).
Proof. repeat split; vm_compute; reflexivity. Qed.

(** The maps of two such texts: the class name is not the key when more
    than a space follows [class], and the name of a call loses a final
    [function] when whitespace precedes the parenthesis. *)
Example class_two_spaces :
  Extract.extractKeywords "class  Foo"
  = [ ("foo" : text, 1%Z); (" foo" : text, 10%Z) ].
Proof. vm_compute. reflexivity. Qed.

Example call_ending_in_function :
  Extract.extractKeywords "pre_function (x)"
  = [ ("pre_function" : text, 1%Z); ("pre_" : text, 5%Z) ].
Proof. vm_compute. reflexivity. Qed.

(* ===================================================================== *)
(** *** Query tokens *)
(* ===================================================================== *)

Section QueryTokens.

Import SpecQuery.

Lemma splitFrom_skip ic r : forall (s : text) cur n,
  n <= length s ->
  Re.splitFrom ic r cur n s = Re.splitFrom ic r cur 0 (skipn n s).
Proof.
  induction s as [|c s IH]; intros cur n Hn.
  - destruct n; [reflexivity | simpl in Hn; lia].
  - destruct n as [|n]; [reflexivity|].
    simpl. apply IH. simpl in Hn. lia.
Qed.

Lemma pieces_leading (P : text -> bool) (s : text) :
  P [] = false ->
  List.filter P (pieces [] (Str.dropWhile Char.isSpace s))
  = List.filter P (pieces [] s).
Proof.
  intros HP. induction s as [|c s IH]; simpl; [reflexivity|].
  destruct (Char.isSpace c) eqn:Sp; simpl.
  - now rewrite HP.
  - now rewrite Sp.
Qed.

Lemma split_pieces (P : text -> bool) :
  P [] = false ->
  forall n (s cur : text), length s <= n ->
    List.filter P (Re.splitFrom false Extract.re_spaces cur 0 s)
    = List.filter P (pieces cur s).
Proof.
  intros HP. induction n as [|n IH]; intros s cur Hn.
  - destruct s; [reflexivity | simpl in Hn; lia].
  - destruct s as [|c s]; [reflexivity|].
    cbn [Re.splitFrom pieces]. rewrite exec_spaces. simpl in Hn.
    destruct (Char.isSpace c).
    + pose proof (length_dropWhile Char.isSpace s) as L.
      pose proof (length_takeWhile Char.isSpace s) as L'.
      rewrite splitFrom_skip by lia. rewrite skipn_takeWhile.
      cbn [List.filter]. rewrite IH by lia.
      now rewrite pieces_leading.
    + apply IH. lia.
Qed.

Lemma queryKeywords_queryTokens (query : text) :
  Engine.queryKeywords query = queryTokens query.
Proof.
  unfold Engine.queryKeywords, queryTokens, Re.split.
  destruct (Str.toLowerCase query) as [|c s] eqn:E; [reflexivity|].
  now apply (split_pieces _ eq_refl (length (c :: s))).
Qed.

End QueryTokens.

(** C4, as the code has it. [search] tokenizes the query by lower-casing
    it, splitting it on whitespace and dropping the tokens of length at
    most 2, and does nothing else to it; when no token remains, a search
    of a directory with a non-empty index returns the empty list, leaves
    the state, and does not fail. *)
Theorem query_without_tokens (w : World) (query directory : text)
    (s : State) :
  Engine.queryKeywords query = SpecQuery.queryTokens query /\
  (forall item metadata,
      directoryIndices s !! Engine.getNormalizedDirectory w directory
        = Some (item :: metadata) ->
      SpecQuery.queryTokens query = [] ->
      Engine.search w query directory s = (s, Returns [])) /\
  (forall s' item metadata,
      directoryIndices s !! Engine.getNormalizedDirectory w directory
        = None ->
      Engine.createIndex w directory
        (Some (Engine.implicitExtensions w s directory)) s
        = (s', Returns tt) ->
      directoryIndices s' !! Engine.getNormalizedDirectory w directory
        = Some (item :: metadata) ->
      SpecQuery.queryTokens query = [] ->
      Engine.search w query directory s = (s', Returns [])).
Proof.
  assert (E : forall s0 item metadata,
             directoryIndices s0 !! Engine.getNormalizedDirectory w directory
               = Some (item :: metadata) ->
             SpecQuery.queryTokens query = [] ->
             Engine.searchIndexed w s0 query directory = Returns []).
  { intros s0 item metadata L T.
    rewrite <- queryKeywords_queryTokens in T.
    unfold Engine.searchIndexed, Engine.keywordSearch,
      Engine.getMetadataForDirectory.
    rewrite L, T. reflexivity. }
  split; [apply queryKeywords_queryTokens|]. split.
  - intros item metadata L T. unfold Engine.search. rewrite L.
    f_equal. now apply (E s item metadata).
  - intros s' item metadata N C L T. unfold Engine.search.
    rewrite N, C. f_equal. now apply (E s' item metadata).
Qed.

(** C4, as stated, fails: the query is not tokenized as steps 1 and 2 of
    the extraction tokenize a text.  The word [class] is on the stoplist of
    step 2 and is a token of the query all the same; the search for it in a
    directory whose file mentions a subclass returns that file. *)
Lemma query_keeps_stoplist_words :
  SpecExtract.tokens SpecExtract.letterDigitSpace "class" = [] /\
  Engine.queryKeywords "class" = [ "class" : text ] /\
  exists r,
    Engine.search Stop.world "class" "/x" Stop.indexed
      = (Stop.indexed, Returns [r]) /\
    r_file r = ("/x/a.ts" : text) /\ rank r = 1.
Proof.
  split; [reflexivity|]. split; [reflexivity|].
  eexists. split; [vm_compute; reflexivity|]. split; reflexivity.
Qed.

(** Nor is punctuation replaced in a query, as step 1 replaces it. *)
Example query_keeps_punctuation :
  Engine.queryKeywords "user.name" = [ "user.name" : text ] /\
  SpecExtract.tokens SpecExtract.letterDigitSpace "user.name"
  = [ "user" : text; "name" : text ].
Proof. split; reflexivity. Qed.

Example short_query_returns_nothing :
  Engine.search Stop.world "an if of" "/x" Stop.indexed
  = (Stop.indexed, Returns []).
Proof. vm_compute. reflexivity. Qed.

(* ===================================================================== *)
(** *** The pre-built branch *)
(* ===================================================================== *)

Section Prebuilt.

Import SpecQuery.

Lemma partialMatch_fold keyword entries : forall score,
  fold_left (Engine.partialMatch keyword) entries score =
  fold_left Double.add
    (map (fun e => Double.mul (Double.ofZ (snd e)) Double.d0_005)
       (List.filter (fun e => properSubstring keyword (fst e)) entries))
    score.
Proof.
  induction entries as [|[k v] entries IH]; intros score; simpl;
    [reflexivity|].
  rewrite IH. unfold properSubstring at 2. simpl.
  now destruct (Str.includes keyword k && negb (Str.eqb k keyword)).
Qed.

Lemma prebuiltKeyword_formula terms score keyword :
  Engine.prebuiltKeyword terms score keyword =
  fold_left Double.add (contributions terms keyword) score.
Proof.
  unfold Engine.prebuiltKeyword, contributions, termWeight, JSMap.entries.
  now rewrite partialMatch_fold.
Qed.

Lemma prebuiltScore_fold terms tokens : forall score,
  fold_left (Engine.prebuiltKeyword terms) tokens score =
  fold_left Double.add (flat_map (contributions terms) tokens) score.
Proof.
  induction tokens as [|t tokens IH]; intros score; [reflexivity|].
  cbn [fold_left flat_map]. rewrite IH, prebuiltKeyword_formula.
  now rewrite fold_left_app.
Qed.

(** The loops of the pre-built branch compute the sum of the
    specification, term by term in the same order. *)
Lemma prebuiltScore_formula tokens terms :
  Engine.prebuiltScore tokens terms = prebuilt tokens terms.
Proof. apply prebuiltScore_fold. Qed.

Lemma hasKeywordIndices_spec metadata :
  Engine.hasKeywordIndices metadata = true <->
  exists item, In item metadata /\ keywords item <> [].
Proof.
  unfold Engine.hasKeywordIndices. rewrite existsb_exists.
  split; intros (item & Hin & H); exists item; split; auto.
  - destruct (keywords item); [discriminate | discriminate].
  - destruct (keywords item); [contradiction | reflexivity].
Qed.

Lemma record_get scores item score f :
  JSMap.get f (Engine.record scores item score) =
  if Engine.positive score && Str.eqb f (file item)
  then Some score else JSMap.get f scores.
Proof.
  unfold Engine.record. destruct (Engine.positive score); simpl;
    [apply get_set | reflexivity].
Qed.

(** The score map of a loop over the index: an entry is the score of a
    record of that file, and every record of positive score has one. *)
Lemma recorded_scores (score : CodeMetadata -> Double.t) metadata :
  forall acc,
  let scores :=
    fold_left (fun scores item => Engine.record scores item (score item))
      metadata acc in
  (forall f sc,
      JSMap.get f scores = Some sc ->
      JSMap.get f acc = Some sc \/
      exists item, In item metadata /\ file item = f /\ sc = score item
                   /\ Engine.positive sc = true) /\
  (forall f, is_Some (JSMap.get f acc) -> is_Some (JSMap.get f scores)) /\
  (forall item, In item metadata -> Engine.positive (score item) = true ->
                is_Some (JSMap.get (file item) scores)).
Proof.
  induction metadata as [|item md IH]; intros acc; simpl.
  - repeat split; auto. intros item [].
  - specialize (IH (Engine.record acc item (score item))).
    simpl in IH. destruct IH as (IH1 & IH2 & IH3).
    repeat split.
    + intros f sc G. destruct (IH1 f sc G) as [G'|(i & Hi & Hf & Hs & Hp)].
      * rewrite record_get in G'.
        destruct (Engine.positive (score item)) eqn:P; simpl in G';
          [|now left].
        destruct (Str.eqb f (file item)) eqn:E; [|now left].
        injection G' as <-. apply str_eqb_eq in E.
        right. exists item. auto.
      * right. exists i. auto.
    + intros f I. apply IH2. rewrite record_get.
      destruct (_ && _); [eauto | exact I].
    + intros i [<-|Hi] Hp; [|now apply IH3].
      apply IH2. rewrite record_get.
      rewrite Hp, str_eqb_refl. simpl. eauto.
Qed.

Lemma set_keys_In {V} (k : text) (v : V) (m : JSMap.t V) x :
  In x (JSMap.keys (JSMap.set k v m)) -> x = k \/ In x (JSMap.keys m).
Proof.
  unfold JSMap.keys. induction m as [|[k' v'] m IH]; simpl.
  - intros [<-|[]]. now left.
  - destruct (Str.eqb k k'); simpl; [tauto|].
    intros [<-|H]; [tauto|]. destruct (IH H); tauto.
Qed.

Lemma set_keys_NoDup {V} (k : text) (v : V) (m : JSMap.t V) :
  List.NoDup (JSMap.keys m) -> List.NoDup (JSMap.keys (JSMap.set k v m)).
Proof.
  pose proof (set_keys_In k v) as K. unfold JSMap.keys in *.
  induction m as [|[k' v'] m IH]; simpl; intros N.
  - repeat constructor. intros [].
  - inversion N as [|? ? Hk' N']; subst.
    destruct (Str.eqb k k') eqn:E; simpl; [now constructor|].
    constructor; [|now apply IH].
    intros H. apply K in H as [->|H]; [|contradiction].
    rewrite str_eqb_refl in E. discriminate.
Qed.

(** The terms of an extracted map are distinct. *)
Lemma extractKeywords_distinct code :
  List.NoDup (JSMap.keys (Extract.extractKeywords code)).
Proof.
  unfold Extract.extractKeywords.
  assert (F : forall (A : Type) (f : JSMap.t Z -> A -> JSMap.t Z) l,
             (forall m a, List.NoDup (JSMap.keys m) ->
                          List.NoDup (JSMap.keys (f m a)))
             -> forall m, List.NoDup (JSMap.keys m) ->
                          List.NoDup (JSMap.keys (fold_left f l m))).
  { intros A f l Hf. induction l as [|a l IH]; intros m Hm; simpl; auto. }
  apply F.
  { intros m a Hm. unfold Extract.countFunction.
    destruct (_ && _); [now apply set_keys_NoDup | exact Hm]. }
  apply F.
  { intros m a Hm. now apply set_keys_NoDup. }
  apply F.
  { intros m a Hm. unfold Extract.countWord.
    destruct (_ || _); [exact Hm | now apply set_keys_NoDup]. }
  constructor.
Qed.

End Prebuilt.

(** C1. With at least one query token, the pre-built branch is taken
    exactly when some record of the directory has a non-empty term map, and
    then for every record: the score of a file in the score map is, for a
    record of that file, the sum over the query tokens of the weight of the
    token times 0.01 plus the weight times 0.005 of every indexed term of
    which the token is a proper substring, and is positive; every record
    for which this sum is positive has its file in the map.  The sum is
    the one of doubles, its terms added in the order of the tokens and, for
    each token, of the map.  The terms of an extracted map are distinct.
    For the query [email], a file whose only indexed term is
    [emailnotifier] has a positive score. *)
Theorem prebuilt_mode (tokens : list text) (metadata : list CodeMetadata) :
  tokens <> [] ->
  (Engine.hasKeywordIndices metadata = true <->
   exists item, In item metadata /\ keywords item <> []) /\
  (Engine.hasKeywordIndices metadata = true ->
   exists scores,
     Engine.keywordSearchOn tokens metadata = Returns scores /\
     (forall f sc,
         JSMap.get f scores = Some sc ->
         exists item,
           In item metadata /\ file item = f /\
           sc = SpecQuery.prebuilt tokens (keywords item) /\
           Double.ltb Double.zero sc = true) /\
     (forall item,
         In item metadata ->
         Double.ltb Double.zero
           (SpecQuery.prebuilt tokens (keywords item)) = true ->
         is_Some (JSMap.get (file item) scores))) /\
  (forall code, List.NoDup (JSMap.keys (Extract.extractKeywords code))) /\
  (forall wgt,
      (0 < wgt)%Z ->
      Double.ltb Double.zero
        (Engine.prebuiltScore (Engine.queryKeywords "email")
           [("emailnotifier" : text, wgt)]) = true /\
      Double.lt Double.zero
        (Engine.prebuiltScore (Engine.queryKeywords "email")
           [("emailnotifier" : text, wgt)])) /\
  Extract.extractKeywords "emailnotifier" = [("emailnotifier" : text, 1%Z)].
Proof.
  intros Hne.
  split; [apply hasKeywordIndices_spec|].
  split; [|split; [apply extractKeywords_distinct|split; [|reflexivity]]].
  - intros Hmode. unfold Engine.keywordSearchOn.
    destruct tokens as [|t ts]; [contradiction|]. rewrite Hmode.
    eexists. split; [reflexivity|].
    pose proof (recorded_scores
                  (fun item =>
                     Engine.prebuiltScore (t :: ts) (keywords item))
                  metadata JSMap.empty) as (R1 & _ & R3).
    split.
    + intros f sc G. destruct (R1 f sc G) as [G'|(item & Hi & Hf & Hs & Hp)];
        [discriminate|].
      exists item. repeat split; auto.
      rewrite Hs. apply prebuiltScore_formula.
    + intros item Hi Hp. apply R3; [exact Hi|].
      change (Engine.positive
                (Engine.prebuiltScore (t :: ts) (keywords item)) = true).
      now rewrite prebuiltScore_formula.
  - intros wgt Hw. rewrite prebuiltScore_formula.
    change (Engine.queryKeywords "email") with [ "email" : text ].
    assert (E : SpecQuery.prebuilt [ "email" : text ]
                  [("emailnotifier" : text, wgt)]
                = Double.sum
                    [ Double.zero;
                      Double.mul (Double.ofZ wgt) Double.d0_005 ])
      by reflexivity.
    rewrite E.
    assert (P : Double.signed false Double.emin
                  (Double.mul (Double.ofZ wgt) Double.d0_005)).
    { apply (weighted_positive _ _ _ d0_005_signed); [|exact Hw].
      unfold Double.emin. lia. }
    assert (S : Double.signed false Double.emin
                  (Double.sum
                     [ Double.zero;
                       Double.mul (Double.ofZ wgt) Double.d0_005 ])).
    { apply sum_amount.
      - constructor; [now left|]. constructor; [now right | constructor].
      - right. now left. }
    split; [|now apply signed_lt_zero].
    apply ltb_zero_regular; [now apply (signed_regular false) | exact S].
Qed.

Lemma prebuilt_mode_witness :
  (Engine.hasKeywordIndices [notifier] = true <->
   exists item, In item [notifier] /\ keywords item <> []) /\
  (Engine.hasKeywordIndices [notifier] = true ->
   exists scores,
     Engine.keywordSearchOn [ "email" : text ] [notifier] = Returns scores /\
     (forall f sc,
         JSMap.get f scores = Some sc ->
         exists item,
           In item [notifier] /\ file item = f /\
           sc = SpecQuery.prebuilt [ "email" : text ] (keywords item) /\
           Double.ltb Double.zero sc = true) /\
     (forall item,
         In item [notifier] ->
         Double.ltb Double.zero
           (SpecQuery.prebuilt [ "email" : text ] (keywords item)) = true ->
         is_Some (JSMap.get (file item) scores))) /\
  (forall code, List.NoDup (JSMap.keys (Extract.extractKeywords code))) /\
  (forall wgt,
      (0 < wgt)%Z ->
      Double.ltb Double.zero
        (Engine.prebuiltScore (Engine.queryKeywords "email")
           [("emailnotifier" : text, wgt)]) = true /\
      Double.lt Double.zero
        (Engine.prebuiltScore (Engine.queryKeywords "email")
           [("emailnotifier" : text, wgt)])) /\
  Extract.extractKeywords "emailnotifier" = [("emailnotifier" : text, 1%Z)].
Proof.
  apply (prebuilt_mode [ "email" : text ] [notifier]). discriminate.
Defined.

(** The file of the single word, found by its prefix, with the score
    0.005. *)
Example notifier_found_by_prefix :
  exists a b,
    snd (Engine.search Ties.world "email" "/x" initial) = Returns [a; b] /\
    similarityScore a = Double.d0_005 /\ similarityScore b = Double.d0_005.
Proof.
  eexists. eexists. split; [vm_compute; reflexivity|].
  split; reflexivity.
Qed.

(** The sum of the pre-built branch on the terms of the sample file: the
    double 0.11499999999999999. *)
Example prebuilt_sum_is_rounded :
  SpecQuery.prebuilt [ "email" : text; "send" : text ]
    [ ("emailnotifier" : text, 11%Z); ("send" : text, 6%Z) ]
  = S754_finite false 8286623314361712 (-56).
Proof. vm_compute. reflexivity. Qed.

(* ===================================================================== *)
(** *** Directory keys *)
(* ===================================================================== *)

Section Keys.

Import SpecPath.

Lemma split_nonempty sep (s : text) : Str.split sep s <> [].
Proof.
  destruct (split_parts sep s) as (w & ws & -> & _). discriminate.
Qed.

Lemma split_app_sep sep (a b : text) :
  Str.split sep (a ++ sep :: b) = Str.split sep a ++ Str.split sep b.
Proof.
  induction a as [|c a IH]; simpl.
  - now rewrite Ascii.eqb_refl.
  - rewrite IH. destruct (Ascii.eqb c sep); [reflexivity|].
    pose proof (split_nonempty sep a) as N.
    destruct (Str.split sep a); [contradiction | reflexivity].
Qed.

Lemma split_plain sep (s : text) : ~ In sep s -> Str.split sep s = [s].
Proof.
  induction s as [|c s IH]; simpl; intros H; [reflexivity|].
  destruct (Ascii.eqb c sep) eqn:E.
  - apply Ascii.eqb_eq in E. subst c. exfalso. apply H. now left.
  - rewrite IH; [reflexivity|]. intros Hin. apply H. now right.
Qed.

Lemma split_no_sep sep (s piece : text) :
  In piece (Str.split sep s) -> ~ In sep piece.
Proof.
  revert piece. induction s as [|c s IH]; simpl; intros piece.
  - intros [<-|[]] [].
  - destruct (Ascii.eqb c sep) eqn:E.
    + intros [<-|H]; [intros [] | now apply IH].
    + pose proof (split_nonempty sep s) as N.
      destruct (Str.split sep s) as [|w ws]; [contradiction|].
      intros [<-|H].
      * intros [->|Hin]; [now rewrite Ascii.eqb_refl in E|].
        apply (IH w); [now left | exact Hin].
      * apply IH. now right.
Qed.

Lemma split_join (names : list text) :
  names <> [] -> List.Forall isName names ->
  Str.split Path.sep (Str.join "/" names) = names.
Proof.
  induction names as [|n names IH]; intros Hne Hn; [contradiction|].
  inversion Hn as [|? ? (_ & _ & _ & Hs) Hn']; subst.
  destruct names as [|n' names'].
  - simpl. now apply split_plain.
  - change (Str.join "/" (n :: n' :: names'))
      with (n ++ Path.sep :: Str.join "/" (n' :: names')).
    rewrite split_app_sep, split_plain by exact Hs.
    rewrite IH; [reflexivity | discriminate | exact Hn'].
Qed.

Lemma enter_pushSegment dir component :
  Path.pushSegment dir component = enter dir component.
Proof.
  unfold Path.pushSegment, enter.
  destruct (Str.eqb component []); [reflexivity|].
  destruct (Str.eqb component "."); reflexivity.
Qed.

Lemma normalizeSegments_enter segs :
  Path.normalizeSegments segs = fold_left enter segs [].
Proof.
  unfold Path.normalizeSegments. generalize (@nil text).
  induction segs as [|seg segs IH]; intros acc; simpl; [reflexivity|].
  now rewrite enter_pushSegment, IH.
Qed.

Lemma enter_names dir component :
  ~ In Path.sep component ->
  List.Forall isName dir -> List.Forall isName (enter dir component).
Proof.
  intros Hc Hd. unfold enter.
  destruct (Str.eqb component []) eqn:E1; [exact Hd|].
  destruct (Str.eqb component ".") eqn:E2; [exact Hd|].
  destruct (Str.eqb component "..") eqn:E3.
  - clear - Hd. induction Hd as [|x l Hx Hl IH]; simpl; [constructor|].
    destruct l; [constructor | constructor; assumption].
  - apply Forall_app. split; [exact Hd|]. constructor; [|constructor].
    apply str_eqb_neq in E1, E2, E3. unfold isName. auto.
Qed.

Lemma fold_enter_names (s : text) : forall dir,
  List.Forall isName dir ->
  List.Forall isName (fold_left enter (components s) dir).
Proof.
  unfold components.
  assert (G : forall segs dir,
             (forall seg, In seg segs -> ~ In Path.sep seg) ->
             List.Forall isName dir ->
             List.Forall isName (fold_left enter segs dir)).
  { induction segs as [|seg segs IH]; intros dir Hs Hd; simpl; [exact Hd|].
    apply IH; [intros; apply Hs; now right|].
    apply enter_names; [apply Hs; now left | exact Hd]. }
  intros dir. apply G. intros seg. apply split_no_sep.
Qed.

Lemma directoryOf_names cwd spelling :
  List.Forall isName (directoryOf cwd spelling).
Proof.
  unfold directoryOf. apply fold_enter_names.
  destruct (isAbsolute spelling); [constructor|].
  apply fold_enter_names. constructor.
Qed.

Lemma fold_enter_trailing segs dir :
  fold_left enter (segs ++ [[]]) dir = fold_left enter segs dir.
Proof. now rewrite fold_left_app. Qed.

(** [path.resolve] names the directory of the spelling. *)
Lemma resolve_directoryOf tail directory :
  Path.resolve (Path.sep :: tail) directory
  = Path.sep :: Str.join "/" (directoryOf (Path.sep :: tail) directory).
Proof.
  unfold Path.resolve, directoryOf, components. f_equal. f_equal.
  rewrite normalizeSegments_enter.
  destruct directory as [|c d].
  - change ((Path.sep :: tail) ++ "/")
      with ((Path.sep :: tail) ++ Path.sep :: []).
    rewrite split_app_sep. simpl (Str.split Path.sep []).
    now rewrite fold_enter_trailing.
  - assert (A : isAbsolute (c :: d) = Ascii.eqb c Path.sep)
      by apply Ascii.eqb_sym.
    rewrite A. destruct (Ascii.eqb c Path.sep) eqn:E.
    + change ((c :: d) ++ "/") with ((c :: d) ++ Path.sep :: []).
      rewrite split_app_sep. simpl (Str.split Path.sep []).
      now rewrite fold_enter_trailing.
    + change ((Path.sep :: tail) ++ "/" ++ (c :: d) ++ "/")
        with ((Path.sep :: tail) ++ Path.sep :: ((c :: d) ++ Path.sep :: [])).
      rewrite !split_app_sep. simpl (Str.split Path.sep []).
      now rewrite app_assoc, fold_enter_trailing, fold_left_app.
Qed.

Lemma join_last (names : list text) n :
  List.Forall isName (names ++ [n]) ->
  exists pre c, Str.join "/" (names ++ [n]) = pre ++ [c] /\ c <> Path.sep.
Proof.
  intros H. apply Forall_app in H as [_ Hn].
  inversion Hn as [|? ? (Hne & _ & _ & Hs) _]; subst.
  assert (L : exists pre c, n = pre ++ [c]).
  { destruct (exists_last Hne) as (pre & c & ->). eauto. }
  destruct L as (pre & c & ->).
  assert (Hc : c <> Path.sep).
  { intros ->. apply Hs. apply in_or_app. right. now left. }
  clear Hn Hne Hs.
  induction names as [|m names IH].
  - exists pre, c. auto.
  - destruct IH as (pre' & c' & E & Hc').
    destruct (names ++ [pre ++ [c]]) as [|x xs] eqn:X.
    + destruct names; discriminate.
    + exists (m ++ "/" ++ pre'), c'. split; [|exact Hc'].
      change (Str.join "/" ((m :: names) ++ [pre ++ [c]]))
        with (Str.join "/" (m :: (names ++ [pre ++ [c]]))).
      rewrite X. change (Str.join "/" (m :: x :: xs))
        with (m ++ "/" ++ Str.join "/" (x :: xs)).
      rewrite E. now rewrite <- !app_assoc.
Qed.

Lemma endsWith_last (pre : text) c d :
  Str.endsWith [d] (pre ++ [c]) = Ascii.eqb d c.
Proof.
  unfold Str.endsWith. rewrite rev_app_distr. simpl.
  now rewrite andb_true_r.
Qed.

Lemma getNormalizedDirectory_keyOf w directory :
  Engine.getNormalizedDirectory w directory
  = keyOf (directoryOf (cwd w) directory).
Proof.
  unfold Engine.getNormalizedDirectory, cwd.
  rewrite resolve_directoryOf.
  pose proof (directoryOf_names (Path.sep :: cwd_tail w) directory) as N.
  destruct (directoryOf (Path.sep :: cwd_tail w) directory) as [|n names];
    [reflexivity|].
  destruct (@exists_last _ (n :: names)) as (names' & n' & E);
    [discriminate|].
  unfold keyOf. rewrite E in *.
  destruct (join_last names' n' N) as (pre & c & -> & Hc).
  change (Path.sep :: pre ++ [c]) with ((Path.sep :: pre) ++ [c]).
  change (list_ascii_of_string "/") with [Path.sep].
  rewrite endsWith_last.
  destruct (Ascii.eqb Path.sep c) eqn:Ec.
  - apply Ascii.eqb_eq in Ec. congruence.
  - destruct (names' ++ [n']) eqn:X; [destruct names'; discriminate|].
    reflexivity.
Qed.

Lemma fold_enter_names_id (names : list text) : forall dir,
  List.Forall isName names -> fold_left enter names dir = dir ++ names.
Proof.
  induction names as [|n names IH]; intros dir H; simpl.
  - now rewrite app_nil_r.
  - inversion H as [|? ? (H1 & H2 & H3 & _) H']; subst.
    rewrite IH by exact H'. unfold enter.
    apply str_eqb_neq in H1, H2, H3. rewrite H1, H2, H3.
    now rewrite <- app_assoc.
Qed.

(** The key of a directory names that directory. *)
Lemma directoryOf_keyOf cwd (names : list text) :
  List.Forall isName names -> directoryOf cwd (keyOf names) = names.
Proof.
  intros H. unfold directoryOf, components.
  destruct names as [|n names]; [reflexivity|].
  unfold keyOf.
  change (isAbsolute (Path.sep :: Str.join "/" (n :: names) ++ "/"))
    with true. cbv iota.
  change (Path.sep :: Str.join "/" (n :: names) ++ "/")
    with ([] ++ Path.sep :: (Str.join "/" (n :: names) ++ Path.sep :: [])).
  rewrite !split_app_sep, split_join by (discriminate || exact H).
  simpl (Str.split Path.sep []).
  rewrite !fold_left_app. cbn [fold_left].
  change (enter [] []) with (@nil text).
  change (fold_left enter names (enter [] n))
    with (fold_left enter (n :: names) []).
  now rewrite fold_enter_names_id.
Qed.

End Keys.

(** X24. The key of a directory is a fixed point of the normalization;
    two spellings, relative or absolute, have the same key exactly when
    they name the same directory (paths being followed component by
    component, as [path.resolve] follows them: links of the file system
    are not looked at); and from a state with an index under that key the
    search under either spelling builds nothing, leaves the state, and
    ends as the search over that index ends. *)
Theorem directory_key (w : World) (d1 d2 : text) :
  Engine.getNormalizedDirectory w (Engine.getNormalizedDirectory w d1)
  = Engine.getNormalizedDirectory w d1 /\
  (SpecPath.directoryOf (cwd w) d1 = SpecPath.directoryOf (cwd w) d2 <->
   Engine.getNormalizedDirectory w d1 = Engine.getNormalizedDirectory w d2) /\
  (SpecPath.directoryOf (cwd w) d1 = SpecPath.directoryOf (cwd w) d2 ->
   forall query s,
     is_Some (directoryIndices s !! Engine.getNormalizedDirectory w d1) ->
     Engine.search w query d1 s
     = (s, Engine.searchIndexed w s query d1) /\
     Engine.search w query d2 s = Engine.search w query d1 s /\
     Engine.getRelevantFiles w query d2 s
     = Engine.getRelevantFiles w query d1 s).
Proof.
  assert (K : SpecPath.directoryOf (cwd w) d1
              = SpecPath.directoryOf (cwd w) d2 ->
              Engine.getNormalizedDirectory w d1
              = Engine.getNormalizedDirectory w d2)
    by (intros D; rewrite !getNormalizedDirectory_keyOf; now rewrite D).
  split; [|split; [split; [exact K|]|]].
  - rewrite !getNormalizedDirectory_keyOf.
    rewrite directoryOf_keyOf; [reflexivity | apply directoryOf_names].
  - rewrite !getNormalizedDirectory_keyOf. intros E.
    rewrite <- (directoryOf_keyOf (cwd w)
                  (SpecPath.directoryOf (cwd w) d1))
      by apply directoryOf_names.
    rewrite E. apply directoryOf_keyOf, directoryOf_names.
  - intros D query s I. specialize (K D).
    assert (S1 : Engine.search w query d1 s
                 = (s, Engine.searchIndexed w s query d1)).
    { unfold Engine.search. now destruct I as [md ->]. }
    assert (S2 : Engine.search w query d2 s = Engine.search w query d1 s).
    { rewrite S1. unfold Engine.search. rewrite <- K.
      destruct I as [md ->].
      now rewrite (searchIndexed_key w w s query d1 d2 K). }
    split; [exact S1|]. split; [exact S2|].
    unfold Engine.getRelevantFiles. now rewrite S2.
Qed.

(** Other spellings of the directory of the sample project. *)
Example spellings_of_a_directory :
  Engine.getNormalizedDirectory Sample.world "./src"
    = ("/home/proj/src/" : text) /\
  Engine.getNormalizedDirectory Sample.world "/home/proj/src"
    = ("/home/proj/src/" : text) /\
  Engine.getNormalizedDirectory Sample.world "src/../src//lib/.."
    = ("/home/proj/src/" : text).
Proof. repeat split; vm_compute; reflexivity. Qed.

(* ===================================================================== *)
(** *** The fall-back branch *)
(* ===================================================================== *)

Section Fallback.

Lemma parse_literal (token : text) :
  forallb (fun c => negb (Pattern.isSyntaxCharacter c)) token = true ->
  Pattern.parse token = Some (Re.Lit token).
Proof.
  induction token as [|c token IH]; simpl; [reflexivity|].
  intros H. apply andb_true_iff in H as [Hc H]. rewrite (IH H).
  apply negb_true_iff in Hc.
  destruct (Ascii.eqb c ".") eqn:E.
  - apply Ascii.eqb_eq in E. subst c. discriminate.
  - now rewrite Hc.
Qed.

Lemma compile_literal (token : text) :
  forallb (fun c => negb (Pattern.isSyntaxCharacter c)) token = true ->
  Pattern.compile token = Pattern.Compiled (Re.Lit token).
Proof. intros H. unfold Pattern.compile. now rewrite parse_literal. Qed.

Lemma exec_literal (token s : text) :
  Re.exec false (Re.Lit token) s =
  if Str.startsWith token s then Some (length token) else None.
Proof.
  unfold Re.exec. rewrite run_lit.
  destruct (Str.startsWith token s) eqn:P; [|reflexivity].
  apply startsWith_skipn in P. f_equal. rewrite P at 1.
  rewrite length_app. lia.
Qed.

(** On a token of plain characters the matches that are counted are its
    occurrences. *)
Lemma matches_of_literal (token : text) :
  token <> [] ->
  forall s n,
    length (Re.matchAllFrom false (Re.Lit token) n s)
    = SpecQuery.occurrencesFrom token n s.
Proof.
  intros Hne s. induction s as [|c s IH]; intros n; simpl.
  - rewrite exec_literal. destruct token; [contradiction|].
    now destruct n.
  - destruct n as [|n]; [|apply IH].
    rewrite exec_literal.
    destruct (Str.startsWith token (c :: s)); simpl; now rewrite IH.
Qed.

(** One turn of the fall-back loop on a token of plain characters: nothing
    when the token does not occur, else 0.01 per occurrence and each of the
    three flat boosts at most once. *)
Lemma fallbackKeyword_literal (code : text) (score : Double.t)
    (token : text) :
  token <> [] ->
  forallb (fun c => negb (Pattern.isSyntaxCharacter c)) token = true ->
  Engine.fallbackKeyword code (Returns score) token =
  Returns (match SpecQuery.occurrences token code with
           | O => score
           | S n =>
               Engine.boost
                 (Re.test true (Engine.re_commentMatch (Re.Lit token)) code)
                 Double.d0_1
                 (Engine.boost
                    (Re.test true (Engine.re_functionMatch (Re.Lit token))
                       code)
                    Double.d0_2
                    (Engine.boost
                       (Re.test true (Engine.re_classMatch (Re.Lit token))
                          code)
                       Double.d0_3
                       (Double.add score
                          (Double.mul (Double.ofZ (Z.of_nat (S n)))
                             Double.d0_01))))
           end).
Proof.
  intros Hne Hp. unfold Engine.fallbackKeyword, SpecQuery.occurrences.
  rewrite (compile_literal token Hp).
  rewrite <- (matches_of_literal token Hne code 0). unfold Re.matchAll.
  destruct (Re.matchAllFrom false (Re.Lit token) 0 code); reflexivity.
Qed.


End Fallback.

(** C2 fails on the code. In the fall-back branch the token is handed to
    [new RegExp] as it is: the file [a-b] does not contain the token [a.b],
    and the search for it counts one occurrence, the dot matching the
    hyphen, and returns the file with the score 0.01. *)
Theorem token_is_a_pattern :
  Engine.hasKeywordIndices
    (Engine.getMetadataForDirectory Dots.world Dots.indexed "/x") = false /\
  Engine.queryKeywords "a.b" = [ "a.b" : text ] /\
  SpecQuery.occurrences "a.b" (Str.toLowerCase "a-b") = 0 /\
  Str.includes "a.b" (Str.toLowerCase "a-b") = false /\
  exists r,
    Engine.search Dots.world "a.b" "/x" Dots.indexed
      = (Dots.indexed, Returns [r]) /\
    r_file r = ("/x/a.ts" : text) /\
    similarityScore r = Double.d0_01 /\
    rank r = 1.
Proof.
  repeat split; try reflexivity.
  eexists. split; [vm_compute; reflexivity|]. repeat split.
Qed.

(** A token in which a quantifier has nothing to repeat is no pattern: the
    search for it in the fall-back branch throws the [SyntaxError] of
    [new RegExp]. *)
Example invalid_token_throws :
  Engine.queryKeywords "c++" = [ "c++" : text ] /\
  Engine.search Dots.world "c++" "/x" Dots.indexed
  = (Dots.indexed, Throws SyntaxError).
Proof. split; vm_compute; reflexivity. Qed.

(** The literal reading of the same file: a token of plain characters that
    it does not contain finds nothing. *)
Example plain_token_not_found :
  Engine.search Dots.world "a_b" "/x" Dots.indexed
  = (Dots.indexed, Returns []).
Proof. vm_compute. reflexivity. Qed.

(* ===================================================================== *)
(** *** What a build writes *)
(* ===================================================================== *)

Section Builds.

(** A search reads the state at the key of its directory only. *)
Lemma searchIndexed_lookup w s1 s2 query directory :
  directoryIndices s1 !! Engine.getNormalizedDirectory w directory
  = directoryIndices s2 !! Engine.getNormalizedDirectory w directory ->
  Engine.searchIndexed w s1 query directory
  = Engine.searchIndexed w s2 query directory.
Proof.
  intros E.
  unfold Engine.searchIndexed, Engine.keywordSearch,
    Engine.getMetadataForDirectory.
  now rewrite E.
Qed.

Lemma search_lookup w s1 s2 query directory :
  directoryIndices s1 !! Engine.getNormalizedDirectory w directory
  = directoryIndices s2 !! Engine.getNormalizedDirectory w directory ->
  indexedExtensions s1 !! Engine.getNormalizedDirectory w directory
  = indexedExtensions s2 !! Engine.getNormalizedDirectory w directory ->
  snd (Engine.search w query directory s1)
  = snd (Engine.search w query directory s2).
Proof.
  intros E X. unfold Engine.search. rewrite E.
  destruct (directoryIndices s2 !! Engine.getNormalizedDirectory w directory)
    as [metadata|] eqn:L.
  - simpl. apply searchIndexed_lookup. now rewrite E, L.
  - assert (I : Engine.implicitExtensions w s1 directory
                = Engine.implicitExtensions w s2 directory).
    { unfold Engine.implicitExtensions. now rewrite X. }
    rewrite I.
    destruct (createIndex_cases w directory
                (Some (Engine.implicitExtensions w s2 directory)) s1)
      as [(files & D & ->) | [(e & D & ->) | [D ->]]];
      destruct (createIndex_cases w directory
                  (Some (Engine.implicitExtensions w s2 directory)) s2)
        as [(files' & D' & ->) | [(e' & D' & ->) | [D' ->]]];
      rewrite D in D'; try discriminate; simpl.
    + injection D' as <-. apply searchIndexed_lookup. simpl.
      now rewrite !lookup_insert_eq.
    + congruence.
    + reflexivity.
Qed.

Lemma createIndex_other w directory extensions s key :
  key <> Engine.getNormalizedDirectory w directory ->
  directoryIndices (fst (Engine.createIndex w directory extensions s)) !! key
  = directoryIndices s !! key /\
  indexedExtensions (fst (Engine.createIndex w directory extensions s))
    !! key
  = indexedExtensions s !! key.
Proof.
  intros N.
  destruct (createIndex_cases w directory extensions s)
    as [(files & _ & ->) | [(e & _ & ->) | [_ ->]]]; simpl; [|auto|auto].
  split; apply lookup_insert_ne; congruence.
Qed.

Lemma indexFile_consistent w files : forall metadata,
  List.Forall
    (fun item => keywords item = Extract.extractKeywords (code item))
    metadata ->
  List.Forall
    (fun item => keywords item = Extract.extractKeywords (code item))
    (fold_left (Engine.indexFile w) files metadata).
Proof.
  induction files as [|f files IH]; intros metadata H; simpl; [exact H|].
  apply IH. unfold Engine.indexFile.
  destruct (readFile w f) as [content|]; [|exact H].
  apply Forall_app. split; [exact H|].
  constructor; [reflexivity | constructor].
Qed.

Lemma reachable_consistent s : reachable s -> consistent s.
Proof.
  intros R. induction R as [| w directory extensions s IH]
    using reachable_createIndex_ind.
  - intros key metadata item L. cbn in L.
    rewrite lookup_empty in L. discriminate.
  - destruct (createIndex_cases w directory extensions s)
      as [(files & _ & ->) | [(e & _ & ->) | [_ ->]]]; simpl;
      [|exact IH|exact IH].
    intros key metadata item L Hin. simpl in L.
    destruct (decide (key = Engine.getNormalizedDirectory w directory))
      as [->|N].
    + rewrite lookup_insert_eq in L. injection L as <-.
      pose proof (indexFile_consistent w files [] (List.Forall_nil _)) as F.
      rewrite List.Forall_forall in F. now apply F.
    + rewrite lookup_insert_ne in L by congruence. now apply (IH key metadata).
Qed.

End Builds.

(** X1. A build writes under the key of its directory only: what the two
    maps hold under every other key stays as it was, and a search of a
    directory with another key gives the outcome it gave before the
    build. *)
Theorem build_touches_one_key (w : World) (directory : text)
    (extensions : option (list text)) (s : State) (w' : World)
    (query directory' : text) :
  Engine.getNormalizedDirectory w' directory'
  <> Engine.getNormalizedDirectory w directory ->
  let s1 := fst (Engine.createIndex w directory extensions s) in
  directoryIndices s1 !! Engine.getNormalizedDirectory w' directory'
  = directoryIndices s !! Engine.getNormalizedDirectory w' directory' /\
  indexedExtensions s1 !! Engine.getNormalizedDirectory w' directory'
  = indexedExtensions s !! Engine.getNormalizedDirectory w' directory' /\
  snd (Engine.search w' query directory' s1)
  = snd (Engine.search w' query directory' s).
Proof.
  intros N s1.
  destruct (createIndex_other w directory extensions s _ N) as [D X].
  split; [exact D|]. split; [exact X|].
  now apply search_lookup.
Qed.

Lemma build_touches_one_key_witness :
  Engine.getNormalizedDirectory Stop.world "/x"
  <> Engine.getNormalizedDirectory Sample.world "/home/proj/src" /\
  directoryIndices
    (fst (Engine.createIndex Sample.world "/home/proj/src" None
            Stop.indexed))
    !! Engine.getNormalizedDirectory Stop.world "/x"
  = directoryIndices Stop.indexed
      !! Engine.getNormalizedDirectory Stop.world "/x" /\
  snd (Engine.search Stop.world "subclass" "/x"
         (fst (Engine.createIndex Sample.world "/home/proj/src" None
                 Stop.indexed)))
  = snd (Engine.search Stop.world "subclass" "/x" Stop.indexed).
Proof.
  assert (N : Engine.getNormalizedDirectory Stop.world "/x"
              <> Engine.getNormalizedDirectory Sample.world
                   "/home/proj/src")
    by (vm_compute; discriminate).
  split; [exact N|].
  destruct (build_touches_one_key Sample.world "/home/proj/src" None
              Stop.indexed Stop.world "subclass" "/x" N) as (D & _ & R).
  split; [exact D | exact R].
Defined.

(** X2. A build replaces what the engine held for the directory: built
    again in the same world the engine is in the state, and the call has
    the outcome, of the first build; and a build that returns leaves the
    state it would have left without an earlier build under the same
    key. *)
Theorem rebuild_replaces (w : World) (directory : text)
    (extensions : option (list text)) (s : State) :
  Engine.createIndex w directory extensions
    (fst (Engine.createIndex w directory extensions s))
  = Engine.createIndex w directory extensions s /\
  forall w0 directory0 extensions0,
    Engine.getNormalizedDirectory w0 directory0
    = Engine.getNormalizedDirectory w directory ->
    snd (Engine.createIndex w directory extensions s) = Returns tt ->
    Engine.createIndex w directory extensions
      (fst (Engine.createIndex w0 directory0 extensions0 s))
    = Engine.createIndex w directory extensions s.
Proof.
  assert (G : forall w0 directory0 extensions0,
             Engine.getNormalizedDirectory w0 directory0
             = Engine.getNormalizedDirectory w directory ->
             snd (Engine.createIndex w directory extensions s) = Returns tt ->
             Engine.createIndex w directory extensions
               (fst (Engine.createIndex w0 directory0 extensions0 s))
             = Engine.createIndex w directory extensions s).
  { intros w0 directory0 extensions0 K.
    destruct (createIndex_cases w directory extensions s)
      as [(files & D & E) | [(e & D & E) | [D E]]]; rewrite E; simpl;
      [intros _ | discriminate | discriminate].
    destruct (createIndex_cases w directory extensions
                (fst (Engine.createIndex w0 directory0 extensions0 s)))
      as [(files' & D' & ->) | [(e' & D' & _) | [D' _]]];
      rewrite D in D'; [injection D' as <- | discriminate | discriminate].
    destruct (createIndex_cases w0 directory0 extensions0 s)
      as [(files0 & _ & ->) | [(e0 & _ & ->) | [_ ->]]]; simpl;
      [|reflexivity|reflexivity].
    rewrite K. now rewrite !insert_insert_eq. }
  split; [|exact G].
  destruct (createIndex_cases w directory extensions s)
    as [(files & D & E) | [(e & D & E) | [D E]]].
  - apply G; [reflexivity | now rewrite E].
  - rewrite E. simpl. exact E.
  - rewrite E. simpl. exact E.
Qed.

(** X3. In every state that calls can reach, each stored record holds the
    term map extracted from its own stored text; so the fall-back branch
    of the scoring is taken for a stored index exactly when no text in it
    yields a term. *)
Theorem index_holds_extracted_terms (s : State) :
  reachable s ->
  consistent s /\
  forall key metadata,
    directoryIndices s !! key = Some metadata ->
    (Engine.hasKeywordIndices metadata = false <->
     forall item, In item metadata ->
                  Extract.extractKeywords (code item) = []).
Proof.
  intros R. pose proof (reachable_consistent s R) as C.
  split; [exact C|]. intros key metadata L.
  pose proof (hasKeywordIndices_spec metadata) as H. split.
  - intros F item Hin.
    destruct (Extract.extractKeywords (code item)) as [|e l] eqn:E;
      [reflexivity|].
    assert (T : Engine.hasKeywordIndices metadata = true).
    { apply H. exists item. split; [exact Hin|].
      rewrite (C key metadata item L Hin), E. discriminate. }
    congruence.
  - intros A.
    destruct (Engine.hasKeywordIndices metadata) eqn:T; [|reflexivity].
    destruct (proj1 H eq_refl) as (item & Hin & Hne).
    rewrite (C key metadata item L Hin), (A item Hin) in Hne.
    now contradiction Hne.
Qed.

Lemma index_holds_extracted_terms_witness :
  reachable Sample.indexed /\ consistent Sample.indexed.
Proof.
  assert (R : reachable Sample.indexed)
    by (unfold Sample.indexed; apply reach_call; apply reach_initial).
  split; [exact R|].
  exact (proj1 (index_holds_extracted_terms Sample.indexed R)).
Defined.
(* ===================================================================== *)
(** *** The files of a result list *)
(* ===================================================================== *)

Section ResultFiles.

Lemma record_keys scores item score f :
  In f (JSMap.keys (Engine.record scores item score)) ->
  f = file item \/ In f (JSMap.keys scores).
Proof.
  unfold Engine.record. destruct (Engine.positive score); [|auto].
  apply set_keys_In.
Qed.

Lemma recorded_keys (score : CodeMetadata -> Double.t) metadata :
  forall acc f,
  In f (JSMap.keys
          (fold_left
             (fun scores item => Engine.record scores item (score item))
             metadata acc)) ->
  In f (JSMap.keys acc) \/ In f (map file metadata).
Proof.
  induction metadata as [|item metadata IH]; intros acc f; simpl; [auto|].
  intros H. destruct (IH _ _ H) as [H'|H']; [|auto].
  apply record_keys in H' as [->|H']; auto.
Qed.

Lemma recorded_NoDup (score : CodeMetadata -> Double.t) metadata :
  forall acc,
  List.NoDup (JSMap.keys acc) ->
  List.NoDup
    (JSMap.keys
       (fold_left
          (fun scores item => Engine.record scores item (score item))
          metadata acc)).
Proof.
  induction metadata as [|item metadata IH]; intros acc H; simpl; [exact H|].
  apply IH. unfold Engine.record.
  destruct (Engine.positive (score item)); [|exact H].
  now apply set_keys_NoDup.
Qed.

(** The score map of either branch is what the loop over the records
    leaves, for some score of each record. *)
Lemma keywordSearchOn_recorded tokens metadata scores :
  Engine.keywordSearchOn tokens metadata = Returns scores ->
  scores = [] \/
  exists score : CodeMetadata -> Double.t,
    scores =
    fold_left (fun scores item => Engine.record scores item (score item))
      metadata JSMap.empty.
Proof.
  unfold Engine.keywordSearchOn.
  destruct tokens as [|t ts]; [intros [= <-]; now left|].
  destruct (Engine.hasKeywordIndices metadata).
  - intros [= <-]. right.
    now exists (fun item => Engine.prebuiltScore (t :: ts) (keywords item)).
  - intros H. right.
    exists (fun item =>
              returned Double.zero (Engine.fallbackScore (t :: ts) item)).
    now apply fallback_fold_returns.
Qed.

Lemma keywordSearchOn_keys tokens metadata scores :
  Engine.keywordSearchOn tokens metadata = Returns scores ->
  List.NoDup (JSMap.keys scores) /\
  forall f, In f (JSMap.keys scores) -> In f (map file metadata).
Proof.
  intros H.
  destruct (keywordSearchOn_recorded _ _ _ H) as [->|(score & ->)].
  - split; [constructor | intros f []].
  - split; [apply recorded_NoDup; constructor|].
    intros f Hf. apply recorded_keys in Hf as [[]|Hf]. exact Hf.
Qed.

Lemma findFile_In metadata f :
  In f (map file metadata) -> is_Some (Engine.findFile metadata f).
Proof.
  unfold Engine.findFile.
  induction metadata as [|item metadata IH]; simpl; [intros []|].
  intros [<-|H].
  - rewrite str_eqb_refl. now eexists.
  - destruct (Str.eqb (file item) f); [now eexists | now apply IH].
Qed.

(** The non-null assertion of the look-up in [search] holds. *)
Lemma scored_total metadata entries :
  (forall f, In f (map fst entries) -> In f (map file metadata)) ->
  is_Some (Engine.scored metadata entries).
Proof.
  induction entries as [|[f sc] rest IH]; intros H; simpl; [now eexists|].
  destruct (findFile_In metadata f) as [item ->]; [apply H; now left|].
  destruct IH as [l ->]; [intros g Hg; apply H; now right|].
  now eexists.
Qed.

Lemma scored_code metadata entries l :
  Engine.scored metadata entries = Some l ->
  forall r, In r l ->
    exists item,
      Engine.findFile metadata (r_file r) = Some item /\
      r_code r = code item.
Proof.
  revert l. induction entries as [|[f sc] rest IH]; intros l; simpl.
  - intros [= <-] r [].
  - destruct (Engine.findFile metadata f) as [item|] eqn:F; [|discriminate].
    destruct (Engine.scored metadata rest) as [l'|]; [|discriminate].
    intros [= <-] r [<-|H]; [|now apply (IH l')].
    exists item. simpl. auto.
Qed.

Lemma ranked_code i l r :
  In r (Engine.ranked i l) ->
  exists r', In r' l /\ r_file r = r_file r' /\ r_code r = r_code r'.
Proof.
  revert i. induction l as [|x l IH]; intros i; simpl; [intros []|].
  intros [<-|H].
  - exists x. simpl. auto.
  - destruct (IH _ H) as (r' & Hin & E). exists r'. auto.
Qed.

Lemma searchIndexed_not_TypeError w s query directory :
  Engine.searchIndexed w s query directory <> Throws TypeError.
Proof.
  unfold Engine.searchIndexed.
  destruct (Engine.getMetadataForDirectory w s directory) as [|item metadata]
    eqn:M; [discriminate|].
  unfold Engine.keywordSearch. rewrite M.
  destruct (Engine.keywordSearchOn (Engine.queryKeywords query)
              (item :: metadata)) as [scores|e| |] eqn:K; try discriminate.
  - destruct (keywordSearchOn_keys _ _ _ K) as [_ Hk].
    destruct (scored_total (item :: metadata) (JSMap.entries scores) Hk)
      as [l ->].
    discriminate.
  - rewrite (keywordSearchOn_errors _ _ _ K). discriminate.
Qed.

Lemma search_not_TypeError w query directory s :
  snd (Engine.search w query directory s) <> Throws TypeError.
Proof.
  destruct (search_cases w query directory s)
    as [(_ & ->) | [(_ & s' & _ & _ & ->) | [(_ & e & _ & He & ->)
                                            | (_ & _ & ->)]]]; simpl.
  - apply searchIndexed_not_TypeError.
  - apply searchIndexed_not_TypeError.
  - destruct He as [-> | [-> | ->]]; discriminate.
  - discriminate.
Qed.

End ResultFiles.

(** X4. [search] and [getRelevantFiles] never fail on the look-up of the
    record of a scored file (the non-null assertion of [search]): where
    the scoring returns a score map, every file of the map is the file of
    a stored record of the directory and the look-up finds a record for
    each entry; so neither call throws the [TypeError] of a property read
    on [undefined]. *)
Theorem search_finds_every_scored_file (w : World) (query directory : text)
    (s : State) :
  (forall scores,
      Engine.keywordSearch w s query directory = Returns scores ->
      (forall f, In f (JSMap.keys scores) ->
                 In f (map file
                         (Engine.getMetadataForDirectory w s directory))) /\
      is_Some (Engine.scored (Engine.getMetadataForDirectory w s directory)
                 (JSMap.entries scores))) /\
  snd (Engine.search w query directory s) <> Throws TypeError /\
  snd (Engine.getRelevantFiles w query directory s) <> Throws TypeError.
Proof.
  pose proof (search_not_TypeError w query directory s) as N.
  split; [|split; [exact N|]].
  - intros scores K. unfold Engine.keywordSearch in K.
    destruct (keywordSearchOn_keys _ _ _ K) as [_ Hk].
    split; [exact Hk | now apply scored_total].
  - unfold Engine.getRelevantFiles.
    destruct (Engine.search w query directory s) as [s' [results|e| |]];
      simpl in *; congruence.
Qed.

(** X5. The results of a search name pairwise different files, each the
    file of a stored record of the directory, with the text of the first
    record of that file; so there are at most as many results as stored
    records. *)
Theorem results_are_distinct_files (w : World) (query directory : text)
    (s s' : State) (results : list SearchResult) :
  Engine.search w query directory s = (s', Returns results) ->
  List.NoDup (map r_file results) /\
  length results <= length (Engine.getMetadataForDirectory w s' directory) /\
  forall r, In r results ->
    exists item,
      Engine.findFile (Engine.getMetadataForDirectory w s' directory)
        (r_file r) = Some item /\
      In item (Engine.getMetadataForDirectory w s' directory) /\
      r_code r = code item.
Proof.
  intros H. apply search_returns in H as [_ H].
  apply searchIndexed_returns in H as (scores & l & _ & K & Sc & ->).
  unfold Engine.keywordSearch in K.
  destruct (keywordSearchOn_keys _ _ _ K) as [Nd Hk].
  destruct (scored_entries _ _ _ Sc) as (Hf & _ & _).
  assert (P : Permutation (map r_file (Engine.ranked 0 (Engine.sort l)))
                (JSMap.keys scores)).
  { rewrite ranked_file. unfold JSMap.keys, JSMap.entries in *.
    rewrite <- Hf. apply Permutation_map. apply sort_permutation. }
  assert (Nd' : List.NoDup (map r_file (Engine.ranked 0 (Engine.sort l)))).
  { apply (Permutation_NoDup (Permutation_sym P)). exact Nd. }
  split; [exact Nd'|]. split.
  - rewrite <- (length_map r_file),
      <- (length_map file (Engine.getMetadataForDirectory w s' directory)).
    apply List.NoDup_incl_length; [exact Nd'|].
    intros f Hin. apply Hk.
    now apply (Permutation_in _ P).
  - intros r Hin. apply ranked_code in Hin as (r' & Hin & Ef & Ec).
    apply (Permutation_in _ (sort_permutation l)) in Hin.
    destruct (scored_code _ _ _ Sc r' Hin) as (item & F & C).
    exists item. rewrite Ef, Ec. split; [exact F|]. split; [|exact C].
    unfold Engine.findFile in F. now apply find_some in F as [Hi _].
Qed.

Lemma results_are_distinct_files_witness :
  List.NoDup (map r_file found) /\
  length found
  <= length (Engine.getMetadataForDirectory Sample.world searched
               "/home/proj/src").
Proof.
  destruct (results_are_distinct_files Sample.world "email send"
              "/home/proj/src" initial searched found eq_refl)
    as (N & L & _).
  split; [exact N | exact L].
Defined.
(* ===================================================================== *)
(** *** The shape of the terms *)
(* ===================================================================== *)

Section TermShape.

Import SpecExtract.

Lemma toLower_idem c : Char.toLower (Char.toLower c) = Char.toLower c.
Proof. destruct c as [[] [] [] [] [] [] [] []]; reflexivity. Qed.

Lemma toLowerCase_idem (s : text) :
  Str.toLowerCase (Str.toLowerCase s) = Str.toLowerCase s.
Proof.
  unfold Str.toLowerCase. rewrite map_map. apply map_ext.
  intros c. apply toLower_idem.
Qed.

Lemma wordOrSpace_toLower c :
  wordOrSpace (Char.toLower c) = wordOrSpace c.
Proof. destruct c as [[] [] [] [] [] [] [] []]; reflexivity. Qed.

Lemma lowerCase_Forall (s : text) :
  lowerCase s <-> List.Forall (fun c => Char.toLower c = c) s.
Proof.
  unfold lowerCase, Str.toLowerCase.
  induction s as [|c s IH]; simpl; split; intros H.
  - constructor.
  - reflexivity.
  - injection H as H1 H2. constructor; [exact H1 | now apply IH].
  - inversion H; subst. f_equal; [assumption | now apply IH].
Qed.

Lemma termChars_toLowerCase (s : text) :
  termChars s -> termChars (Str.toLowerCase s).
Proof.
  unfold termChars, Str.toLowerCase. intros H.
  apply List.Forall_map. revert H. apply List.Forall_impl.
  intros c Hc. now rewrite wordOrSpace_toLower.
Qed.

Lemma dropWhile_Forall (P : ascii -> Prop) p (s : text) :
  List.Forall P s -> List.Forall P (Str.dropWhile p s).
Proof.
  induction 1 as [|c s Hc Hs IH]; simpl; [constructor|].
  destruct (p c); [exact IH | now constructor].
Qed.

Lemma trim_Forall (P : ascii -> Prop) (s : text) :
  List.Forall P s -> List.Forall P (Str.trim s).
Proof.
  intros H. unfold Str.trim.
  apply List.Forall_rev, dropWhile_Forall, List.Forall_rev, dropWhile_Forall, H.
Qed.

Lemma replaceAllFrom_Forall (P : ascii -> Prop) ic r (rep : text) :
  List.Forall P rep ->
  forall (s : text) n,
    List.Forall P s -> List.Forall P (Re.replaceAllFrom ic r rep n s).
Proof.
  intros Hr s. induction s as [|c s IH]; intros n H; simpl.
  - destruct n; [|constructor].
    destruct (Re.exec ic r []); [exact Hr | constructor].
  - inversion H as [|c' s' Hc Hs]; subst.
    destruct n as [|n]; [|now apply IH].
    destruct (Re.exec ic r (c :: s)) as [[|len]|].
    + apply List.Forall_app. split; [exact Hr|].
      constructor; [exact Hc | now apply IH].
    + apply List.Forall_app. split; [exact Hr | now apply IH].
    + constructor; [exact Hc | now apply IH].
Qed.

Lemma replaceAll_Forall (P : ascii -> Prop) ic r (rep s : text) :
  List.Forall P rep -> List.Forall P s ->
  List.Forall P (Re.replaceAll ic r rep s).
Proof. intros Hr Hs. now apply replaceAllFrom_Forall. Qed.

Lemma skipn_Forall (P : ascii -> Prop) n (s : text) :
  List.Forall P s -> List.Forall P (skipn n s).
Proof.
  intros H. rewrite <- (firstn_skipn n s) in H.
  now apply List.Forall_app in H as [_ H].
Qed.

Lemma replaceFirst_Forall (P : ascii -> Prop) (p s : text) :
  List.Forall P s -> List.Forall P (Str.replaceFirst p [] s).
Proof.
  induction 1 as [|c s Hc Hs IH].
  - simpl. destruct (Str.startsWith p []); [|constructor].
    simpl. apply skipn_Forall. constructor.
  - cbn [Str.replaceFirst].
    destruct (Str.startsWith p (c :: s)).
    + simpl. apply skipn_Forall. now constructor.
    + now constructor.
Qed.

Lemma replaceFirst_length (p s : text) :
  length s - length p <= length (Str.replaceFirst p [] s).
Proof.
  induction s as [|c s IH].
  - simpl. lia.
  - cbn [Str.replaceFirst].
    destruct (Str.startsWith p (c :: s)).
    + cbn [app]. rewrite length_skipn. lia.
    + simpl length in *. lia.
Qed.

Lemma segment_Forall (P : ascii -> Prop) (s pre seg post : text) :
  s = pre ++ seg ++ post -> List.Forall P s -> List.Forall P seg.
Proof.
  intros -> H. apply List.Forall_app in H as [_ H].
  now apply List.Forall_app in H as [H _].
Qed.

Lemma forallb_Forall (p q : ascii -> bool) (s : text) :
  (forall c, p c = true -> q c = true) ->
  forallb p s = true -> List.Forall (fun c => q c = true) s.
Proof.
  intros I H. apply List.Forall_forall. intros c Hc.
  apply I. rewrite forallb_forall in H. now apply H.
Qed.

(** The text of step 1 holds lower-case word characters and spaces. *)
Lemma normalizedCode_chars code :
  List.Forall (fun c => Char.toLower c = c /\ wordOrSpace c = true)
    (Extract.normalizedCode code).
Proof.
  unfold Extract.normalizedCode.
  apply trim_Forall, replaceAll_Forall.
  { constructor; [split; reflexivity | constructor]. }
  rewrite replace_symbols. apply List.Forall_map.
  unfold Str.toLowerCase. apply List.Forall_map.
  apply List.Forall_forall. intros c _. unfold blank.
  destruct (wordOrSpace (Char.toLower c)) eqn:E.
  - split; [apply toLower_idem | exact E].
  - split; reflexivity.
Qed.

Lemma word_chars code word :
  In word (Str.split " " (Extract.normalizedCode code)) ->
  lowerCase word /\ termChars word.
Proof.
  intros H. apply split_segment in H as (pre & post & E).
  pose proof (segment_Forall _ _ _ _ _ E (normalizedCode_chars code)) as F.
  split.
  - apply lowerCase_Forall. revert F. apply List.Forall_impl. now intros c [].
  - revert F. apply List.Forall_impl. now intros c [].
Qed.

(** What the two declaration patterns match. *)
Lemma class_matches code m :
  In m (Re.matchAll false Extract.re_class code) ->
  exists o, m = matched o /\ well_formed o /\ o_shape o = ClassDeclaration.
Proof.
  unfold Re.matchAll.
  rewrite (matchAll_scan _ _ classAt_recognises eq_refl).
  intros H. apply in_map_iff in H as (o & <- & Ho).
  exists o. split; [reflexivity|].
  pose proof (scan_Forall
                (fun o => well_formed o /\ o_shape o = ClassDeclaration)
                classAt classAt_well_formed code 0) as F.
  rewrite List.Forall_forall in F. now apply F.
Qed.

Lemma function_matches code m :
  In m (Re.matchAll false Extract.re_function code) ->
  exists o, m = matched o /\ well_formed o /\ o_shape o <> ClassDeclaration.
Proof.
  unfold Re.matchAll.
  rewrite (matchAll_scan _ _ functionAt_recognises eq_refl).
  intros H. apply in_map_iff in H as (o & <- & Ho).
  exists o. split; [reflexivity|].
  pose proof (scan_Forall
                (fun o => well_formed o /\ o_shape o <> ClassDeclaration)
                functionAt functionAt_well_formed code 0) as F.
  rewrite List.Forall_forall in F. now apply F.
Qed.

(** The parentheses of a match do not survive the stripping. *)
Lemma strip_Forall (P : ascii -> Prop) : forall (s : text) n,
  List.Forall (fun c => c = "("%char \/ P c) s ->
  List.Forall P (Re.replaceAllFrom false Extract.re_strip [] n s).
Proof.
  induction s as [|c s IH]; intros n H; simpl.
  - destruct n; [|constructor].
    destruct (Re.exec false Extract.re_strip []); constructor.
  - inversion H as [|c' s' Hc Hs]; subst.
    destruct n as [|n]; [|now apply IH].
    destruct (Ascii.eqb_spec c "("%char) as [->|N].
    + pose proof (exec_strip_paren [] s eq_refl) as E.
      cbn [app length] in E. rewrite E. now apply IH.
    + destruct Hc as [Hc|Hc]; [contradiction|].
      destruct (Re.exec false Extract.re_strip (c :: s)) as [[|len]|];
        cbn [app]; [constructor | | constructor]; auto.
Qed.

Lemma class_key code m :
  In m (Re.matchAll false Extract.re_class code) ->
  let className := Str.toLowerCase (Str.replaceFirst "class " [] m) in
  className <> [] /\ lowerCase className /\ termChars className.
Proof.
  intros H. apply class_matches in H as (o & -> & (Hg & Hn & Hne & Hge) & Hs).
  simpl. unfold matched. rewrite Hs. split; [|split].
  - intros E. apply (f_equal (@length ascii)) in E.
    unfold Str.toLowerCase in E. rewrite length_map in E.
    pose proof (replaceFirst_length "class "
                  ("class" ++ o_gap o ++ o_name o)) as L.
    rewrite !length_app in L.
    assert (o_gap o <> []) by (apply Hge; rewrite Hs; discriminate).
    destruct (o_gap o); [contradiction|].
    destruct (o_name o); [contradiction|].
    simpl in *. lia.
  - apply toLowerCase_idem.
  - apply termChars_toLowerCase, replaceFirst_Forall.
    apply List.Forall_app. split; [repeat constructor|].
    apply List.Forall_app. split.
    + revert Hg. apply forallb_Forall. intros c Hc.
      unfold wordOrSpace. rewrite Hc. apply orb_true_r.
    + revert Hn. apply forallb_Forall. intros c Hc.
      unfold wordOrSpace. now rewrite Hc.
Qed.

Lemma function_key code m :
  In m (Re.matchAll false Extract.re_function code) ->
  let functionName :=
    Str.toLowerCase (Re.replaceAll false Extract.re_strip [] m) in
  lowerCase functionName /\ termChars functionName.
Proof.
  intros H.
  apply function_matches in H as (o & -> & (Hg & Hn & Hne & Hge) & Hs).
  simpl. split; [apply toLowerCase_idem|].
  apply termChars_toLowerCase. unfold Re.replaceAll. apply strip_Forall.
  assert (G : List.Forall
                (fun c => c = "("%char \/ wordOrSpace c = true) (o_gap o)).
  { apply List.Forall_forall. intros c Hc. right.
    rewrite forallb_forall in Hg. unfold wordOrSpace.
    rewrite (Hg c Hc). apply orb_true_r. }
  assert (N : List.Forall
                (fun c => c = "("%char \/ wordOrSpace c = true) (o_name o)).
  { apply List.Forall_forall. intros c Hc. right.
    rewrite forallb_forall in Hn. unfold wordOrSpace.
    now rewrite (Hn c Hc). }
  unfold matched. destruct (o_shape o); [contradiction | |].
  - apply List.Forall_app. split; [repeat (constructor; [now right|]);
                                    constructor|].
    apply List.Forall_app. now split.
  - apply List.Forall_app. split; [exact N|].
    apply List.Forall_app. split; [exact G|].
    constructor; [now left | constructor].
Qed.

Lemma fold_keys {A} (P : text -> Prop) (f : JSMap.t Z -> A -> JSMap.t Z)
    (l : list A) :
  (forall m a k, In a l -> In k (JSMap.keys (f m a)) ->
                 P k \/ In k (JSMap.keys m)) ->
  forall m k, In k (JSMap.keys (fold_left f l m)) ->
              P k \/ In k (JSMap.keys m).
Proof.
  induction l as [|a l IH]; intros H m k; simpl; [auto|].
  intros Hk. destruct (IH (fun m a k Ha => H m a k (or_intror Ha)) _ _ Hk)
    as [Hp|Hin]; [now left|].
  apply (H m a k (or_introl eq_refl) Hin).
Qed.

(** Every term of an extracted map is a word of step 1 longer than two
    characters, the name taken from a class match, or the name taken from
    a function match and longer than two characters. *)
Lemma extractKeywords_keys (P : text -> Prop) code :
  (forall word, In word (Str.split " " (Extract.normalizedCode code)) ->
                2 < length word -> P word) ->
  (forall m, In m (Re.matchAll false Extract.re_class code) ->
             P (Str.toLowerCase (Str.replaceFirst "class " [] m))) ->
  (forall m, In m (Re.matchAll false Extract.re_function code) ->
             2 < length (Str.toLowerCase
                           (Re.replaceAll false Extract.re_strip [] m)) ->
             P (Str.toLowerCase
                  (Re.replaceAll false Extract.re_strip [] m))) ->
  forall k, In k (JSMap.keys (Extract.extractKeywords code)) -> P k.
Proof.
  intros Hw Hc Hf k Hk. unfold Extract.extractKeywords in Hk.
  apply (fold_keys P) in Hk as [Hk|Hk]; [exact Hk| |].
  2:{ intros m a k' Ha. unfold Extract.countFunction.
      destruct (_ && _) eqn:E; [|auto].
      intros Hk'. apply set_keys_In in Hk' as [->|Hk']; [|auto].
      left. apply Hf; [exact Ha|].
      apply andb_prop in E as [E _]. now apply Nat.ltb_lt in E. }
  apply (fold_keys P) in Hk as [Hk|Hk]; [exact Hk| |].
  2:{ intros m a k' Ha. unfold Extract.countClass.
      intros Hk'. apply set_keys_In in Hk' as [->|Hk']; [|auto].
      left. now apply Hc. }
  apply (fold_keys P) in Hk as [Hk|[]]; [exact Hk|].
  intros m a k' Ha. unfold Extract.countWord.
  destruct (_ || _) eqn:E; [auto|].
  intros Hk'. apply set_keys_In in Hk' as [->|Hk']; [|auto].
  left. apply Hw; [exact Ha|].
  apply orb_false_elim in E as [E _]. apply Nat.leb_gt in E. lia.
Qed.

Lemma get_keys {V} (k : text) (m : JSMap.t V) v :
  JSMap.get k m = Some v -> In k (JSMap.keys m).
Proof.
  induction m as [|[k' v'] m IH]; simpl; [discriminate|].
  destruct (Str.eqb k k') eqn:E; [|auto].
  apply str_eqb_eq in E. subst. auto.
Qed.

Lemma extractKeywords_shape code k :
  In k (JSMap.keys (Extract.extractKeywords code)) ->
  k <> [] /\ lowerCase k /\ termChars k.
Proof.
  revert k.
  apply (extractKeywords_keys
           (fun k => k <> [] /\ lowerCase k /\ termChars k)).
  - intros word Hin Hl. destruct (word_chars code word Hin) as [L T].
    split; [|now split]. intros ->. simpl in Hl. lia.
  - intros m Hm. exact (class_key code m Hm).
  - intros m Hm Hl. destruct (function_key code m Hm) as [L T].
    split; [|now split]. intros E. rewrite E in Hl. simpl in Hl. lia.
Qed.

Lemma fold_positive {A} (f : JSMap.t Z -> A -> JSMap.t Z) (l : list A) :
  (forall m a, positive_values m -> positive_values (f m a)) ->
  forall m, positive_values m -> positive_values (fold_left f l m).
Proof.
  intros H. induction l as [|a l IH]; intros m Hm; simpl; auto.
Qed.

Lemma bump_positive n k m :
  (0 < n)%Z -> positive_values m -> positive_values (Extract.bump n k m).
Proof. intros Hn. exact (increment_positive (k, n) m Hn). Qed.

Lemma extractKeywords_positive code :
  positive_values (Extract.extractKeywords code).
Proof.
  unfold Extract.extractKeywords.
  apply fold_positive.
  { intros m a Hm. unfold Extract.countFunction.
    destruct (_ && _); [now apply bump_positive | exact Hm]. }
  apply fold_positive.
  { intros m a Hm. now apply bump_positive. }
  apply fold_positive.
  { intros m a Hm. unfold Extract.countWord.
    destruct (_ || _); [exact Hm | now apply bump_positive]. }
  intros t v. discriminate.
Qed.

(** A term stays in the map whatever is counted after it. *)
Lemma bump_keeps n k m t :
  is_Some (JSMap.get t m) -> is_Some (JSMap.get t (Extract.bump n k m)).
Proof.
  intros H. unfold Extract.bump. rewrite get_set.
  destruct (Str.eqb t k); [now eexists | exact H].
Qed.

Lemma fold_keeps {A} (f : JSMap.t Z -> A -> JSMap.t Z) (l : list A) t :
  (forall m a, is_Some (JSMap.get t m) -> is_Some (JSMap.get t (f m a))) ->
  forall m, is_Some (JSMap.get t m) ->
            is_Some (JSMap.get t (fold_left f l m)).
Proof.
  intros H. induction l as [|a l IH]; intros m Hm; simpl; auto.
Qed.

Lemma countWord_keeps m word t :
  is_Some (JSMap.get t m) -> is_Some (JSMap.get t (Extract.countWord m word)).
Proof.
  unfold Extract.countWord.
  destruct (_ || _); [auto | apply bump_keeps].
Qed.

Lemma countWord_counts words word : forall m,
  In word words -> significant word = true ->
  is_Some (JSMap.get word (fold_left Extract.countWord words m)).
Proof.
  induction words as [|x words IH]; intros m; simpl; [intros []|].
  intros [->|H] S; [|now apply IH].
  apply fold_keeps; [intros; now apply countWord_keeps|].
  unfold Extract.countWord. unfold significant in S.
  apply negb_true_iff in S. rewrite S.
  unfold Extract.bump. rewrite get_set, str_eqb_refl. now eexists.
Qed.

End TermShape.

(** X6. Every term of an extracted map has a positive weight, is not
    empty, is in lower case, and holds word characters and whitespace
    only. *)
Theorem terms_are_lower_case_words (code t : text) (v : Z) :
  JSMap.get t (Extract.extractKeywords code) = Some v ->
  (0 < v)%Z /\ t <> [] /\ lowerCase t /\ termChars t.
Proof.
  intros G. split; [exact (extractKeywords_positive code t v G)|].
  apply (extractKeywords_shape code). exact (get_keys _ _ _ G).
Qed.

Lemma terms_are_lower_case_words_witness :
  JSMap.get "userservice" (Extract.extractKeywords Snippet.service)
  = Some 11%Z /\
  (0 < 11)%Z /\ ("userservice" : text) <> [] /\
  lowerCase "userservice" /\ termChars "userservice".
Proof.
  split; [reflexivity|].
  exact (terms_are_lower_case_words Snippet.service "userservice" 11
           eq_refl).
Defined.

(** X7. Every word of the text of step 1 that is longer than two
    characters and not on the stoplist is a term of the map, whatever the
    class and function patterns add.  The words [nan] and [infinity] are
    among them: the stoplist holds them with capitals, and is asked about
    lower-case words only. *)
Theorem significant_words_are_terms (code : text) :
  (forall word,
      In word (Str.split " " (Extract.normalizedCode code)) ->
      2 < length word ->
      Extract.isCommonKeyword word = false ->
      is_Some (JSMap.get word (Extract.extractKeywords code))) /\
  (forall word,
      lowerCase word -> Extract.isCommonKeyword word = true ->
      In word (firstn 43 Extract.commonKeywords)) /\
  Extract.isCommonKeyword "nan" = false /\
  Extract.isCommonKeyword "infinity" = false.
Proof.
  split; [|split; [|split; reflexivity]].
  - intros word Hin Hl Hc. unfold Extract.extractKeywords.
    apply fold_keeps.
    { intros m a H. unfold Extract.countFunction.
      destruct (_ && _); [now apply bump_keeps | exact H]. }
    apply fold_keeps.
    { intros m a H. now apply bump_keeps. }
    apply countWord_counts; [exact Hin|].
    unfold SpecExtract.significant. rewrite Hc.
    apply Nat.ltb_lt in Hl. rewrite Nat.ltb_antisym in Hl.
    apply negb_true_iff in Hl. now rewrite Hl.
  - intros word L C. unfold Extract.isCommonKeyword in C.
    apply existsb_exists in C as (k & Hk & E).
    apply str_eqb_eq in E. subst k.
    change Extract.commonKeywords
      with (firstn 43 Extract.commonKeywords
            ++ [ "NaN" : text; "Infinity" : text ]) in Hk.
    apply in_app_or in Hk as [Hk|[<-|[<-|[]]]]; [exact Hk| |];
      discriminate L.
Qed.

(** X8. The query is read in lower case: a query and its lower-case form
    give the same tokens, and [search] the same state and outcome. *)
Theorem search_ignores_case (w : World) (query directory : text)
    (s : State) :
  Engine.queryKeywords (Str.toLowerCase query) = Engine.queryKeywords query /\
  Engine.search w (Str.toLowerCase query) directory s
  = Engine.search w query directory s.
Proof.
  assert (Q : Engine.queryKeywords (Str.toLowerCase query)
              = Engine.queryKeywords query).
  { unfold Engine.queryKeywords. now rewrite toLowerCase_idem. }
  split; [exact Q|].
  unfold Engine.search, Engine.searchIndexed, Engine.keywordSearch.
  now rewrite Q.
Qed.
(* ===================================================================== *)
(** *** Tokens that no term can hold *)
(* ===================================================================== *)

Section ForeignTokens.

Import SpecQuery.

Lemma pieces_no_space (s : text) : forall cur,
  List.Forall (fun c => Char.isSpace c = false) cur ->
  List.Forall (List.Forall (fun c => Char.isSpace c = false))
    (pieces cur s).
Proof.
  induction s as [|c s IH]; intros cur H; simpl.
  - constructor; [exact H | constructor].
  - destruct (Char.isSpace c) eqn:E.
    + constructor; [exact H | apply IH; constructor].
    + apply IH. apply List.Forall_app. split; [exact H|].
      constructor; [exact E | constructor].
Qed.

Lemma queryKeywords_no_space query t :
  In t (Engine.queryKeywords query) ->
  List.Forall (fun c => Char.isSpace c = false) t.
Proof.
  rewrite queryKeywords_queryTokens. unfold queryTokens.
  intros H. apply filter_In in H as [H _].
  pose proof (pieces_no_space (Str.toLowerCase query) [] (List.Forall_nil _))
    as F.
  rewrite List.Forall_forall in F. now apply F.
Qed.

Lemma punctuated_foreign query t :
  In t (Engine.queryKeywords query) -> punctuated t = true -> foreign t.
Proof.
  intros Hin P. unfold punctuated in P.
  apply existsb_exists in P as (c & Hc & W).
  apply negb_true_iff in W. exists c. split; [exact Hc|].
  pose proof (queryKeywords_no_space query t Hin) as F.
  rewrite List.Forall_forall in F.
  unfold SpecExtract.wordOrSpace. now rewrite W, (F c Hc).
Qed.

Lemma includes_In (p s : text) c :
  Str.includes p s = true -> In c p -> In c s.
Proof.
  intros H Hc. apply includes_app in H as (pre & post & ->).
  rewrite !in_app_iff. auto.
Qed.

Lemma filter_none {A} (f : A -> bool) (l : list A) :
  (forall a, In a l -> f a = false) -> List.filter f l = [].
Proof.
  induction l as [|a l IH]; intros H; simpl; [reflexivity|].
  rewrite (H a (or_introl eq_refl)). apply IH. intros b Hb. apply H. now right.
Qed.

Lemma foreign_token_term terms t :
  (forall k, In k (JSMap.keys terms) -> termChars k) ->
  foreign t ->
  termWeight terms t = 0%Z /\
  List.filter (fun e => properSubstring t (fst e)) (JSMap.entries terms)
  = [].
Proof.
  intros K (c & Hc & W).
  assert (N : forall k, In k (JSMap.keys terms) -> ~ In c k).
  { intros k Hk Hin. specialize (K k Hk). unfold termChars in K.
    rewrite List.Forall_forall in K. specialize (K c Hin). congruence. }
  split.
  - unfold termWeight. destruct (JSMap.get t terms) as [v|] eqn:G;
      [|reflexivity].
    exfalso. exact (N t (get_keys _ _ _ G) Hc).
  - apply filter_none. intros [k v] Hin. simpl. unfold properSubstring.
    destruct (Str.includes t k) eqn:I; [|reflexivity].
    exfalso. apply (N k).
    + unfold JSMap.keys. apply in_map_iff. now exists (k, v).
    + exact (includes_In _ _ _ I Hc).
Qed.

Lemma foreign_tokens_score terms tokens :
  (forall k, In k (JSMap.keys terms) -> termChars k) ->
  List.Forall foreign tokens ->
  Engine.prebuiltScore tokens terms = Double.zero.
Proof.
  intros K F. rewrite prebuiltScore_formula. unfold prebuilt, Double.sum.
  induction F as [|t ts Ht _ IH]; [reflexivity|].
  cbn [flat_map]. rewrite fold_left_app. unfold contributions at 2.
  destruct (foreign_token_term terms t K Ht) as [-> ->].
  exact IH.
Qed.

Lemma record_nothing (score : CodeMetadata -> Double.t) metadata :
  (forall item, In item metadata -> score item = Double.zero) ->
  fold_left (fun scores item => Engine.record scores item (score item))
    metadata JSMap.empty = [].
Proof.
  unfold JSMap.empty. induction metadata as [|item metadata IH]; intros H;
    simpl; [reflexivity|].
  unfold Engine.record at 2. rewrite (H item (or_introl eq_refl)).
  change (Engine.positive Double.zero) with false.
  apply IH. intros i Hi. apply H. now right.
Qed.

Lemma foreign_tokens_find_nothing tokens metadata :
  Engine.hasKeywordIndices metadata = true ->
  (forall item, In item metadata ->
                keywords item = Extract.extractKeywords (code item)) ->
  List.Forall foreign tokens ->
  Engine.keywordSearchOn tokens metadata = Returns [].
Proof.
  intros H C F. unfold Engine.keywordSearchOn. rewrite H.
  destruct tokens as [|t ts]; [reflexivity|].
  f_equal. apply record_nothing. intros item Hin.
  apply foreign_tokens_score; [|exact F].
  intros k Hk. rewrite (C item Hin) in Hk.
  now apply (extractKeywords_shape (code item)).
Qed.

End ForeignTokens.

(** X9. In the pre-built branch a token with a character outside of [\w]
    matches no term: the terms hold word characters and whitespace only,
    and a token holds no whitespace.  So in every reachable state a search
    over an index with terms, for a query whose tokens all hold such a
    character, returns no result. *)
Theorem punctuated_query_finds_nothing (w : World) (query directory : text)
    (s : State) :
  reachable s ->
  Engine.hasKeywordIndices
    (Engine.getMetadataForDirectory w
       (fst (Engine.search w query directory s)) directory) = true ->
  forallb punctuated (Engine.queryKeywords query) = true ->
  snd (Engine.search w query directory s) = Returns [].
Proof.
  intros R H P.
  pose proof (reachable_consistent _ (search_reachable w query directory s R))
    as C.
  assert (F : List.Forall foreign (Engine.queryKeywords query)).
  { apply List.Forall_forall. intros t Ht.
    apply (punctuated_foreign query t Ht).
    rewrite forallb_forall in P. now apply P. }
  assert (G : forall s',
             fst (Engine.search w query directory s) = s' ->
             Engine.searchIndexed w s' query directory = Returns []).
  { intros s' E. rewrite E in H, C.
    unfold Engine.searchIndexed, Engine.keywordSearch.
    unfold Engine.getMetadataForDirectory in *.
    destruct (directoryIndices s'
                !! Engine.getNormalizedDirectory w directory)
      as [metadata|] eqn:L; simpl in *; [|discriminate].
    destruct metadata as [|item metadata]; [discriminate|].
    rewrite (foreign_tokens_find_nothing _ _ H
               (fun i Hi => C _ _ i L Hi) F).
    reflexivity. }
  destruct (search_cases w query directory s)
    as [(_ & E) | [(_ & s' & _ & _ & E) | [(N & e & _ & _ & E)
                                          | (N & _ & E)]]];
    rewrite E in *; simpl in *.
  - now apply G.
  - now apply G.
  - unfold Engine.getMetadataForDirectory in H. rewrite N in H.
    discriminate.
  - unfold Engine.getMetadataForDirectory in H. rewrite N in H.
    discriminate.
Qed.

Lemma punctuated_query_finds_nothing_witness :
  reachable initial /\
  Engine.hasKeywordIndices
    (Engine.getMetadataForDirectory Sample.world
       (fst (Engine.search Sample.world "email.send" "/home/proj/src"
               initial))
       "/home/proj/src") = true /\
  forallb punctuated (Engine.queryKeywords "email.send") = true /\
  snd (Engine.search Sample.world "email.send" "/home/proj/src" initial)
  = Returns [].
Proof.
  split; [exact reach_initial|].
  split; [reflexivity|]. split; [reflexivity|].
  exact (punctuated_query_finds_nothing Sample.world "email.send"
           "/home/proj/src" initial reach_initial eq_refl eq_refl).
Defined.

(* ===================================================================== *)
(** *** The fall-back branch on plain tokens *)
(* ===================================================================== *)



(* ===================================================================== *)
(** *** The loop over the extensions *)
(* ===================================================================== *)

Section Extensions.

Lemma collect_app w ig directory absoluteDirectory e1 e2 : forall files,
  Discovery.collect w ig directory absoluteDirectory (e1 ++ e2) files =
  match Discovery.collect w ig directory absoluteDirectory e1 files with
  | Returns files1 =>
      Discovery.collect w ig directory absoluteDirectory e2 files1
  | o => o
  end.
Proof.
  induction e1 as [|ext e1 IH]; intros files; simpl; [reflexivity|].
  destruct (glob w _); [|reflexivity].
  destruct (Discovery.filterMatches w ig absoluteDirectory l);
    [apply IH | reflexivity].
Qed.

Lemma collect_from w ig directory absoluteDirectory exts : forall files,
  Discovery.collect w ig directory absoluteDirectory exts files =
  match Discovery.collect w ig directory absoluteDirectory exts [] with
  | Returns found => Returns (files ++ found)
  | o => o
  end.
Proof.
  induction exts as [|ext exts IH]; intros files; simpl.
  - now rewrite app_nil_r.
  - destruct (glob w _) as [matches|]; [|reflexivity].
    destruct (Discovery.filterMatches w ig absoluteDirectory matches)
      as [kept|]; [|reflexivity].
    rewrite (IH (files ++ kept)), (IH kept).
    destruct (Discovery.collect w ig directory absoluteDirectory exts [])
      as [l|e| |]; try reflexivity.
    now rewrite app_assoc.
Qed.

Lemma filter_filter {A} (f g : A -> bool) (l : list A) :
  List.filter g (List.filter f l) = List.filter (fun a => f a && g a) l.
Proof.
  induction l as [|a l IH]; simpl; [reflexivity|].
  destruct (f a); simpl; [|exact IH].
  destruct (g a); now rewrite IH.
Qed.

Lemma filterMatches_throws w ig absoluteDirectory matches :
  Discovery.filterMatches w ig absoluteDirectory matches = None <->
  exists file,
    In file matches /\
    ignores w ig (NodePath.relative (cwd w) absoluteDirectory file) = None.
Proof.
  induction matches as [|file rest IH]; simpl.
  - split; [discriminate | intros (f & [] & _)].
  - destruct (ignores w ig _) as [ignored|] eqn:I.
    + destruct (Discovery.filterMatches w ig absoluteDirectory rest)
        as [kept|].
      * split; [discriminate|]. intros (f & [<-|Hf] & N); [congruence|].
        exfalso. enough (Some kept = None) by discriminate.
        apply (proj2 IH). now exists f.
      * split; [intros _ | reflexivity].
        destruct (proj1 IH eq_refl) as (f & Hf & N). exists f. auto.
    + split; [intros _ | reflexivity]. exists file. auto.
Qed.

Lemma filterMatches_kept w ig absoluteDirectory matches kept :
  Discovery.filterMatches w ig absoluteDirectory matches = Some kept ->
  kept =
  List.filter
    (fun file =>
       negb (default false
               (ignores w ig
                  (NodePath.relative (cwd w) absoluteDirectory file))))
    matches.
Proof.
  revert kept. induction matches as [|file rest IH]; simpl; intros kept.
  - now intros [= <-].
  - destruct (ignores w ig _) as [ignored|]; [|discriminate].
    destruct (Discovery.filterMatches w ig absoluteDirectory rest)
      as [kept'|]; [|discriminate].
    intros [= <-]. rewrite (IH kept' eq_refl).
    now destruct ignored.
Qed.

End Extensions.

(** X11. Discovery goes extension by extension, with the ignore rules that
    were loaded for the directory.  For one extension: it throws where the
    pattern [directory/**/*ext] fails, and where the rules throw on the
    relative path of one of the matches; otherwise it returns the matches
    that are neither ignored nor test files, in the order of the matches.
    For a list of extensions it returns the files of each, one list after
    the other in the order of the extensions, so that a file is listed
    once for every listed extension that it matches, and it ends as the
    first extension that does not return ends. *)
Theorem discovery_by_extension (w : World) (directory : text)
    (ig : Gitignore.Ignore) :
  Discovery.loadGitignore w directory = Some ig ->
  let relativePath := NodePath.relative (cwd w)
                        (Path.resolve (cwd w) directory) in
  (forall ext,
      match glob w (directory ++ "/**/*" ++ ext) with
      | None =>
          Discovery.getSourceFiles w directory (Some [ext])
          = Throws DiscoveryFailed
      | Some matches =>
          ((exists file,
               In file matches /\ ignores w ig (relativePath file) = None) ->
           Discovery.getSourceFiles w directory (Some [ext])
           = Throws IgnoreFailed) /\
          ((forall file,
               In file matches -> ignores w ig (relativePath file) <> None) ->
           Discovery.getSourceFiles w directory (Some [ext]) =
           Returns
             (List.filter
                (fun file =>
                   negb (default false (ignores w ig (relativePath file)))
                   && negb (Discovery.isTestFile file))
                matches))
      end) /\
  (forall e1 e2,
      Discovery.getSourceFiles w directory (Some (e1 ++ e2)) =
      match Discovery.getSourceFiles w directory (Some e1) with
      | Returns files1 =>
          match Discovery.getSourceFiles w directory (Some e2) with
          | Returns files2 => Returns (files1 ++ files2)
          | o => o
          end
      | o => o
      end).
Proof.
  intros L relativePath. unfold Discovery.getSourceFiles. rewrite L.
  split.
  - intros ext. cbn [Discovery.collect from_option id].
    destruct (glob w _) as [matches|]; [|reflexivity].
    destruct (Discovery.filterMatches w ig (Path.resolve (cwd w) directory)
                matches) as [kept|] eqn:F.
    + split.
      * intros T. apply filterMatches_throws in T. congruence.
      * intros _. cbn [app Discovery.collect].
        rewrite (filterMatches_kept _ _ _ _ _ F).
        now rewrite filter_filter.
    + split; [reflexivity|].
      intros A. apply filterMatches_throws in F as (file & Hf & N).
      now destruct (A file Hf).
  - intros e1 e2. cbn [from_option id]. rewrite collect_app.
    destruct (Discovery.collect w ig directory _ e1 []) as [files1|e| |];
      try reflexivity.
    rewrite collect_from.
    destruct (Discovery.collect w ig directory _ e2 []) as [files2|e| |];
      try reflexivity.
    now rewrite List.filter_app.
Qed.

Lemma discovery_by_extension_witness :
  Discovery.loadGitignore Sample.world "/home/proj/src"
  = Some [ "node_modules/**" : text ] /\
  Discovery.getSourceFiles Sample.world "/home/proj/src"
    (Some ([ ".ts" : text ] ++ [ ".ts" : text ]))
  = Returns [ "/home/proj/src/a.ts" : text; "/home/proj/src/b.ts" : text;
              "/home/proj/src/a.ts" : text; "/home/proj/src/b.ts" : text ].
Proof.
  split; [reflexivity|].
  exact (proj2 (discovery_by_extension Sample.world "/home/proj/src"
                  [ "node_modules/**" : text ] eq_refl)
           [ ".ts" : text ] [ ".ts" : text ]).
Defined.

(* ===================================================================== *)
(** *** The summary of a text *)
(* ===================================================================== *)

Section Summary.

Import CodeInfo.

Lemma dropWhile_head p (s : text) : headIs p (Str.dropWhile p s) = false.
Proof.
  induction s as [|c s IH]; simpl; [reflexivity|].
  destruct (p c) eqn:E; [exact IH | exact E].
Qed.

Lemma dropWhile_id p (s : text) :
  headIs p s = false -> Str.dropWhile p s = s.
Proof. destruct s as [|c s]; simpl; [reflexivity | now intros ->]. Qed.

Lemma headIs_app p (a b : text) :
  a <> [] -> headIs p (a ++ b) = headIs p a.
Proof. destruct a; [contradiction | reflexivity]. Qed.

Lemma trim_idem (s : text) : Str.trim (Str.trim s) = Str.trim s.
Proof.
  unfold Str.trim.
  set (a := Str.dropWhile Char.isSpace s).
  set (b := Str.dropWhile Char.isSpace (rev a)).
  assert (Ha : headIs Char.isSpace a = false) by apply dropWhile_head.
  assert (Hb : headIs Char.isSpace b = false) by apply dropWhile_head.
  assert (E : a = rev b ++ rev (Str.takeWhile Char.isSpace (rev a))).
  { rewrite <- rev_app_distr. unfold b.
    rewrite takeWhile_dropWhile. now rewrite rev_involutive. }
  assert (Hr : headIs Char.isSpace (rev b) = false).
  { destruct (rev b) as [|c r] eqn:R; [reflexivity|].
    rewrite E in Ha. rewrite headIs_app in Ha by discriminate. exact Ha. }
  rewrite (dropWhile_id _ (rev b) Hr), rev_involutive.
  now rewrite (dropWhile_id _ b Hb).
Qed.

Lemma scanLine_fold lines : forall imports definitions services,
  let trimmed := map Str.trim lines in
  let defined :=
    map definitionLine
      (List.filter (fun t => negb (isImport t) && isDefinition t) trimmed) in
  fold_left scanLine lines (imports, definitions, services) =
  (imports ++ List.filter isImport trimmed,
   definitions ++ defined,
   services ++ List.filter isService defined).
Proof.
  induction lines as [|line lines IH]; intros imports definitions services;
    simpl.
  - now rewrite !app_nil_r.
  - destruct (isImport (Str.trim line)) eqn:I; simpl.
    + rewrite IH. simpl. now rewrite <- app_assoc.
    + destruct (isDefinition (Str.trim line)) eqn:D; simpl.
      * rewrite IH. simpl.
        destruct (isService (definitionLine (Str.trim line)));
          now rewrite <- !app_assoc.
      * apply IH.
Qed.

Lemma extractCodeInfo_lists code :
  let trimmed := map Str.trim (Str.split "010"%char code) in
  let defined :=
    map definitionLine
      (List.filter (fun t => negb (isImport t) && isDefinition t) trimmed) in
  imports (extractCodeInfo code) = List.filter isImport trimmed /\
  definitions (extractCodeInfo code) = defined /\
  services (extractCodeInfo code) = List.filter isService defined.
Proof.
  unfold extractCodeInfo. rewrite scanLine_fold. simpl. auto.
Qed.

Lemma extractCodeInfo_flags code :
  storageRelated (extractCodeInfo code) = related storagePatterns code /\
  apiRelated (extractCodeInfo code) = related apiPatterns code /\
  authRelated (extractCodeInfo code) = related authPatterns code.
Proof.
  unfold extractCodeInfo. rewrite scanLine_fold. simpl. auto.
Qed.

Lemma trim_absent c (s : text) : ~ In c s -> ~ In c (Str.trim s).
Proof.
  intros N Hin.
  assert (F : List.Forall (fun d => d <> c) (Str.trim s)).
  { apply trim_Forall. apply List.Forall_forall. intros d Hd ->. auto. }
  rewrite List.Forall_forall in F. now apply (F c Hin).
Qed.

Lemma definitionLine_shape (line : text) :
  let d := definitionLine (Str.trim line) in
  Str.includes "{" d = false /\ Str.trim d = d.
Proof.
  cbv zeta. unfold definitionLine.
  destruct (Str.includes "{" (Str.trim line)) eqn:B.
  - split; [|apply trim_idem].
    pose proof (split_no_sep "{"%char (Str.trim line)
                  (hd [] (Str.split "{" (Str.trim line)))) as N.
    destruct (Str.includes "{"
                (Str.trim (hd [] (Str.split "{" (Str.trim line))))) eqn:I;
      [|reflexivity].
    exfalso. apply (trim_absent _ _ (N ltac:(
      destruct (Str.split "{" (Str.trim line)) as [|p ps] eqn:S;
        [now apply split_nonempty in S | now left]))).
    apply (includes_In "{" _ _ I). now left.
  - split; [exact B | apply trim_idem].
Qed.

Lemma related_embedded patterns (pre code post : text) :
  related patterns code = true ->
  related patterns (pre ++ code ++ post) = true.
Proof.
  unfold related. intros H. apply existsb_exists in H as (p & Hp & I).
  apply existsb_exists. exists p. split; [exact Hp|].
  apply includes_app in I as (a & b & E). apply includes_app.
  exists (Str.toLowerCase pre ++ a), (b ++ Str.toLowerCase post).
  unfold Str.toLowerCase in *. rewrite !map_app, E.
  now rewrite <- !app_assoc.
Qed.

Lemma related_case patterns (code : text) :
  related patterns (Str.toLowerCase code) = related patterns code.
Proof. unfold related. now rewrite toLowerCase_idem. Qed.

End Summary.

(** X12. The definitions of a summary hold no opening brace and no
    whitespace at either end, and the services are exactly the definitions
    whose lower-case form mentions [service] or [client], in the order of
    the definitions. *)
Theorem definitions_of_a_summary (code : text) :
  (forall d,
      In d (CodeInfo.definitions (CodeInfo.extractCodeInfo code)) ->
      Str.includes "{" d = false /\ Str.trim d = d) /\
  CodeInfo.services (CodeInfo.extractCodeInfo code)
  = List.filter CodeInfo.isService
      (CodeInfo.definitions (CodeInfo.extractCodeInfo code)).
Proof.
  destruct (extractCodeInfo_lists code) as (_ & D & S).
  rewrite S, D. split; [|reflexivity].
  intros d Hd. apply in_map_iff in Hd as (t & <- & Ht).
  apply filter_In in Ht as [Ht _].
  apply in_map_iff in Ht as (line & <- & _).
  apply definitionLine_shape.
Qed.

(** X13. Every line of the text is sorted at most once: an import is a
    trimmed line that starts with [import ] or [from ], and such a line
    gives no definition even where it holds one of the definition words;
    the imports and the definitions together are at most as many as the
    lines. *)
Theorem lines_of_a_summary (code : text) :
  let info := CodeInfo.extractCodeInfo code in
  let trimmed := map Str.trim (Str.split "010"%char code) in
  CodeInfo.imports info = List.filter CodeInfo.isImport trimmed /\
  CodeInfo.definitions info
  = map CodeInfo.definitionLine
      (List.filter
         (fun t => negb (CodeInfo.isImport t) && CodeInfo.isDefinition t)
         trimmed) /\
  length (CodeInfo.imports info) + length (CodeInfo.definitions info)
  <= length (Str.split "010"%char code).
Proof.
  simpl. destruct (extractCodeInfo_lists code) as (I & D & _).
  rewrite I, D. split; [reflexivity|]. split; [reflexivity|].
  rewrite length_map, <- (length_map Str.trim (Str.split "010"%char code)).
  generalize (map Str.trim (Str.split "010"%char code)). intros l.
  induction l as [|t l IH]; simpl; [lia|].
  destruct (CodeInfo.isImport t); simpl; [lia|].
  destruct (CodeInfo.isDefinition t); simpl; lia.
Qed.

(** X14. The three flags of a summary look for their patterns anywhere in
    the lower-cased text: a flag that is set for a text is set for every
    text that contains it, and the flags of a text are those of its
    lower-case form. *)
Theorem flags_of_a_summary (code : text) :
  let info := CodeInfo.extractCodeInfo in
  (forall pre post,
      (CodeInfo.storageRelated (info code) = true ->
       CodeInfo.storageRelated (info (pre ++ code ++ post)) = true) /\
      (CodeInfo.apiRelated (info code) = true ->
       CodeInfo.apiRelated (info (pre ++ code ++ post)) = true) /\
      (CodeInfo.authRelated (info code) = true ->
       CodeInfo.authRelated (info (pre ++ code ++ post)) = true)) /\
  CodeInfo.storageRelated (info (Str.toLowerCase code))
  = CodeInfo.storageRelated (info code) /\
  CodeInfo.apiRelated (info (Str.toLowerCase code))
  = CodeInfo.apiRelated (info code) /\
  CodeInfo.authRelated (info (Str.toLowerCase code))
  = CodeInfo.authRelated (info code).
Proof.
  simpl. split.
  - intros pre post.
    destruct (extractCodeInfo_flags code) as (-> & -> & ->).
    destruct (extractCodeInfo_flags (pre ++ code ++ post))
      as (-> & -> & ->).
    repeat split; apply related_embedded.
  - destruct (extractCodeInfo_flags code) as (-> & -> & ->).
    destruct (extractCodeInfo_flags (Str.toLowerCase code))
      as (-> & -> & ->).
    repeat split; apply related_case.
Qed.
(* ===================================================================== *)
(** *** The climb to the root *)
(* ===================================================================== *)

Section Climb.

Variable existsSync : text -> bool.

Lemma startsWith_sep (p : text) :
  Str.startsWith "/" p = true <-> exists rest, p = Path.sep :: rest.
Proof.
  split.
  - intros H. apply startsWith_app in H as (post & ->). now exists post.
  - intros (rest & ->). apply startsWith_app. now exists rest.
Qed.

Lemma root_relative (p : text) :
  Str.startsWith "/" p = false -> NodePath.root p = [].
Proof.
  destruct p as [|c rest]; [reflexivity|]. intros H. unfold NodePath.root.
  destruct (NodePath.isSep c) eqn:S; [|reflexivity].
  unfold NodePath.isSep in S. apply Ascii.eqb_eq in S. subst c.
  discriminate H.
Qed.

Lemma dirname_relative (p : text) :
  p <> [] -> NodePath.root p = [] ->
  NodePath.dirname p <> [] /\ NodePath.root (NodePath.dirname p) = [].
Proof.
  destruct p as [|c rest]; [contradiction|]. intros _ R.
  unfold NodePath.root in R.
  destruct (NodePath.isSep c) eqn:S; [discriminate|].
  unfold NodePath.dirname. rewrite S.
  destruct (Str.dropWhile _ _) as [|x before]; cbn [andb].
  - split; [discriminate | reflexivity].
  - split; [discriminate|]. unfold NodePath.root. now rewrite S.
Qed.

Lemma climb_relative fuel : forall dir files,
  dir <> [] -> NodePath.root dir = [] ->
  Gitignore.climb fuel existsSync dir files = None.
Proof.
  induction fuel as [|fuel IH]; intros dir files Hne R; simpl;
    [reflexivity|].
  rewrite R. destruct (Str.eqb dir []) eqn:E.
  - apply str_eqb_eq in E. contradiction.
  - destruct (dirname_relative dir Hne R) as [Hd Hr]. now apply IH.
Qed.

(** Above the root of an absolute path the name gets shorter. *)
Lemma dirname_absolute (rest : text) :
  rest <> [] ->
  Str.startsWith "/" (NodePath.dirname (Path.sep :: rest)) = true /\
  length (NodePath.dirname (Path.sep :: rest)) <= length rest.
Proof.
  intros Hne. unfold NodePath.dirname.
  change (NodePath.isSep Path.sep) with true. cbn [andb].
  set (X := Str.dropWhile NodePath.isSep (rev rest)).
  assert (LX : length X <= length rest).
  { unfold X. rewrite <- (length_rev rest). apply length_dropWhile. }
  assert (HX : headIs NodePath.isSep X = false) by apply dropWhile_head.
  destruct (Str.dropWhile (fun d => negb (NodePath.isSep d)) X)
    as [|x before] eqn:D.
  - split; [reflexivity|]. destruct rest; [contradiction | simpl; lia].
  - assert (L : S (S (length before)) <= length X).
    { destruct X as [|y X']; [discriminate|].
      simpl in HX. simpl in D. rewrite HX in D. simpl in D.
      pose proof (length_dropWhile (fun d => negb (NodePath.isSep d)) X')
        as L.
      rewrite D in L. simpl in *. lia. }
    destruct (length before =? 0).
    + split; [reflexivity | simpl; lia].
    + split; [reflexivity|]. simpl. rewrite length_rev. lia.
Qed.

Lemma climb_absolute : forall n dir files,
  Str.startsWith "/" dir = true -> length dir <= n ->
  exists result,
    forall fuel, n <= fuel ->
      Gitignore.climb fuel existsSync dir files = Some result.
Proof.
  induction n as [|n IH]; intros dir files A L.
  - destruct dir; [discriminate A | simpl in L; lia].
  - apply startsWith_sep in A as (rest & ->).
    destruct rest as [|c rest].
    + exists files. intros [|fuel] F; [lia | reflexivity].
    + destruct (dirname_absolute (c :: rest)) as [A' L']; [discriminate|].
      destruct (IH (NodePath.dirname (Path.sep :: c :: rest))
                  (if existsSync
                        (NodePath.join (Path.sep :: c :: rest) ".gitignore")
                   then files
                        ++ [NodePath.join (Path.sep :: c :: rest)
                              ".gitignore"]
                   else files) A') as (result & H).
      { cbn [length] in L, L'. lia. }
      exists result. intros [|fuel] F; [lia|].
      cbn [Gitignore.climb].
      change (NodePath.root (Path.sep :: c :: rest)) with ("/" : text).
      assert (E : Str.eqb (Path.sep :: c :: rest) "/" = false)
        by (apply str_eqb_neq; discriminate).
      rewrite E. apply H. lia.
Qed.

(** On the path of a list of names. *)
Lemma join_snoc (names : list text) (n : text) :
  names <> [] ->
  Str.join "/" (names ++ [n]) = Str.join "/" names ++ "/" ++ n.
Proof.
  induction names as [|a names IH]; [contradiction|]. intros _.
  destruct names as [|b names].
  - reflexivity.
  - change (Str.join "/" ((a :: b :: names) ++ [n]))
      with (a ++ "/" ++ Str.join "/" ((b :: names) ++ [n])).
    rewrite IH by discriminate.
    change (Str.join "/" (a :: b :: names))
      with (a ++ "/" ++ Str.join "/" (b :: names)).
    now rewrite <- !app_assoc.
Qed.

Lemma join_nonempty (names : list text) :
  names <> [] -> List.Forall isName names -> Str.join "/" names <> [].
Proof.
  intros Hne F. destruct names as [|a names]; [contradiction|].
  inversion F as [|a' l' (Ha & _) _]; subst.
  destruct names; simpl; [exact Ha|].
  destruct a; [contradiction | discriminate].
Qed.

Lemma name_reversed (n : text) :
  isName n ->
  rev n <> [] /\
  headIs NodePath.isSep (rev n) = false /\
  forallb (fun d => negb (NodePath.isSep d)) (rev n) = true.
Proof.
  intros (Hne & _ & _ & N).
  assert (F : forallb (fun d => negb (NodePath.isSep d)) (rev n) = true).
  { apply forallb_forall. intros c Hc.
    apply in_rev in Hc. unfold NodePath.isSep.
    destruct (Ascii.eqb_spec c Path.sep) as [->|];
      [contradiction | reflexivity]. }
  split; [|split; [|exact F]].
  - intros E. apply (f_equal (@rev ascii)) in E.
    rewrite rev_involutive in E. now apply Hne.
  - destruct (rev n) as [|c r]; [reflexivity|].
    simpl in *. apply andb_prop in F as [F _].
    now apply negb_true_iff in F.
Qed.

Lemma dropWhile_all p (s : text) :
  forallb p s = true -> Str.dropWhile p s = [].
Proof.
  induction s as [|c s IH]; simpl; [reflexivity|].
  intros H. apply andb_prop in H as [-> H]. now apply IH.
Qed.

Lemma dirname_pathOf (names : list text) (n : text) :
  List.Forall isName (names ++ [n]) ->
  NodePath.dirname (pathOf (names ++ [n])) = pathOf names.
Proof.
  intros F. pose proof F as F'. apply List.Forall_app in F' as [Fn Fl].
  inversion Fl as [|n' l' Hn _]; subst.
  destruct (name_reversed n Hn) as (R & H & S).
  unfold pathOf, NodePath.dirname.
  change (NodePath.isSep Path.sep) with true. cbn [andb].
  destruct names as [|a names].
  - cbn [app Str.join].
    rewrite (dropWhile_id _ _ H), (dropWhile_all _ _ S). reflexivity.
  - rewrite join_snoc by discriminate.
    set (A := Str.join "/" (a :: names)).
    assert (E : rev (A ++ "/" ++ n) = rev n ++ Path.sep :: rev A).
    { rewrite !rev_app_distr. cbn [rev app list_ascii_of_string].
      now rewrite <- app_assoc. }
    rewrite E.
    rewrite (dropWhile_id NodePath.isSep)
      by (rewrite headIs_app by exact R; exact H).
    rewrite (dropWhile_app _ (rev n) (Path.sep :: rev A) S eq_refl).
    assert (L : (length (rev A) =? 0) = false).
    { apply Nat.eqb_neq. rewrite length_rev. intros L.
      apply length_zero_iff_nil in L.
      now apply (join_nonempty (a :: names)). }
    rewrite L. now rewrite rev_involutive.
Qed.

Lemma normalize_pathOf (names : list text) :
  names <> [] -> List.Forall isName names ->
  NodePath.normalize (pathOf names) = pathOf names.
Proof.
  intros Hne F. unfold pathOf, NodePath.normalize.
  change (NodePath.isSep Path.sep) with true.
  assert (T : Str.endsWith "/" (Path.sep :: Str.join "/" names) = false).
  { destruct (exists_last Hne) as (l & n & ->).
    destruct (join_last l n F) as (pre & c & -> & N).
    change (Str.endsWith ["/"%char] ((Path.sep :: pre) ++ [c]) = false).
    rewrite endsWith_last.
    destruct (Ascii.eqb_spec "/"%char c) as [<-|]; [|reflexivity].
    now contradiction N. }
  rewrite T.
  assert (S : Str.split Path.sep (Path.sep :: Str.join "/" names)
              = [] :: names).
  { cbn [Str.split]. rewrite Ascii.eqb_refl. now rewrite split_join. }
  rewrite S. cbn [fold_left].
  change (Path.pushSegment [] []) with (@nil text).
  change (fold_left Path.pushSegment names [])
    with (Path.normalizeSegments names).
  rewrite normalizeSegments_enter, fold_enter_names_id by exact F.
  cbn [app].
  destruct (Str.join "/" names) as [|c j] eqn:J; [|reflexivity].
  now apply join_nonempty in J.
Qed.

Lemma join_gitignore (names : list text) :
  names <> [] -> List.Forall isName names ->
  NodePath.join (pathOf names) ".gitignore" = gitignoreOf names.
Proof.
  intros Hne F. unfold gitignoreOf.
  assert (G : isName ".gitignore").
  { repeat split; try discriminate.
    intros [H|[H|[H|[H|[H|[H|[H|[H|[H|[H|[]]]]]]]]]]]; discriminate H. }
  rewrite <- (normalize_pathOf (names ++ [ ".gitignore" : text ])).
  2:{ destruct names; simpl; discriminate. }
  2:{ apply List.Forall_app. split; [exact F | now constructor]. }
  unfold NodePath.join, pathOf. rewrite join_snoc by exact Hne.
  reflexivity.
Qed.

Lemma prefixes_snoc {A} (l : list A) (a : A) :
  prefixes (l ++ [a]) = prefixes l ++ [l ++ [a]].
Proof.
  induction l as [|x l IH]; [reflexivity|].
  cbn [app prefixes]. rewrite IH, map_app. reflexivity.
Qed.

Lemma climb_names (names : list text) : forall files fuel,
  List.Forall isName names -> length names < fuel ->
  Gitignore.climb fuel existsSync (pathOf names) files
  = Some (files
          ++ List.filter existsSync
               (map gitignoreOf (rev (prefixes names)))).
Proof.
  induction names as [|n names IH] using rev_ind; intros files fuel F L.
  - destruct fuel as [|fuel]; [simpl in L; lia|].
    simpl. now rewrite app_nil_r.
  - destruct fuel as [|fuel]; [lia|].
    rewrite length_app in L. simpl in L.
    cbn [Gitignore.climb].
    change (NodePath.root (pathOf (names ++ [n]))) with ("/" : text).
    assert (E : Str.eqb (pathOf (names ++ [n])) "/" = false).
    { apply str_eqb_neq. unfold pathOf. intros [= J].
      apply (join_nonempty (names ++ [n])); [|exact F|exact J].
      destruct names; simpl; discriminate. }
    rewrite E, dirname_pathOf by exact F.
    rewrite join_gitignore by (exact F || (destruct names; simpl; discriminate)).
    rewrite IH.
    2:{ now apply List.Forall_app in F as [F _]. }
    2:{ lia. }
    rewrite prefixes_snoc, rev_app_distr. cbn [rev app map List.filter].
    destruct (existsSync (gitignoreOf (names ++ [n])));
      [now rewrite <- app_assoc | reflexivity].
Qed.

Lemma addFile_fold w files : forall ig,
  fold_left (Gitignore.addFile w) files ig = ig ++ contents w files.
Proof.
  induction files as [|f files IH]; intros ig; simpl;
    [now rewrite app_nil_r|].
  rewrite IH. unfold Gitignore.addFile.
  destruct (readFile w f); [now rewrite <- app_assoc | reflexivity].
Qed.

Lemma loadGitignore_names w (names : list text) fuel :
  List.Forall isName names ->
  length names < fuel ->
  Gitignore.loadGitignore fuel existsSync w (pathOf names)
  = Some (contents w
            (List.filter existsSync (map gitignoreOf (prefixes names)))
          ++ [ "node_modules/**" : text ]).
Proof.
  intros F L. unfold Gitignore.loadGitignore.
  rewrite (climb_names names [] fuel F L). cbn [app].
  rewrite addFile_fold. cbn [app].
  rewrite <- List.filter_rev, <- map_rev, rev_involutive.
  reflexivity.
Qed.

End Climb.

(** X15. For an absolute directory the climb of [loadGitignore] ends: it
    tests its condition at most as often as the directory has characters,
    and the last rule of the result is [node_modules/**]. *)
Theorem gitignore_of_an_absolute_directory (existsSync : text -> bool)
    (w : World) (directory : text) :
  Str.startsWith "/" directory = true ->
  exists ig,
    forall fuel, length directory <= fuel ->
      Gitignore.loadGitignore fuel existsSync w directory
      = Some (ig ++ [ "node_modules/**" : text ]).
Proof.
  intros A.
  destruct (climb_absolute existsSync (length directory) directory [] A
              (le_n _)) as (files & H).
  exists (fold_left (Gitignore.addFile w) (rev files) []).
  intros fuel F. unfold Gitignore.loadGitignore. now rewrite (H fuel F).
Qed.

Lemma gitignore_of_an_absolute_directory_witness :
  exists ig,
    forall fuel, length ("/p/../p/q/" : text) <= fuel ->
      Gitignore.loadGitignore fuel Nested.existsSync Nested.world
        "/p/../p/q/"
      = Some (ig ++ [ "node_modules/**" : text ]).
Proof.
  exact (gitignore_of_an_absolute_directory Nested.existsSync Nested.world
           "/p/../p/q/" eq_refl).
Defined.

(** X16. For a relative directory that is not empty the climb of
    [loadGitignore] does not end: [path.dirname] never leaves the relative
    paths, whose root is the empty string, and never gives the empty
    string; whatever the number of turns, the loop has not ended. *)
Theorem gitignore_of_a_relative_directory (existsSync : text -> bool)
    (w : World) (directory : text) (fuel : nat) :
  directory <> [] ->
  Str.startsWith "/" directory = false ->
  Gitignore.loadGitignore fuel existsSync w directory = None.
Proof.
  intros Hne R. unfold Gitignore.loadGitignore.
  now rewrite (climb_relative existsSync fuel directory []
                 Hne (root_relative directory R)).
Qed.

Lemma gitignore_of_a_relative_directory_witness :
  ("./src" : text) <> [] /\
  Str.startsWith "/" "./src" = false /\
  forall fuel,
    Gitignore.loadGitignore fuel Nested.existsSync Sample.world "./src"
    = None.
Proof.
  split; [discriminate|]. split; [reflexivity|]. intros fuel.
  apply (gitignore_of_a_relative_directory Nested.existsSync Sample.world
           "./src" fuel); [discriminate | reflexivity].
Defined.

(** X17. For the path of a directory given by its names, [loadGitignore]
    adds the rules of the [.gitignore] files of the directory and of its
    ancestors that exist and can be read, the outermost first, then
    [node_modules/**]; the [.gitignore] of the root itself is not among
    them. *)
Theorem gitignore_rules_outermost_first (existsSync : text -> bool)
    (w : World) (names : list text) (fuel : nat) :
  List.Forall isName names ->
  length names < fuel ->
  Gitignore.loadGitignore fuel existsSync w (pathOf names)
  = Some (contents w
            (List.filter existsSync (map gitignoreOf (prefixes names)))
          ++ [ "node_modules/**" : text ]).
Proof.
  intros F L. now apply loadGitignore_names.
Qed.

Lemma gitignore_rules_outermost_first_witness :
  List.Forall isName [ "p" : text; "q" : text ] /\
  Gitignore.loadGitignore 3 Nested.existsSync Nested.world "/p/q"
  = Some [ "out" : text; "dist" : text; "node_modules/**" : text ].
Proof.
  assert (F : List.Forall isName [ "p" : text; "q" : text ]).
  { repeat constructor; try discriminate; intros [H|[]]; discriminate H. }
  split; [exact F|].
  exact (gitignore_rules_outermost_first Nested.existsSync Nested.world
           [ "p" : text; "q" : text ] 3 F (le_n 3)).
Defined.
(* ===================================================================== *)
(** *** The outcome of a build *)
(* ===================================================================== *)

Section Build.













(** *** How a build ends *)

Lemma normalize_absolute (p : text) :
  Str.startsWith "/" p = true ->
  Str.startsWith "/" (NodePath.normalize p) = true.
Proof.
  intros H. apply startsWith_sep in H as [rest ->].
  unfold NodePath.normalize.
  change (NodePath.isSep Path.sep) with true. cbv iota.
  now destruct (Str.join "/" _).
Qed.

Lemma join_absolute (a b : text) :
  Str.startsWith "/" a = true ->
  Str.startsWith "/" (NodePath.join a b) = true.
Proof.
  intros H. unfold NodePath.join. apply normalize_absolute.
  apply startsWith_sep in H as [rest ->].
  now destruct b.
Qed.

Lemma loadGitignore_absolute w directory :
  Str.startsWith "/" directory = true ->
  exists ig, Discovery.loadGitignore w directory = Some ig.
Proof.
  intros H.
  destruct (climb_absolute (existsSync w) (length directory) directory []
              H (le_n _)) as [result C].
  unfold Discovery.loadGitignore, Gitignore.loadGitignore.
  rewrite (C (S (length directory))) by lia. eauto.
Qed.

Lemma loadGitignore_relative w directory :
  directory <> [] -> Str.startsWith "/" directory = false ->
  Discovery.loadGitignore w directory = None.
Proof.
  intros Hne H. unfold Discovery.loadGitignore, Gitignore.loadGitignore.
  now rewrite climb_relative by (exact Hne || now apply root_relative).
Qed.

Lemma getSourceFiles_ends w directory extensions :
  Str.startsWith "/" directory = true ->
  Discovery.getSourceFiles w directory extensions <> NeverReturns.
Proof.
  intros H. unfold Discovery.getSourceFiles.
  destruct (loadGitignore_absolute w directory H) as [ig ->].
  destruct (collect_modelled w ig directory
              (Path.resolve (cwd w) directory)
              (default Discovery.defaultExtensions extensions) [])
    as [_ N].
  destruct (Discovery.collect w ig directory _ _ []); congruence.
Qed.

Lemma subdirectoryFiles_ends w subdirs extensions :
  List.Forall (fun d => Str.startsWith "/" d = true) subdirs ->
  forall allFiles,
    Engine.subdirectoryFiles w subdirs extensions allFiles <> NeverReturns.
Proof.
  induction 1 as [|d ds Hd _ IH]; intros allFiles; simpl; [discriminate|].
  pose proof (getSourceFiles_ends w d extensions Hd) as N.
  pose proof (getSourceFiles_modelled w d extensions) as M.
  destruct (Discovery.getSourceFiles w d extensions); try congruence;
    apply IH.
Qed.

Lemma discover_ends w directory extensions :
  Str.startsWith "/" directory = true ->
  Engine.discover w directory extensions <> NeverReturns.
Proof.
  intros H. unfold Engine.discover.
  pose proof (getSourceFiles_ends w directory extensions H) as N.
  destruct (Discovery.getSourceFiles w directory extensions)
    as [[|f fs]|e| |]; try congruence; try discriminate.
  destruct (subdirectories w directory) as [items|]; [|discriminate].
  pose proof (subdirectoryFiles_ends w (map (NodePath.join directory) items)
                extensions) as S.
  destruct (Engine.subdirectoryFiles w _ extensions [])
    as [[|f fs]|e| |] eqn:Sf; try discriminate.
  exfalso. apply (S ltac:(apply List.Forall_map, List.Forall_forall;
                          intros item _; now apply join_absolute) []).
  exact Sf.
Qed.

Lemma discover_relative w directory extensions :
  directory <> [] -> Str.startsWith "/" directory = false ->
  Engine.discover w directory extensions = NeverReturns.
Proof.
  intros Hne H. unfold Engine.discover, Discovery.getSourceFiles.
  now rewrite loadGitignore_relative.
Qed.

End Build.


(** A file that cannot be read is skipped, and a directory without files
    is refused. *)
Example unreadable_file_is_skipped :
  snd (Engine.createIndex Unreadable.world "/x" None initial) = Returns tt /\
  map file
    (Engine.getMetadataForDirectory Unreadable.world
       (fst (Engine.createIndex Unreadable.world "/x" None initial)) "/x")
  = [ "/x/a.ts" : text ] /\
  Engine.createIndex Empty.world "/x" None initial
  = (initial, Throws NoFilesFound).
Proof. repeat split; vm_compute; reflexivity. Qed.

(** A build for the empty path searches from the root of the file system;
    the ignore rules refuse the path of a file that lies outside of the
    working directory, and the build ends with their error. *)
Example build_of_the_empty_path :
  Engine.createIndex Outside.world [] None initial
  = (initial, Throws IgnoreFailed).
Proof. vm_compute. reflexivity. Qed.

(** C8 fails on the code.  In the sample project, of working directory
    [/home/proj], the relative [./src] and the absolute [/home/proj/src]
    name one directory and have one key.  On a new engine the search under
    the absolute spelling builds the index and returns its ranking; the
    search under the relative spelling, and the build, never return.  So it
    is for every relative directory other than the empty path that has no
    index yet: the climb of [loadGitignore] does not end on it, whatever
    the number of turns.  Only once the index is stored is the relative
    spelling served from it, with the same ranking. *)
Theorem relative_spelling_never_returns :
  (forall w query directory s,
      directory <> [] -> Str.startsWith "/" directory = false ->
      directoryIndices s !! Engine.getNormalizedDirectory w directory
      = None ->
      (forall fuel,
          Gitignore.loadGitignore fuel (existsSync w) w directory = None) /\
      Engine.search w query directory s = (s, NeverReturns) /\
      Engine.getRelevantFiles w query directory s = (s, NeverReturns)) /\
  SpecPath.directoryOf (cwd Sample.world) "./src"
  = SpecPath.directoryOf (cwd Sample.world) "/home/proj/src" /\
  Engine.getNormalizedDirectory Sample.world "./src"
  = Engine.getNormalizedDirectory Sample.world "/home/proj/src" /\
  Engine.search Sample.world "email send" "/home/proj/src" initial
  = (searched, Returns found) /\
  map r_file found
  = [ "/home/proj/src/a.ts" : text; "/home/proj/src/b.ts" : text ] /\
  Engine.search Sample.world "email send" "./src" initial
  = (initial, NeverReturns) /\
  Engine.createIndex Sample.world "./src" None initial
  = (initial, NeverReturns) /\
  Engine.search Sample.world "email send" "./src" searched
  = (searched, Returns found).
Proof.
  split; [|repeat split; vm_compute; reflexivity].
  intros w query directory s Hne R L.
  assert (S : Engine.search w query directory s = (s, NeverReturns)).
  { pose proof (discover_relative w directory
                  (Some (Engine.implicitExtensions w s directory)) Hne R)
      as D.
    destruct (search_cases w query directory s)
      as [([m I] & _) | [(_ & s' & C & _) | [(_ & e & C & _)
                                            | (_ & _ & E)]]];
      [congruence | | | exact E];
      destruct (createIndex_cases w directory
                  (Some (Engine.implicitExtensions w s directory)) s)
        as [(files & D' & _)|[(e' & D' & _)|[_ E']]]; congruence. }
  split; [|split; [exact S|]].
  - intros fuel. unfold Gitignore.loadGitignore.
    now rewrite climb_relative by (exact Hne || now apply root_relative).
  - unfold Engine.getRelevantFiles. now rewrite S.
Qed.



(* ===================================================================== *)
(** *** The callers of the engine *)
(* ===================================================================== *)

Section Callers.

Lemma directoryOf_pathOf cwd (names : list text) :
  List.Forall isName names ->
  SpecPath.directoryOf cwd (pathOf names) = names.
Proof.
  intros F. unfold SpecPath.directoryOf, pathOf, SpecPath.components.
  change (SpecPath.isAbsolute (Path.sep :: Str.join "/" names)) with true.
  cbn [Str.split]. rewrite Ascii.eqb_refl. cbn [fold_left].
  change (SpecPath.enter [] []) with (@nil text).
  destruct names as [|n names]; [reflexivity|].
  rewrite split_join by (exact F || discriminate).
  now rewrite fold_enter_names_id.
Qed.

Lemma resolve_pathOf w directory :
  Path.resolve (cwd w) directory
  = pathOf (SpecPath.directoryOf (cwd w) directory).
Proof. unfold cwd. apply resolve_directoryOf. Qed.

Lemma resolve_key w directory :
  Engine.getNormalizedDirectory w (Path.resolve (cwd w) directory)
  = Engine.getNormalizedDirectory w directory.
Proof.
  rewrite !getNormalizedDirectory_keyOf, resolve_pathOf.
  now rewrite directoryOf_pathOf by apply directoryOf_names.
Qed.

(** A search that finds the index of its directory. *)
Lemma search_indexed w query directory s :
  is_Some (directoryIndices s !! Engine.getNormalizedDirectory w directory) ->
  Engine.search w query directory s
  = (s, Engine.searchIndexed w s query directory).
Proof. intros [m L]. unfold Engine.search. now rewrite L. Qed.

Lemma createIndex_outcome w directory extensions s1 s2 :
  snd (Engine.createIndex w directory extensions s1)
  = snd (Engine.createIndex w directory extensions s2).
Proof.
  destruct (createIndex_cases w directory extensions s1)
    as [(files & D & ->) | [(e & D & ->) | [D ->]]];
    destruct (createIndex_cases w directory extensions s2)
      as [(files' & D' & ->) | [(e' & D' & ->) | [D' ->]]];
    rewrite D in D'; try discriminate; simpl; congruence.
Qed.

Lemma createIndex_stored w directory extensions s s' :
  Engine.createIndex w directory extensions s = (s', Returns tt) ->
  exists files,
    Engine.discover w directory extensions = Returns files /\
    directoryIndices s' !! Engine.getNormalizedDirectory w directory
    = Some (fold_left (Engine.indexFile w) files []).
Proof.
  intros H.
  destruct (createIndex_cases w directory extensions s)
    as [(files & D & E) | [(e & D & E) | [D E]]]; rewrite E in H;
    [|discriminate..].
  injection H as <-. exists files. split; [exact D|].
  simpl. apply lookup_insert_eq.
Qed.

Lemma answer_after_build w query directory extensions s1 s1' s2 s2' :
  Engine.createIndex w (Server.resolvedDirectory w directory) extensions s1
  = (s1', Returns tt) ->
  Engine.createIndex w (Server.resolvedDirectory w directory) extensions s2
  = (s2', Returns tt) ->
  fst (Server.answer w query directory s1') = s1' /\
  snd (Server.answer w query directory s1')
  = snd (Server.answer w query directory s2').
Proof.
  intros H1 H2.
  destruct (createIndex_stored _ _ _ _ _ H1) as (f1 & D1 & L1).
  destruct (createIndex_stored _ _ _ _ _ H2) as (f2 & D2 & L2).
  rewrite D1 in D2. injection D2 as <-.
  unfold Server.answer.
  rewrite !search_indexed by (rewrite ?L1, ?L2; now eexists).
  rewrite (searchIndexed_lookup w s1' s2') by now rewrite L1, L2.
  now destruct (Engine.searchIndexed _ _ _ _).
Qed.

End Callers.

(** X18. The command line and the server hand [path.resolve] of their
    argument to the engine.  That is the path of the names of the
    directory, an absolute path with the key of the argument, and for it
    [loadGitignore] returns, with the rules of the directory and of its
    ancestors, the outermost first. *)
Theorem resolved_directory (existsSync : text -> bool) (w : World)
    (directory : text) :
  let resolved := Path.resolve (cwd w) directory in
  let names := SpecPath.directoryOf (cwd w) directory in
  resolved = pathOf names /\
  List.Forall isName names /\
  Str.startsWith "/" resolved = true /\
  Engine.getNormalizedDirectory w resolved
  = Engine.getNormalizedDirectory w directory /\
  forall fuel,
    length names < fuel ->
    Gitignore.loadGitignore fuel existsSync w resolved
    = Some (contents w
              (List.filter existsSync (map gitignoreOf (prefixes names)))
            ++ [ "node_modules/**" : text ]).
Proof.
  cbv zeta. pose proof (directoryOf_names (cwd w) directory) as F.
  rewrite resolve_pathOf.
  split; [reflexivity|]. split; [exact F|]. split; [reflexivity|].
  split; [rewrite <- resolve_pathOf; apply resolve_key|].
  intros fuel L. now apply loadGitignore_names.
Qed.

(** X19. A [search_code] request that names a directory builds the index
    of that directory before it searches: the engine is left as the build
    leaves it, and the answer, the files or the error, is the one that a
    new engine gives, whatever the engine held before. *)
Theorem request_with_a_directory (w : World) (query : text)
    (directory : option text) (extensions : option (list text))
    (s : State) :
  Server.given directory <> None ->
  fst (Server.search_code w query directory extensions s)
  = fst (Engine.createIndex w (Server.resolvedDirectory w directory)
           (Some (default Server.schemaExtensions extensions)) s) /\
  snd (Server.search_code w query directory extensions s)
  = snd (Server.search_code w query directory extensions initial).
Proof.
  intros G. unfold Server.search_code.
  destruct (Server.given directory) as [d|] eqn:E; [clear G|contradiction].
  set (exts := Some (default Server.schemaExtensions extensions)).
  pose proof (createIndex_outcome w (Server.resolvedDirectory w directory)
                exts s initial) as O.
  destruct (Engine.createIndex w (Server.resolvedDirectory w directory)
              exts s) as [s1 [[]|e1| |]] eqn:E1;
    destruct (Engine.createIndex w (Server.resolvedDirectory w directory)
                exts initial) as [s2 [[]|e2| |]] eqn:E2;
    simpl in O; try discriminate O.
  - destruct (answer_after_build w query directory exts s s1 initial s2
                E1 E2) as [F S].
    split; [exact F | exact S].
  - injection O as <-. split; reflexivity.
  - split; reflexivity.
  - split; reflexivity.
Qed.

Lemma request_with_a_directory_witness :
  Server.given (Some ("/x" : text)) <> None /\
  snd (Server.search_code Stop.world "subclass" (Some ("/x" : text)) None
         Sample.indexed)
  = Some (Server.Content [ "/x/a.ts" : text ]).
Proof.
  assert (G : Server.given (Some ("/x" : text)) <> None) by discriminate.
  split; [exact G|].
  destruct (request_with_a_directory Stop.world "subclass"
              (Some ("/x" : text)) None Sample.indexed G) as [_ ->].
  reflexivity.
Defined.
(* ===================================================================== *)
(** *** The files that a search returns *)
(* ===================================================================== *)

Section Hits.

Import SpecQuery.

Lemma In_get {V} (k : text) (v : V) (m : JSMap.t V) :
  List.NoDup (JSMap.keys m) -> In (k, v) m -> JSMap.get k m = Some v.
Proof.
  induction m as [|[k' v'] m IH]; simpl; [intros _ []|].
  intros N [E|H].
  - injection E as -> ->. now rewrite str_eqb_refl.
  - inversion N as [|x l Hx Hl]; subst.
    destruct (Str.eqb k k') eqn:E; [|now apply IH].
    apply str_eqb_eq in E. subst k'. exfalso. apply Hx.
    unfold JSMap.keys. apply in_map_iff. now exists (k, v).
Qed.

Lemma includes_refl (t : text) : Str.includes t t = true.
Proof. apply includes_app. exists [], []. now rewrite app_nil_r. Qed.

Lemma weight_amount (v : Z) (c : Double.t) lo :
  Double.signed false lo c -> c <> S754_infinity false ->
  (Double.emin + 52 <= lo)%Z -> (0 <= v)%Z ->
  Double.amount (Double.mul (Double.ofZ v) c) /\
  (Double.signed false Double.emin (Double.mul (Double.ofZ v) c)
   <-> (0 < v)%Z).
Proof.
  intros C F L V. destruct (Z.eq_dec v 0%Z) as [->|N].
  - assert (Z : Double.mul (Double.ofZ 0) c = Double.zero).
    { destruct (signed_cases _ _ _ C) as [->|(m & e & -> & _)];
        [contradiction | reflexivity]. }
    rewrite Z. split; [now left|]. split; [intros []|lia].
  - assert (P : (0 < v)%Z) by lia.
    pose proof (weighted_positive v c lo C L P) as S.
    split; [now right|]. tauto.
Qed.

Lemma d0_01_finite : Double.d0_01 <> S754_infinity false.
Proof. vm_compute. discriminate. Qed.

Lemma d0_005_finite : Double.d0_005 <> S754_infinity false.
Proof. vm_compute. discriminate. Qed.

(** What a token adds to the score of a map of positive weights. *)
Lemma token_hit terms t :
  positive_values terms -> List.NoDup (JSMap.keys terms) ->
  List.Forall Double.amount (contributions terms t) /\
  (List.Exists (Double.signed false Double.emin) (contributions terms t)
   <-> exists k, In k (JSMap.keys terms) /\ Str.includes t k = true).
Proof.
  intros P N.
  assert (L1 : (Double.emin + 52 <= -59)%Z) by (unfold Double.emin; lia).
  assert (L5 : (Double.emin + 52 <= -60)%Z) by (unfold Double.emin; lia).
  assert (W : (0 <= termWeight terms t)%Z /\
              ((0 < termWeight terms t)%Z <-> In t (JSMap.keys terms))).
  { unfold termWeight. destruct (JSMap.get t terms) as [v|] eqn:G; simpl.
    - pose proof (P t v G) as Hv.
      split; [lia|]. split; [intros _; exact (get_keys _ _ _ G) | auto].
    - split; [lia|]. split; [lia|].
      intros Hin. unfold JSMap.keys in Hin.
      apply in_map_iff in Hin as ([k v] & E & Hin). simpl in E. subst k.
      rewrite (In_get _ _ _ N Hin) in G. discriminate. }
  destruct W as [W0 W].
  destruct (weight_amount _ _ _ d0_01_signed d0_01_finite L1 W0)
    as [A0 S0].
  assert (E : forall k v, In (k, v) (JSMap.entries terms) -> (0 < v)%Z).
  { intros k v Hin. exact (P k v (In_get _ _ _ N Hin)). }
  unfold contributions. split.
  - constructor; [exact A0|].
    apply List.Forall_map, List.Forall_forall. intros [k v] Hin.
    apply filter_In in Hin as [Hin _]. simpl.
    apply (weight_amount _ _ _ d0_005_signed d0_005_finite L5).
    pose proof (E k v Hin). lia.
  - rewrite List.Exists_cons, S0, W, List.Exists_exists. split.
    + intros [H|(x & Hin & _)].
      * exists t. split; [exact H | apply includes_refl].
      * apply in_map_iff in Hin as ([k v] & _ & Hin).
        apply filter_In in Hin as [Hin Hp]. simpl in Hp.
        unfold properSubstring in Hp. apply andb_prop in Hp as [Hp _].
        exists k. split; [|exact Hp].
        unfold JSMap.keys. apply in_map_iff. now exists (k, v).
    + intros (k & Hk & I).
      destruct (Str.eqb k t) eqn:Q.
      * apply str_eqb_eq in Q. subst k. now left.
      * right. unfold JSMap.keys in Hk.
        apply in_map_iff in Hk as ([k' v] & E' & Hin).
        simpl in E'. subst k'.
        exists (Double.mul (Double.ofZ v) Double.d0_005). split.
        -- apply in_map_iff. exists (k, v). split; [reflexivity|].
           apply filter_In. split; [exact Hin|]. simpl.
           unfold properSubstring. now rewrite I, Q.
        -- apply (weight_amount _ _ _ d0_005_signed d0_005_finite L5);
             pose proof (E k v Hin); lia.
Qed.

Lemma prebuilt_hit terms tokens :
  positive_values terms -> List.NoDup (JSMap.keys terms) ->
  Engine.positive (Engine.prebuiltScore tokens terms) = true
  <-> hits tokens terms.
Proof.
  intros P N. rewrite prebuiltScore_formula. unfold prebuilt.
  assert (F : List.Forall Double.amount
                (flat_map (contributions terms) tokens)).
  { apply List.Forall_flat_map, List.Forall_forall. intros t _.
    apply (token_hit terms t P N). }
  destruct (sum_amount _ F) as [A S].
  unfold Engine.positive. rewrite (ltb_zero _ A), S.
  rewrite List.Exists_exists. split.
  - intros (x & Hin & Hx). apply in_flat_map in Hin as (t & Ht & Hin).
    assert (X : List.Exists (Double.signed false Double.emin)
                  (contributions terms t))
      by (apply List.Exists_exists; now exists x).
    apply (token_hit terms t P N) in X as (k & Hk & I).
    now exists t, k.
  - intros (t & k & Ht & Hk & I).
    assert (X : List.Exists (Double.signed false Double.emin)
                  (contributions terms t))
      by (apply (token_hit terms t P N); now exists k).
    apply List.Exists_exists in X as (x & Hin & Hx).
    exists x. split; [|exact Hx]. apply in_flat_map. now exists t.
Qed.

Lemma occurrences_includes (t : text) : t <> [] -> forall s,
  occurrences t s = 0 <-> Str.includes t s = false.
Proof.
  intros Hne. unfold occurrences.
  induction s as [|c s IH].
  - simpl. destruct t; [contradiction|]. simpl. tauto.
  - cbn [occurrencesFrom Str.includes].
    destruct (Str.startsWith t (c :: s)); simpl.
    + split; discriminate.
    + exact IH.
Qed.

Lemma boost_amount b (amount score : Double.t) :
  Double.signed false Double.emin amount ->
  Double.signed false Double.emin score ->
  Double.signed false Double.emin (Engine.boost b amount score).
Proof.
  intros A S. unfold Engine.boost. destruct b; [|exact S].
  apply add_amount; [now right | now right | now left].
Qed.

(** What a token adds in the fall-back branch. *)
Lemma fallbackKeyword_hit (code : text) (acc : Double.t) (t : text) :
  plain t -> Double.amount acc ->
  exists sc,
    Engine.fallbackKeyword code (Returns acc) t = Returns sc /\
    Double.amount sc /\
    (Double.signed false Double.emin sc <->
     Double.signed false Double.emin acc \/ Str.includes t code = true).
Proof.
  intros [Hne Hp] A. pose proof (occurrences_includes t Hne code) as O.
  rewrite (fallbackKeyword_literal code acc t Hne Hp).
  destruct (occurrences t code) as [|n].
  - exists acc. split; [reflexivity|]. split; [exact A|].
    rewrite (proj1 O eq_refl). split; [auto|]. intros [H|H]; [exact H|].
    discriminate.
  - assert (I : Str.includes t code = true).
    { destruct (Str.includes t code); [reflexivity|].
      pose proof (proj2 O eq_refl) as Z. discriminate Z. }
    assert (Sg : Double.signed false Double.emin
                  (Double.add acc
                     (Double.mul (Double.ofZ (Z.of_nat (S n)))
                        Double.d0_01))).
    { apply add_amount; [exact A | right | right];
        apply (weighted_positive _ _ (-59) d0_01_signed);
        unfold Double.emin; lia. }
    eexists. split; [reflexivity|].
    assert (B : Double.signed false Double.emin
                  (Engine.boost
                     (Re.test true (Engine.re_commentMatch (Re.Lit t)) code)
                     Double.d0_1
                     (Engine.boost
                        (Re.test true (Engine.re_functionMatch (Re.Lit t))
                           code)
                        Double.d0_2
                        (Engine.boost
                           (Re.test true (Engine.re_classMatch (Re.Lit t))
                              code)
                           Double.d0_3
                           (Double.add acc
                              (Double.mul (Double.ofZ (Z.of_nat (S n)))
                                 Double.d0_01)))))).
    { apply boost_amount; [exact d0_1_signed|].
      apply boost_amount; [exact d0_2_signed|].
      apply boost_amount; [exact d0_3_signed | exact Sg]. }
    split; [now right|]. split; auto.
Qed.

Lemma fallback_hit (tokens : list text) (item : CodeMetadata) :
  List.Forall plain tokens ->
  exists sc,
    Engine.fallbackScore tokens item = Returns sc /\
    (Engine.positive sc = true
     <-> occurs tokens (Str.toLowerCase (code item))).
Proof.
  intros P. unfold Engine.fallbackScore, occurs.
  generalize (Str.toLowerCase (code item)). intros lower.
  assert (G : forall acc,
             Double.amount acc ->
             exists sc,
               fold_left (Engine.fallbackKeyword lower) tokens (Returns acc)
               = Returns sc /\
               Double.amount sc /\
               (Double.signed false Double.emin sc <->
                Double.signed false Double.emin acc \/
                exists t, In t tokens /\ Str.includes t lower = true)).
  { induction P as [|t ts Ht _ IH]; intros acc A; cbn [fold_left].
    - exists acc. split; [reflexivity|]. split; [exact A|].
      split; [auto|]. now intros [H|(t & [] & _)].
    - destruct (fallbackKeyword_hit lower acc t Ht A)
        as (sc1 & -> & A1 & S1).
      destruct (IH sc1 A1) as (sc & E & A2 & S2).
      exists sc. split; [exact E|]. split; [exact A2|].
      rewrite S2, S1. split.
      + intros [[H|H]|(u & Hu & I)]; [now left | | ].
        * right. exists t. split; [now left | exact H].
        * right. exists u. split; [now right | exact I].
      + intros [H|(u & [<-|Hu] & I)]; [now left; left | now left; right|].
        right. now exists u. }
  destruct (G Double.zero (or_introl eq_refl)) as (sc & E & A & S).
  exists sc. split; [exact E|].
  unfold Engine.positive. rewrite (ltb_zero _ A), S. split.
  - intros [H|H]; [destruct H | exact H].
  - auto.
Qed.

(** The files of the score map that the loop over the records leaves. *)
Lemma recorded_files (score : CodeMetadata -> Double.t) metadata f :
  is_Some (JSMap.get f
             (fold_left
                (fun scores item => Engine.record scores item (score item))
                metadata JSMap.empty)) <->
  exists item,
    In item metadata /\ file item = f /\
    Engine.positive (score item) = true.
Proof.
  pose proof (recorded_scores score metadata JSMap.empty) as (G1 & _ & G3).
  split.
  - intros [sc G]. destruct (G1 f sc G) as [G0|(item & Hin & Hf & -> & Hp)];
      [discriminate|].
    now exists item.
  - intros (item & Hin & <- & Hp). now apply G3.
Qed.

End Hits.

(** X20. In the pre-built branch a file is in the score map, and so among
    the results, exactly when one of the query tokens occurs inside one of
    the terms of one of its records. *)
Theorem prebuilt_hits (tokens : list text) (metadata : list CodeMetadata) :
  tokens <> [] ->
  Engine.hasKeywordIndices metadata = true ->
  (forall item, In item metadata ->
                keywords item = Extract.extractKeywords (code item)) ->
  exists scores,
    Engine.keywordSearchOn tokens metadata = Returns scores /\
    forall f,
      is_Some (JSMap.get f scores) <->
      exists item,
        In item metadata /\ file item = f /\ hits tokens (keywords item).
Proof.
  intros Hne H C. unfold Engine.keywordSearchOn. rewrite H.
  destruct tokens as [|t ts]; [contradiction|].
  eexists. split; [reflexivity|]. intros f.
  rewrite (recorded_files
             (fun item => Engine.prebuiltScore (t :: ts) (keywords item))).
  split; intros (item & Hin & Hf & Hp); exists item;
    (split; [exact Hin|]; split; [exact Hf|]);
    rewrite (C item Hin) in *;
    now apply (prebuilt_hit _ _ (extractKeywords_positive (code item))
                 (extractKeywords_distinct (code item))).
Qed.

Lemma prebuilt_hits_witness :
  exists scores,
    Engine.keywordSearchOn [ "email" : text ] [notifier] = Returns scores /\
    is_Some (JSMap.get "/x/a.ts" scores).
Proof.
  destruct (prebuilt_hits [ "email" : text ] [notifier]
              ltac:(discriminate) eq_refl) as (scores & K & G).
  { intros item [<-|[]]. reflexivity. }
  exists scores. split; [exact K|]. apply G.
  exists notifier. split; [now left|]. split; [reflexivity|].
  exists ("email" : text), ("emailnotifier" : text).
  split; [now left|]. split; [now left | reflexivity].
Defined.

(** X21. In the fall-back branch, for tokens free of the syntax characters
    of regular expressions, a file is in the score map exactly when one of
    the tokens occurs in the lower-cased text of one of its records. *)
Theorem fallback_hits (tokens : list text) (metadata : list CodeMetadata) :
  tokens <> [] ->
  Engine.hasKeywordIndices metadata = false ->
  List.Forall SpecQuery.plain tokens ->
  exists scores,
    Engine.keywordSearchOn tokens metadata = Returns scores /\
    forall f,
      is_Some (JSMap.get f scores) <->
      exists item,
        In item metadata /\ file item = f /\
        occurs tokens (Str.toLowerCase (code item)).
Proof.
  intros Hne H P.
  set (score := fun item =>
                  returned Double.zero (Engine.fallbackScore tokens item)).
  assert (E : forall item,
             Engine.fallbackScore tokens item = Returns (score item) /\
             (Engine.positive (score item) = true <->
              occurs tokens (Str.toLowerCase (code item)))).
  { intros item. unfold score.
    destruct (fallback_hit tokens item P) as (sc & -> & Hs).
    split; [reflexivity | exact Hs]. }
  assert (K : Engine.keywordSearchOn tokens metadata
              = Returns (fold_left
                           (fun scores item =>
                              Engine.record scores item (score item))
                           metadata JSMap.empty)).
  { unfold Engine.keywordSearchOn. rewrite H.
    destruct tokens as [|t ts]; [contradiction|].
    generalize (@JSMap.empty Double.t). clear H.
    induction metadata as [|item metadata IH]; intros acc;
      [reflexivity|].
    cbn [fold_left]. unfold Engine.fallbackItem at 2.
    rewrite (proj1 (E item)). apply IH. }
  eexists. split; [exact K|]. intros f. rewrite recorded_files.
  split; intros (item & Hin & Hf & Hp); exists item;
    (split; [exact Hin|]; split; [exact Hf|]); now apply (E item).
Qed.

Lemma fallback_hits_witness :
  exists scores,
    Engine.keywordSearchOn [ "a-b" : text ]
      (Engine.getMetadataForDirectory Dots.world Dots.indexed "/x")
    = Returns scores /\
    is_Some (JSMap.get "/x/a.ts" scores).
Proof.
  assert (P : List.Forall SpecQuery.plain [ "a-b" : text ]).
  { repeat constructor; discriminate. }
  destruct (fallback_hits [ "a-b" : text ]
              (Engine.getMetadataForDirectory Dots.world Dots.indexed "/x")
              ltac:(discriminate) eq_refl P) as (scores & K & G).
  exists scores. split; [exact K|]. apply G.
  exists {| file := "/x/a.ts"; code := "a-b"; keywords := [];
            checksum := "a-b" |}.
  split; [now left|]. split; [reflexivity|].
  exists ("a-b" : text). split; [now left | reflexivity].
Defined.

(* ===================================================================== *)
(** *** Directories of tests *)
(* ===================================================================== *)

Section TestDirectories.

Variable w : World.

Hypothesis under_tests :
  forall pattern matches f,
    glob w pattern = Some matches -> In f matches ->
    Str.includes "__tests__" f = true.

Lemma collect_under_tests ig directory absoluteDirectory extensions :
  forall files l,
    Discovery.collect w ig directory absoluteDirectory extensions files
    = Returns l ->
    forall f, In f l ->
      In f files \/ Str.includes "__tests__" f = true.
Proof.
  induction extensions as [|ext extensions IH]; intros files l; simpl.
  - intros [= <-]. auto.
  - destruct (glob w _) as [matches|] eqn:G; [|discriminate].
    destruct (Discovery.filterMatches w ig absoluteDirectory matches)
      as [kept|] eqn:K; [|discriminate].
    intros H f Hin. destruct (IH _ _ H f Hin) as [Hf|Hf]; [|auto].
    apply in_app_or in Hf as [Hf|Hf]; [auto|].
    rewrite (filterMatches_kept _ _ _ _ _ K) in Hf.
    apply filter_In in Hf as [Hf _]. right.
    exact (under_tests _ _ _ G Hf).
Qed.

Lemma getSourceFiles_under_tests directory extensions files :
  Discovery.getSourceFiles w directory extensions = Returns files ->
  files = [].
Proof.
  unfold Discovery.getSourceFiles.
  destruct (Discovery.loadGitignore w directory) as [ig|]; [|discriminate].
  destruct (Discovery.collect w ig directory _ _ []) as [l|e| |] eqn:C;
    try discriminate.
  intros [= <-]. apply filter_none. intros f Hin.
  destruct (collect_under_tests _ _ _ _ _ _ C f Hin) as [[]|I].
  unfold Discovery.isTestFile. rewrite I.
  now rewrite !orb_true_r.
Qed.

Lemma subdirectoryFiles_under_tests subdirs extensions :
  forall allFiles files,
    Engine.subdirectoryFiles w subdirs extensions allFiles = Returns files ->
    files = allFiles.
Proof.
  induction subdirs as [|d ds IH]; intros allFiles files; simpl.
  - now intros [= <-].
  - destruct (Discovery.getSourceFiles w d extensions) as [sub|e| |] eqn:G;
      try discriminate.
    + rewrite (getSourceFiles_under_tests _ _ _ G), app_nil_r. apply IH.
    + apply IH.
Qed.

Lemma discover_under_tests directory extensions files :
  Engine.discover w directory extensions <> Returns files.
Proof.
  unfold Engine.discover.
  destruct (Discovery.getSourceFiles w directory extensions)
    as [found|e| |] eqn:G; try discriminate.
  rewrite (getSourceFiles_under_tests _ _ _ G).
  destruct (subdirectories w directory) as [items|]; [|discriminate].
  destruct (Engine.subdirectoryFiles w _ extensions []) as [l|e| |] eqn:S;
    try discriminate.
  rewrite (subdirectoryFiles_under_tests _ _ _ _ S). discriminate.
Qed.

End TestDirectories.

(** X22. Where every path that discovery finds lies under a [__tests__]
    directory, as for a directory that is itself under one, every file is
    taken for a test file: no build returns and none changes the engine.
    A build for an absolute directory throws, for want of files or with
    the failure of a pattern or of the ignore rules; a build for a
    relative directory may also never return. *)
Theorem nothing_under_tests_is_indexed (w : World) (directory : text)
    (extensions : option (list text)) (s : State) :
  (forall pattern matches f,
      glob w pattern = Some matches -> In f matches ->
      Str.includes "__tests__" f = true) ->
  (Engine.createIndex w directory extensions s = (s, Throws NoFilesFound) \/
   Engine.createIndex w directory extensions s
   = (s, Throws DiscoveryFailed) \/
   Engine.createIndex w directory extensions s = (s, Throws IgnoreFailed) \/
   Engine.createIndex w directory extensions s = (s, NeverReturns)) /\
  (Str.startsWith "/" directory = true ->
   Engine.createIndex w directory extensions s <> (s, NeverReturns)).
Proof.
  intros U.
  pose proof (discover_ends w directory extensions) as A.
  destruct (createIndex_cases w directory extensions s)
    as [(files & D & _) | [(e & D & ->) | [D ->]]].
  - now destruct (discover_under_tests w U directory extensions files).
  - split; [|discriminate].
    destruct (discover_errors _ _ _ _ D) as [-> | [-> | ->]]; auto.
  - split; [auto|]. intros H. now destruct (A H).
Qed.

Lemma nothing_under_tests_is_indexed_witness :
  Engine.createIndex Fixtures.world "/proj/__tests__/fixtures" None initial
  = (initial, Throws NoFilesFound).
Proof.
  destruct (nothing_under_tests_is_indexed Fixtures.world
              "/proj/__tests__/fixtures" None initial)
    as [[E|[E|[E|E]]] _].
  - intros pattern matches f. unfold Fixtures.world, glob.
    destruct (Str.eqb pattern _).
    + intros [= <-] [<-|[]]. reflexivity.
    + intros [= <-] [].
  - exact E.
  - discriminate E.
  - discriminate E.
  - discriminate E.
Defined.
